(** * openapi3: the JSON mapping of OpenAPI 3.0 documents

    A shallow embedding of the generated [UnmarshalJSON] / [MarshalJSON]
    methods of package [openapi3] and of [marshalUnion].

    Conventions.
    - [bytes] is a Go [[]byte] / [string]; byte operations of the source
      ([j[0]], [len(result)], [append]) are written out on [string].
    - A payload ([data []byte], [json.RawMessage]) that [encoding/json] accepts
      is represented by the JSON document it spells, a [json] tree; [print]
      gives the compact bytes of a document.  A string token is kept as the
      text between its quotes (the model covers payloads whose string
      literals are valid UTF-8 and have no escape sequences, for which this
      text is also the Go string).  What [json.Marshal] writes for a Go
      string is [json_string], with its escapes; for a number it is the
      literal of the float64.
    - A method with a pointer receiver is a function from the receiver's
      contents to its new contents and the returned error.  The contents
      are the fields of the struct: a nested node, and what a pointer or a
      slice of the receiver refers to, is held by value.
    - Go's [map] values that the methods write to are references into a
      [mapstore]; the order of [for k := range m] is left open ([RangeOrder]).
      The [MapOfAnything] maps of [Spec] and [Parameter] are held this way,
      so that the map shared by a receiver and the copy it is decoded into
      is one map.  The sharing of what the other pointers, slices and maps
      of a receiver refer to is not represented: where a method returns an
      error, the first component of the result is the receiver struct, and
      the properties below speak of the error, or of a receiver that holds
      no such reference.
*)

From Stdlib Require Import Ascii String List Bool Arith Lia ZArith.
From stdpp Require Import base option list gmap strings sorting.

Set Default Proof Using "Type".
#[local] Set Warnings "-register-all".

(** ** Bytes *)

Definition bytes := string.

(** The double quote character and a quoted token. *)
Definition dq : string := String "034"%char EmptyString.
Definition quote (s : string) : string := dq +:+ s +:+ dq.

(** The backslash. *)
Definition bs : string := String "092"%char EmptyString.

(** *** String literals of [json.Marshal]

    [encoding/json] (Go 1.22 and later) escapes the double quote, the
    backslash, the control characters and [<], [>], [&]; it writes the
    bytes of a valid UTF-8 encoding as they are, except U+2028 and U+2029,
    and the replacement character for a byte that is not part of one. *)

Definition hex_digit (n : nat) : ascii :=
  if n <? 10 then ascii_of_nat (48 + n) else ascii_of_nat (87 + n).

Definition in_range (lo hi : nat) (c : ascii) : bool :=
  (lo <=? nat_of_ascii c) && (nat_of_ascii c <=? hi).

(** A continuation byte of UTF-8. *)
Definition is_cont (c : ascii) : bool := in_range 128 191 c.

(** The length of the UTF-8 encoding that starts [s], whose first byte is not
    ASCII; 0 when the bytes are not a valid encoding
    ([utf8.DecodeRuneInString] gives [RuneError] and the size 1). *)
Definition rune_len (s : string) : nat :=
  match s with
  | String b0 (String b1 t) =>
      if in_range 194 223 b0 then (if is_cont b1 then 2 else 0)
      else
        match t with
        | String b2 t' =>
            let three :=
              (Ascii.eqb b0 "224" && in_range 160 191 b1
               || in_range 225 236 b0 && is_cont b1
               || Ascii.eqb b0 "237" && in_range 128 159 b1
               || in_range 238 239 b0 && is_cont b1)
              && is_cont b2 in
            if three then 3
            else
              match t' with
              | String b3 _ =>
                  if (Ascii.eqb b0 "240" && in_range 144 191 b1
                      || in_range 241 243 b0 && is_cont b1
                      || Ascii.eqb b0 "244" && in_range 128 143 b1)
                     && is_cont b2 && is_cont b3
                  then 4 else 0
              | EmptyString => 0
              end
        | EmptyString => 0
        end
  | _ => 0
  end.

(** One ASCII byte inside a string literal. *)
Definition escape_ascii (c : ascii) : string :=
  let n := nat_of_ascii c in
  if (n =? 34) || (n =? 92) then bs +:+ String c EmptyString
  else if n =? 8 then bs +:+ "b"
  else if n =? 12 then bs +:+ "f"
  else if n =? 10 then bs +:+ "n"
  else if n =? 13 then bs +:+ "r"
  else if n =? 9 then bs +:+ "t"
  else if (n <? 32) || (n =? 60) || (n =? 62) || (n =? 38)
  then bs +:+ "u00"
       +:+ String (hex_digit (n / 16)) (String (hex_digit (n mod 16)) EmptyString)
  else String c EmptyString.

Definition line_separator : string :=
  String "226" (String "128" (String "168" EmptyString)).
Definition paragraph_separator : string :=
  String "226" (String "128" (String "169" EmptyString)).

Fixpoint escape_go (fuel : nat) (s : string) : string :=
  match fuel with
  | 0 => EmptyString
  | S fuel' =>
      match s with
      | EmptyString => EmptyString
      | String c t =>
          if nat_of_ascii c <? 128 then escape_ascii c +:+ escape_go fuel' t
          else
            match rune_len s with
            | 0 => bs +:+ "ufffd" +:+ escape_go fuel' t
            | n =>
                let r := String.substring 0 n s in
                let rest := String.substring n (String.length s - n) s in
                (if String.eqb r line_separator then bs +:+ "u2028"
                 else if String.eqb r paragraph_separator then bs +:+ "u2029"
                 else r) +:+ escape_go fuel' rest
            end
      end
  end.

(** The string literal [json.Marshal] writes for a Go string. *)
Definition json_string (s : string) : string :=
  quote (escape_go (String.length s) s).

(** A string that is written as it is, between quotes. *)
Definition plain (s : string) : Prop := json_string s = quote s.

(** [j[1:]] *)
Definition bytes_tail (j : bytes) : bytes :=
  match j with
  | EmptyString => EmptyString
  | String _ t => t
  end.

(** [result[len(result)-1] = c] *)
Fixpoint bytes_set_last (c : ascii) (s : bytes) : bytes :=
  match s with
  | EmptyString => EmptyString
  | String a EmptyString => String c EmptyString
  | String a t => String a (bytes_set_last c t)
  end.

Fixpoint join (sep : string) (l : list string) : string :=
  match l with
  | [] => EmptyString
  | [x] => x
  | x :: l' => x +:+ sep +:+ join sep l'
  end.

(** ** Errors

    [errors.New] and [fmt.Errorf] (without [%w]) build an [*errors.errorString]:
    a value whose only content is its message.  [encoding/json] reports a
    mismatch between a token and the Go type as an [*json.UnmarshalTypeError]
    (its fields [Value], [Type], [Struct] and [Field]; the byte offset is not
    kept here), and the failure of a [MarshalJSON] method as a
    [*json.MarshalerError] around the error of the method. *)

Inductive error : Type :=
| errorString (s : string)
| UnmarshalTypeError (Value : string) (Type_ : string) (Struct : string)
    (Field : string)
| MarshalerError (Type_ : string) (Err : error).

Definition errors_New (s : string) : error := errorString s.

(** The [Error()] method. *)
Fixpoint Error (e : error) : string :=
  match e with
  | errorString s => s
  | UnmarshalTypeError v t st f =>
      if (String.length st =? 0) && (String.length f =? 0)
      then "json: cannot unmarshal " +:+ v +:+ " into Go value of type " +:+ t
      else "json: cannot unmarshal " +:+ v +:+ " into Go struct field "
           +:+ st +:+ "." +:+ f +:+ " of type " +:+ t
  | MarshalerError t err =>
      "json: error calling MarshalJSON for type " +:+ t +:+ ": " +:+ Error err
  end.

Global Instance error_eq_dec : EqDecision error.
Proof. solve_decision. Defined.

(** Result of an encoder: the bytes, a returned error, or a run-time panic
    (an index out of range aborts the goroutine, it is not an [error]). *)
Inductive outcome (A : Type) : Type :=
| Done (a : A)
| Failed (e : error)
| Panicked.
Global Arguments Done {A} a.
Global Arguments Failed {A} e.
Global Arguments Panicked {A}.

Abbreviation marshaled := (outcome bytes).

(** ** Values passed as [interface{}] to an encoder *)

Class Marshaler (T : Type) := json_Marshal : T → marshaled.

Inductive iface : Type :=
| Iface {T : Type} {M : Marshaler T} (v : T).

Definition json_Marshal_iface (m : iface) : marshaled :=
  match m with
  | Iface v => json_Marshal v
  end.

(** A fragment that is already encoded: the [json.RawMessage] constants of
    the package, compact JSON texts without a character that
    [json.Marshal] would escape, which it returns as they are. *)
Record RawMessage := Raw { raw_bytes : bytes }.
Global Instance RawMessage_Marshaler : Marshaler RawMessage :=
  fun r => Done (raw_bytes r).

(** ** marshalUnion *)

(** One turn of the loop body on the marshalled fragment [j]. *)
Inductive union_step : Type :=
| Continue (result : bytes) (isObject : bool)
| Return (e : error)
| IndexPanic.

Definition marshalUnion_step (result : bytes) (isObject : bool) (j : bytes)
  : union_step :=
  if String.eqb j "{}" then Continue result isObject
  else if String.eqb j "null" then Continue result isObject
  else
    match j with
    | EmptyString => IndexPanic
    | String j0 _ =>
        if negb (Ascii.eqb j0 "{") then
          if (String.length result =? 1)
             && (isObject || String.eqb result j)
          then Continue j false
          else Return (errors_New
                 ("failed to union map: object expected, " +:+ j +:+ " received"))
        else if negb isObject then
          Return (errors_New
                 ("failed to union " +:+ result +:+ " and " +:+ j))
        else
          let result :=
            if 1 <? String.length result
            then bytes_set_last "," result else result in
          Continue (result +:+ bytes_tail j) isObject
    end.

Fixpoint marshalUnion_loop (result : bytes) (isObject : bool)
    (maps : list iface) : marshaled :=
  match maps with
  | [] =>
      if isObject && (String.length result =? 1)
      then Done (result +:+ "}")
      else Done result
  | m :: maps' =>
      match json_Marshal_iface m with
      | Failed err => Failed err
      | Panicked => Panicked
      | Done j =>
          match marshalUnion_step result isObject j with
          | Continue result' isObject' =>
              marshalUnion_loop result' isObject' maps'
          | Return e => Failed e
          | IndexPanic => Panicked
          end
      end
  end.

Definition marshalUnion (maps : list iface) : marshaled :=
  marshalUnion_loop "{" true maps.

(** Fragments given by their bytes. *)
Definition raws (js : list bytes) : list iface := (fun j => Iface (Raw j)) <$> js.

(** ** float64

    A finite float64: the value is [mant * 2^exp], negated when [neg], with
    [mant < 2^53] and [-1074 <= exp <= 971], and [2^52 <= mant] unless
    [exp = -1074].  [strconv.ParseFloat] rounds the decimal to the nearest
    such value, ties to the even mantissa; [encoding/json] writes a float64
    with the fewest digits that are read back as the same value. *)

Record float64 : Type := F64 {
  f64_neg : bool;
  f64_mant : Z;
  f64_exp : Z;
}.

Definition is_digit (c : ascii) : bool :=
  (48 <=? nat_of_ascii c) && (nat_of_ascii c <=? 57).

Fixpoint span_digits (s : string) : string * string :=
  match s with
  | String c t =>
      if is_digit c
      then let '(d, r) := span_digits t in (String c d, r)
      else (EmptyString, s)
  | EmptyString => (EmptyString, EmptyString)
  end.

Fixpoint digits_Z (s : string) (acc : Z) : Z :=
  match s with
  | EmptyString => acc
  | String c t => digits_Z t (10 * acc + Z.of_nat (nat_of_ascii c - 48))%Z
  end.

Definition scan_sign (s : string) : bool * string :=
  match s with
  | String "-" t => (true, t)
  | _ => (false, s)
  end.

Definition scan_frac (s : string) : option (string * string) :=
  match s with
  | String "." t =>
      let '(f, r) := span_digits t in
      if String.length f =? 0 then None else Some (f, r)
  | _ => Some (EmptyString, s)
  end.

Definition scan_exp (s : string) : option (Z * string) :=
  match s with
  | String c t =>
      if Ascii.eqb c "e" || Ascii.eqb c "E" then
        let '(neg, t) :=
          match t with
          | String "-" u => (true, u)
          | String "+" u => (false, u)
          | _ => (false, t)
          end in
        let '(d, r) := span_digits t in
        if String.length d =? 0 then None
        else Some ((if neg then - digits_Z d 0 else digits_Z d 0)%Z, r)
      else Some (0%Z, s)
  | EmptyString => Some (0%Z, s)
  end.

(** A number literal of JSON: the sign, the digits [D] and the exponent [E]
    of the value [D * 10^E]. *)
Definition scan_number (lit : string) : option (bool * Z * Z) :=
  let '(neg, s) := scan_sign lit in
  let '(int, s) := span_digits s in
  if (String.length int =? 0)
     || ((1 <? String.length int) && String.prefix "0" int)
  then None
  else
    match scan_frac s with
    | None => None
    | Some (frac, s) =>
        match scan_exp s with
        | None => None
        | Some (ex, s) =>
            if negb (String.length s =? 0) then None
            else Some (neg, digits_Z (int +:+ frac) 0,
                       (ex - Z.of_nat (String.length frac))%Z)
        end
    end.

(** The float64 nearest to [num / den] (ties to even): mantissa and exponent,
    or [None] when it is beyond the largest finite value. *)
Definition round_ratio (num den : Z) : option (Z * Z) :=
  (let L := Z.log2 num - Z.log2 den in
   let q_at e := if 0 <=? e then num / (den * 2 ^ e)
                 else (num * 2 ^ (- e)) / den in
   let e := L - 52 in
   let e := if q_at e <? 2 ^ 52 then e - 1 else e in
   let e := Z.max e (-1074) in
   let sn := if 0 <=? e then num else num * 2 ^ (- e) in
   let sd := if 0 <=? e then den * 2 ^ e else den in
   let q := sn / sd in
   let r := sn mod sd in
   let q := if sd <? 2 * r then q + 1
            else if 2 * r =? sd then (if Z.odd q then q + 1 else q)
            else q in
   let '(q, e) := if q =? 2 ^ 53 then (2 ^ 52, e + 1) else (q, e) in
   if 971 <? e then None else Some (q, e))%Z.

(** [D * 10^E] for [D > 0]. *)
Definition round_decimal (D E : Z) : option (Z * Z) :=
  (if 310 <=? E then None
   else if (E <? 0) && ((Z.log2 D + 1) * 100 + 332 * E <=? -107600)
   then Some (0, -1074)
   else if 0 <=? E then round_ratio (D * 10 ^ E) 1
   else round_ratio D (10 ^ (- E)))%Z.

(** [strconv.ParseFloat(lit, 64)]: [None] is the range error. *)
Definition ParseFloat (lit : string) : option float64 :=
  match scan_number lit with
  | None => None
  | Some (neg, D, E) =>
      if (D =? 0)%Z then Some (F64 neg 0 (-1074))
      else
        match round_decimal D E with
        | None => None
        | Some (m, e) => Some (F64 neg m e)
        end
  end.

Definition digit_Z (n : Z) : ascii := ascii_of_nat (48 + Z.to_nat n).

Fixpoint Z_digits_go (fuel : nat) (n : Z) (acc : string) : string :=
  match fuel with
  | 0 => acc
  | S fuel' =>
      let acc' := String (digit_Z (n mod 10)) acc in
      if (n / 10 =? 0)%Z then acc' else Z_digits_go fuel' (n / 10)%Z acc'
  end.

(** The decimal digits of [n >= 0]. *)
Definition Z_digits (n : Z) : string :=
  Z_digits_go (S (Z.to_nat (Z.log2 n))) n EmptyString.

(** [m * 2^e >= 10^k], for [m > 0]. *)
Definition ge_pow10 (m e k : Z) : bool :=
  (let vn := if 0 <=? e then m * 2 ^ e else m in
   let vd := if 0 <=? e then 1 else 2 ^ (- e) in
   if 0 <=? k then 10 ^ k * vd <=? vn else vd <=? vn * 10 ^ (- k))%Z.

Fixpoint pow10_above (fuel : nat) (m e k : Z) : Z :=
  match fuel with
  | 0 => k
  | S fuel' => if ge_pow10 m e k then pow10_above fuel' m e (k + 1)%Z else k
  end.

(** The [k] with [10^(k-1) <= m * 2^e < 10^k]. *)
Definition decimal_point (m e : Z) : Z :=
  (let L := Z.log2 m + e in
   pow10_above 8 m e (((L - 1) * 30103) / 100000 - 2))%Z.

(** The integer [c] of [n] digits, or [10^n], and the exponent [x], such that
    [c * 10^x] is read back as [m * 2^e] and is the nearest to it among the
    decimals of [n] digits, if there is one. *)
Definition shortest_at (m e k : Z) (n : Z) : option (Z * Z) :=
  (let s := n - k in
   let vn := if 0 <=? e then m * 2 ^ e else m in
   let vd := if 0 <=? e then 1 else 2 ^ (- e) in
   let sn := if 0 <=? s then vn * 10 ^ s else vn in
   let sd := if 0 <=? s then vd else vd * 10 ^ (- s) in
   let lo := sn / sd in
   let r := sn mod sd in
   let ok c := match round_decimal c (- s) with
               | Some (m', e') => (m' =? m) && (e' =? e)
               | None => false
               end in
   let lo_ok := ok lo in
   let hi_ok := ok (lo + 1) in
   if r =? 0 then Some (lo, - s)
   else if lo_ok && hi_ok then
     if 2 * r <? sd then Some (lo, - s)
     else if sd <? 2 * r then Some (lo + 1, - s)
     else if Z.even lo then Some (lo, - s) else Some (lo + 1, - s)
   else if lo_ok then Some (lo, - s)
   else if hi_ok then Some (lo + 1, - s)
   else None)%Z.

Fixpoint shortest_from (fuel : nat) (m e k n : Z) : Z * Z :=
  match fuel with
  | 0 => (m, e)
  | S fuel' =>
      match shortest_at m e k n with
      | Some cx => cx
      | None => shortest_from fuel' m e k (n + 1)%Z
      end
  end.

Fixpoint strip_zeros (fuel : nat) (c x : Z) : Z * Z :=
  match fuel with
  | 0 => (c, x)
  | S fuel' =>
      if (c mod 10 =? 0)%Z then strip_zeros fuel' (c / 10)%Z (x + 1)%Z
      else (c, x)
  end.

(** The shortest digits that are read back as the value, and the position of
    the decimal point: the value is [0.digits * 10^dp]. *)
Definition shortest_digits (m e : Z) : string * Z :=
  let k := decimal_point m e in
  let '(c, x) := shortest_from 17 m e k 1 in
  let '(c, x) := strip_zeros 20 c x in
  let ds := Z_digits c in
  (ds, (Z.of_nat (String.length ds) + x)%Z).

Definition zeros (n : Z) : string :=
  String.string_of_list_ascii (repeat "0"%char (Z.to_nat n)).

(** [%f] with the shortest digits. *)
Definition fmt_f (ds : string) (dp : Z) : string :=
  let nd := Z.of_nat (String.length ds) in
  (if dp <=? 0 then "0." +:+ zeros (- dp) +:+ ds
   else if nd <=? dp then ds +:+ zeros (dp - nd)
   else String.substring 0 (Z.to_nat dp) ds +:+ "."
        +:+ String.substring (Z.to_nat dp) (Z.to_nat (nd - dp)) ds)%Z.

(** [%e] with the shortest digits, the exponent written as [encoding/json]
    leaves it ([e-07] becomes [e-7]). *)
Definition fmt_e (ds : string) (dp : Z) : string :=
  let ex := (dp - 1)%Z in
  let mant :=
    match ds with
    | String d EmptyString => ds
    | String d t => String d ("." +:+ t)
    | EmptyString => ds
    end in
  mant +:+ "e" +:+ (if (ex <? 0)%Z then "-" else "+") +:+ Z_digits (Z.abs ex).

(** [m1 * 2^e1 < m2 * 2^e2] *)
Definition f64_lt (m1 e1 m2 e2 : Z) : bool :=
  (let e := Z.min e1 e2 in
   m1 * 2 ^ (e1 - e) <? m2 * 2 ^ (e2 - e))%Z.

(** The bytes [encoding/json] writes for a float64. *)
Definition FormatFloat (f : float64) : string :=
  let 'F64 neg m e := f in
  let sign := if neg then "-" else EmptyString in
  if (m =? 0)%Z then sign +:+ "0"
  else
    let '(ds, dp) := shortest_digits m e in
    let small := match round_decimal 1 (-6) with
                 | Some (m6, e6) => f64_lt m e m6 e6
                 | None => false
                 end in
    let large := match round_decimal 1 21 with
                 | Some (m21, e21) => negb (f64_lt m e m21 e21)
                 | None => false
                 end in
    sign +:+ (if small || large then fmt_e ds dp else fmt_f ds dp).

(** ** JSON documents *)

Inductive json : Type :=
| JNull
| JBool (b : bool)
| JNum (lit : string)
| JStr (s : string)
| JArr (l : list json)
| JObj (kvs : list (string * json)).

(** The name [encoding/json] gives to the kind of a token in its errors. *)
Definition json_kind (j : json) : string :=
  match j with
  | JNull => "null"
  | JBool _ => "bool"
  | JNum _ => "number"
  | JStr _ => "string"
  | JArr _ => "array"
  | JObj _ => "object"
  end.

Definition print_member (pr : json → bytes) (kv : string * json) : bytes :=
  quote kv.1 +:+ ":" +:+ pr kv.2.

(** Compact bytes of a document; also the bytes of a [json.RawMessage]. *)
Fixpoint print (j : json) : bytes :=
  match j with
  | JNull => "null"
  | JBool true => "true"
  | JBool false => "false"
  | JNum lit => lit
  | JStr s => quote s
  | JArr l => "[" +:+ join "," (map print l) +:+ "]"
  | JObj kvs => "{" +:+ join "," (map (print_member print) kvs) +:+ "}"
  end.

(** A Go [map[string]T] filled from the members of an object: a later
    duplicate overwrites an earlier one. *)
Definition to_map {A} (kvs : list (string * A)) : gmap string A :=
  list_to_map (reverse kvs).

Definition key_le {A} (p q : string * A) : Prop := String.le p.1 q.1.
Global Instance key_le_dec {A} : RelDecision (@key_le A).
Proof. intros p q. unfold key_le. apply _. Defined.

(** The members [json.Marshal] writes for a map: sorted by key. *)
Definition sorted_members {A} (m : gmap string A) : list (string * A) :=
  merge_sort key_le (map_to_list m).

(** The value [json.Unmarshal] stores into an [interface{}], as the document
    [json.Marshal] writes for it: objects become maps (no order, no
    duplicates), written back with sorted keys; a number becomes a float64,
    written back with its shortest digits; a number beyond the range of
    float64 leaves nil in its place. *)
Fixpoint canon (j : json) : json :=
  match j with
  | JNum lit =>
      match ParseFloat lit with
      | Some f => JNum (FormatFloat f)
      | None => JNull
      end
  | JArr l => JArr (map canon l)
  | JObj kvs => JObj (sorted_members (to_map (map (fun kv => (kv.1, canon kv.2)) kvs)))
  | _ => j
  end.

(** The error the decoder saves while it fills an [interface{}]: the first
    number, in the order of the text, that float64 cannot hold. *)
Fixpoint number_error (j : json) : option error :=
  match j with
  | JNum lit =>
      match ParseFloat lit with
      | Some _ => None
      | None => Some (UnmarshalTypeError ("number " +:+ lit) "float64"
                        EmptyString EmptyString)
      end
  | JArr l =>
      (fix go (l : list json) : option error :=
         match l with
         | [] => None
         | j :: l' =>
             match number_error j with
             | Some e => Some e
             | None => go l'
             end
         end) l
  | JObj kvs =>
      (fix go (kvs : list (string * json)) : option error :=
         match kvs with
         | [] => None
         | kv :: kvs' =>
             match number_error kv.2 with
             | Some e => Some e
             | None => go kvs'
             end
         end) kvs
  | _ => None
  end.

(** The bytes [json.Marshal] writes for the value of an [interface{}] held as
    its document: strings and keys with their escapes. *)
Fixpoint encode (j : json) : bytes :=
  match j with
  | JNull => "null"
  | JBool true => "true"
  | JBool false => "false"
  | JNum lit => lit
  | JStr s => json_string s
  | JArr l => "[" +:+ join "," (map encode l) +:+ "]"
  | JObj kvs =>
      "{" +:+ join "," (map (fun kv => json_string kv.1 +:+ ":" +:+ encode kv.2)
                          kvs) +:+ "}"
  end.

(** A value of an [interface{}] that the decoder gives back as it is (its
    numbers are the literals of float64 values, the keys of its objects are
    sorted) and that [json.Marshal] writes without escapes. *)
Definition stable (v : json) : Prop :=
  canon v = v ∧ number_error v = None ∧ encode v = print v.

(** ** fmt *)

Definition digit (n : nat) : ascii := ascii_of_nat (48 + n).

Fixpoint fmt_d_go (fuel n : nat) (acc : string) : string :=
  match fuel with
  | 0 => acc
  | S fuel' =>
      let acc' := String (digit (n mod 10)) acc in
      if n / 10 =? 0 then acc' else fmt_d_go fuel' (n / 10) acc'
  end.

(** [%d] of an [int] that is not negative. *)
Definition fmt_d (n : nat) : string := fmt_d_go (S n) n EmptyString.

(** [%v] of a [[]string]. *)
Definition fmt_v_strings (l : list string) : string :=
  "[" +:+ join " " l +:+ "]".

(** [%v] of a [map[string]error]: entries sorted by key. *)
Definition fmt_v_errors (m : gmap string error) : string :=
  "map[" +:+ join " " (map (fun kv => kv.1 +:+ ":" +:+ Error kv.2) (sorted_members m))
  +:+ "]".

(** [regexX = regexp.MustCompile("^x-")] *)
Definition regexX_MatchString (key : string) : bool := String.prefix "x-" key.

(** ** encoding/json on Go types *)

(** [json_Unmarshal data v] is [json.Unmarshal(data, &v)]: the new contents of
    [v] and the error.  [isEmptyValue] is the test behind [omitempty].
    [saved data] tells what the decoder of an enclosing value does with an
    error on [data]: a mismatch between the document and a Go type is saved,
    and the decoding goes on ([true]); the error of an [UnmarshalJSON] method
    ends it ([false]).  [typeName] is the name of the type in the errors of
    the decoder, and [custom] tells that the type has a [MarshalJSON]
    method. *)
Class Codec (T : Type) := {
  Codec_Marshaler :: Marshaler T;
  zero : T;
  json_Unmarshal : json → T → T * option error;
  isEmptyValue : T → bool;
  saved : json → bool;
  typeName : string;
  custom : bool;
}.

(** [json.Marshal] on a value whose type has a [MarshalJSON] method: the
    error of the method is returned inside a [*json.MarshalerError]. *)
Definition call_MarshalJSON (typ : string) (r : marshaled) : marshaled :=
  match r with
  | Failed e => Failed (MarshalerError typ e)
  | _ => r
  end.

(** The same through a pointer: the error names the pointer type. *)
Definition through_pointer (r : marshaled) : marshaled :=
  match r with
  | Failed (MarshalerError t e) => Failed (MarshalerError ("*" +:+ t) e)
  | _ => r
  end.

(** [string] *)
Global Instance string_Codec : Codec string := {
  Codec_Marshaler := fun s => Done (json_string s);
  zero := EmptyString;
  json_Unmarshal data v :=
    match data with
    | JNull => (v, None)
    | JStr s => (s, None)
    | _ => (v, Some (UnmarshalTypeError (json_kind data) "string"
                       EmptyString EmptyString))
    end;
  isEmptyValue s := String.length s =? 0;
  saved _ := true;
  typeName := "string";
  custom := false;
}.

(** [bool] *)
Global Instance bool_Codec : Codec bool := {
  Codec_Marshaler := fun b => Done (if b then "true" else "false");
  zero := false;
  json_Unmarshal data v :=
    match data with
    | JNull => (v, None)
    | JBool b => (b, None)
    | _ => (v, Some (UnmarshalTypeError (json_kind data) "bool"
                       EmptyString EmptyString))
    end;
  isEmptyValue b := negb b;
  saved _ := true;
  typeName := "bool";
  custom := false;
}.

(** What an [interface{}] holds after the decoding of [data]: a number that
    float64 cannot hold leaves it as it was. *)
Definition interface_value (data : json) (v : json) : json :=
  match data with
  | JNum lit =>
      match ParseFloat lit with
      | Some _ => canon data
      | None => v
      end
  | _ => canon data
  end.

(** [interface{}]: the nil interface is [JNull]. *)
Global Instance interface_Codec : Codec json := {
  Codec_Marshaler := fun v => Done (encode v);
  zero := JNull;
  json_Unmarshal data v := (interface_value data v, number_error data);
  isEmptyValue v := match v with JNull => true | _ => false end;
  saved _ := true;
  typeName := "interface {}";
  custom := false;
}.

(** [*T]: [None] is the nil pointer.  A [null] sets the pointer to nil; any
    other document is decoded into the pointee, allocated when nil. *)
Global Instance ptr_Codec {T} `{Codec T} : Codec (option T) := {
  Codec_Marshaler := fun p =>
    match p with
    | None => Done "null"
    | Some v =>
        if custom (T := T) then through_pointer (json_Marshal v)
        else json_Marshal v
    end;
  zero := None;
  json_Unmarshal data p :=
    match data with
    | JNull => (None, None)
    | _ =>
        let '(v, err) := json_Unmarshal data (default zero p) in
        (Some v, err)
    end;
  isEmptyValue p := match p with None => true | Some _ => false end;
  saved data := saved (T := T) data;
  typeName := typeName (T := T);
  custom := false;
}.

Fixpoint marshal_list {T} `{Marshaler T} (l : list T) : outcome (list bytes) :=
  match l with
  | [] => Done []
  | x :: l' =>
      match json_Marshal x with
      | Done b =>
          match marshal_list l' with
          | Done bs => Done (b :: bs)
          | Failed e => Failed e
          | Panicked => Panicked
          end
      | Failed e => Failed e
      | Panicked => Panicked
      end
  end.

(** Elements of an array are decoded into the elements the slice already has,
    then into zero values.  (The elements after one that fails are left out
    here: they do not change the error, the elements of one slice being all
    of the same kind.) *)
Fixpoint unmarshal_elems {T} `{Codec T} (js : list json) (old : list T)
  : list T * option error :=
  match js with
  | [] => ([], None)
  | j :: js' =>
      let '(x, err) := json_Unmarshal j (default zero (head old)) in
      match err with
      | Some e => ([x], Some e)
      | None =>
          let '(xs, err') := unmarshal_elems js' (tail old) in
          (x :: xs, err')
      end
  end.

(** [[]T]: [None] is the nil slice. *)
Global Instance slice_Codec {T} `{Codec T} : Codec (option (list T)) := {
  Codec_Marshaler := fun s =>
    match s with
    | None => Done "null"
    | Some l =>
        match marshal_list l with
        | Done bs => Done ("[" +:+ join "," bs +:+ "]")
        | Failed e => Failed e
        | Panicked => Panicked
        end
    end;
  zero := None;
  json_Unmarshal data s :=
    match data with
    | JNull => (None, None)
    | JArr js =>
        let '(xs, err) := unmarshal_elems js (default [] s) in
        (Some xs, err)
    | _ => (s, Some (UnmarshalTypeError (json_kind data)
                       ("[]" +:+ typeName (T := T)) EmptyString EmptyString))
    end;
  isEmptyValue s := match s with None => true | Some l => length l =? 0 end;
  saved data :=
    match data with
    | JArr js => forallb (saved (T := T)) js
    | _ => true
    end;
  typeName := "[]" +:+ typeName (T := T);
  custom := false;
}.

(** ** Struct types

    A struct is described by its exported fields, in declaration order, with
    the name and the [omitempty] flag of the [json] tag. *)

Record field (S : Type) : Type := Field {
  fname : string;
  fomitempty : bool;
  ftype : Type;
  fcodec : Codec ftype;
  fget : S → ftype;
  fset : ftype → S → S;
}.
Global Arguments Field {S} fname fomitempty {ftype fcodec} fget fset.
Global Arguments fname {S} f.
Global Arguments fomitempty {S} f.
Global Arguments ftype {S} f.
Global Arguments fcodec {S} f.
Global Arguments fget {S} f s.
Global Arguments fset {S} f x s.

(** Case folding of a key: ASCII letters, and the two runes that fold to
    ASCII letters, the Kelvin sign (E2 84 AA) and the long s (C5 BF). *)
Definition fold_ascii (c : ascii) : ascii :=
  let n := nat_of_ascii c in
  if (97 <=? n) && (n <=? 122) then ascii_of_nat (n - 32) else c.

Fixpoint foldName (s : string) : string :=
  match s with
  | EmptyString => EmptyString
  | String "226" (String "132" (String "170" t)) => String "K" (foldName t)
  | String "197" (String "191" t) => String "S" (foldName t)
  | String c t => String (fold_ascii c) (foldName t)
  end.

(** The field a key is decoded into: an exact match of the name, else the
    first match under folding. *)
Definition find_field {S} (fs : list (field S)) (key : string)
  : option (field S) :=
  match find (fun f => String.eqb (fname f) key) fs with
  | Some f => Some f
  | None => find (fun f => String.eqb (foldName (fname f)) (foldName key)) fs
  end.

(** The decoder names the struct and the field it is in when it returns an
    [*json.UnmarshalTypeError]. *)
Definition add_context (struct_ field_ : string) (e : error) : error :=
  match e with
  | UnmarshalTypeError v t _ _ => UnmarshalTypeError v t struct_ field_
  | _ => e
  end.

(** The name of a type without its package. *)
Fixpoint struct_name (typ : string) : string :=
  match typ with
  | EmptyString => EmptyString
  | String "." t => t
  | String _ t => struct_name t
  end.

(** Members of an object are decoded in the order of the text; a key that
    matches no field is skipped.  A mismatch between a member and the type of
    its field is saved, the first one only, and the decoding goes on; the
    error of an [UnmarshalJSON] method ends the decoding.  The saved error is
    returned when the end is reached. *)
Fixpoint decode_members {S} (name : string) (fs : list (field S))
    (kvs : list (string * json)) (s : S) (savedError : option error)
  : S * option error :=
  match kvs with
  | [] => (s, savedError)
  | (key, v) :: kvs' =>
      match find_field fs key with
      | None => decode_members name fs kvs' s savedError
      | Some f =>
          let '(x, err) := json_Unmarshal (Codec := fcodec f) v (fget f s) in
          match err with
          | None => decode_members name fs kvs' (fset f x s) savedError
          | Some e =>
              let e := add_context name (fname f) e in
              if saved (Codec := fcodec f) v
              then decode_members name fs kvs' (fset f x s)
                     (Some (default e savedError))
              else (fset f x s, Some e)
          end
      end
  end.

Definition json_Unmarshal_struct {S} (typ : string) (fs : list (field S))
    (data : json) (s : S) : S * option error :=
  match data with
  | JNull => (s, None)
  | JObj kvs => decode_members (struct_name typ) fs kvs s None
  | _ => (s, Some (UnmarshalTypeError (json_kind data) typ
                     EmptyString EmptyString))
  end.

(** The members decoded one after the other as far as the first error: what
    [decode_members] does on an object none of whose members fails. *)
Fixpoint unmarshal_members {S} (fs : list (field S))
    (kvs : list (string * json)) (s : S) : S * option error :=
  match kvs with
  | [] => (s, None)
  | (key, v) :: kvs' =>
      match find_field fs key with
      | None => unmarshal_members fs kvs' s
      | Some f =>
          let '(x, err) := json_Unmarshal (Codec := fcodec f) v (fget f s) in
          match err with
          | Some e => (fset f x s, Some e)
          | None => unmarshal_members fs kvs' (fset f x s)
          end
      end
  end.

Fixpoint marshal_members {S} (fs : list (field S)) (s : S)
  : outcome (list bytes) :=
  match fs with
  | [] => Done []
  | f :: fs' =>
      if fomitempty f && isEmptyValue (Codec := fcodec f) (fget f s)
      then marshal_members fs' s
      else
        match json_Marshal (Marshaler := Codec_Marshaler (Codec := fcodec f)) (fget f s) with
        | Done b =>
            match marshal_members fs' s with
            | Done bs => Done ((quote (fname f) +:+ ":" +:+ b) :: bs)
            | Failed e => Failed e
            | Panicked => Panicked
            end
        | Failed e => Failed e
        | Panicked => Panicked
        end
  end.

Definition json_Marshal_struct {S} (fs : list (field S)) (s : S) : marshaled :=
  match marshal_members fs s with
  | Done bs => Done ("{" +:+ join "," bs +:+ "}")
  | Failed e => Failed e
  | Panicked => Panicked
  end.

(** ** Raw maps

    [json.Unmarshal(data, &rawMap)] with [rawMap map[string]json.RawMessage]. *)
Definition json_Unmarshal_rawMap (data : json)
  : gmap string json * option error :=
  match data with
  | JNull => (∅, None)
  | JObj kvs => (to_map kvs, None)
  | _ => (∅, Some (UnmarshalTypeError (json_kind data)
                    "map[string]json.RawMessage" EmptyString EmptyString))
  end.

(** [err = json.Unmarshal(data, &rawMap); if err != nil { rawMap = nil }] *)
Definition rawMap_of (data : json) : gmap string json :=
  let '(rawMap, err) := json_Unmarshal_rawMap data in
  match err with
  | Some _ => ∅
  | None => rawMap
  end.

(** [for _, key := range requireKeys { if _, found := rawMap[key]; !found
    { return errors.New("required key missing: " + key) } }] *)
Fixpoint require_keys (requireKeys : list string) (rawMap : gmap string json)
  : option error :=
  match requireKeys with
  | [] => None
  | key :: keys =>
      match rawMap !! key with
      | None => Some (errors_New ("required key missing: " +:+ key))
      | Some _ => require_keys keys rawMap
      end
  end.

(** [for _, key := range knownKeys { delete(rawMap, key) }] *)
Definition delete_keys (knownKeys : list string) (rawMap : gmap string json)
  : gmap string json :=
  foldl (fun m key => delete key m) rawMap knownKeys.

(** The order in which [for key := range m] visits the keys of a map is not
    specified by Go: any enumeration of the keys. *)
Class RangeOrder := {
  rangeKeys : gmap string json → list string;
  rangeKeys_perm : ∀ m, rangeKeys m ≡ₚ (map_to_list m).*1;
}.

(** [make(map[string]interface{}, 1)] and [m[key] = val] on the store of
    maps. *)
Abbreviation mapstore := (gmap positive (gmap string json)).

Definition make_map (σ : mapstore) : positive * mapstore :=
  let l := fresh (dom σ) in (l, <[l := ∅]> σ).

Definition map_assign (l : positive) (key : string) (val : json) (σ : mapstore)
  : mapstore :=
  <[l := <[key := val]> (default ∅ (σ !! l))]> σ.

(** [json.Marshal(m)] of a [map[string]interface{}]: [null] for the nil map. *)
Definition json_Marshal_map (m : option (gmap string json)) : marshaled :=
  match m with
  | None => Done "null"
  | Some m => Done (encode (JObj (sorted_members m)))
  end.

(** A bucket read through its reference. *)
Definition deref (σ : mapstore) (r : option positive) : option (gmap string json) :=
  match r with
  | None => None
  | Some l => Some (default ∅ (σ !! l))
  end.

Record StoredMap := Stored { stored_map : option (gmap string json) }.
Global Instance StoredMap_Marshaler : Marshaler StoredMap :=
  fun m => json_Marshal_map (stored_map m).

(** [map[string]T] held in a known field: [None] is the nil map.  Each value
    is decoded into a fresh zero value. *)
Fixpoint unmarshal_entries {T} `{Codec T} (kvs : list (string * json))
    (m : gmap string T) : gmap string T * option error :=
  match kvs with
  | [] => (m, None)
  | (key, v) :: kvs' =>
      let '(x, err) := json_Unmarshal v zero in
      match err with
      | Some e => (m, Some e)
      | None => unmarshal_entries kvs' (<[key := x]> m)
      end
  end.

Fixpoint marshal_entries {T} `{Marshaler T} (kvs : list (string * T))
  : outcome (list bytes) :=
  match kvs with
  | [] => Done []
  | (key, x) :: kvs' =>
      match json_Marshal x with
      | Done b =>
          match marshal_entries kvs' with
          | Done bs => Done ((json_string key +:+ ":" +:+ b) :: bs)
          | Failed e => Failed e
          | Panicked => Panicked
          end
      | Failed e => Failed e
      | Panicked => Panicked
      end
  end.

Global Instance map_Codec {T} `{Codec T} : Codec (option (gmap string T)) := {
  Codec_Marshaler := fun m =>
    match m with
    | None => Done "null"
    | Some m =>
        match marshal_entries (sorted_members m) with
        | Done bs => Done ("{" +:+ join "," bs +:+ "}")
        | Failed e => Failed e
        | Panicked => Panicked
        end
    end;
  zero := None;
  json_Unmarshal data m :=
    match data with
    | JNull => (None, None)
    | JObj kvs =>
        let '(m', err) := unmarshal_entries kvs (default ∅ m) in
        (Some m', err)
    | _ => (m, Some (UnmarshalTypeError (json_kind data)
                       ("map[string]" +:+ typeName (T := T))
                       EmptyString EmptyString))
    end;
  isEmptyValue m := match m with None => true | Some m => size m =? 0 end;
  saved data :=
    match data with
    | JObj kvs => forallb (fun kv => saved (T := T) kv.2) kvs
    | _ => true
    end;
  typeName := "map[string]" +:+ typeName (T := T);
  custom := false;
}.

(** ** Enum types *)

Inductive ParameterIn : Type := ParameterIn_of (s : string).
Definition ParameterInPath := ParameterIn_of "path".
Definition ParameterInQuery := ParameterIn_of "query".
Definition ParameterInHeader := ParameterIn_of "header".
Definition ParameterInCookie := ParameterIn_of "cookie".

Definition ParameterIn_known (s : string) : bool :=
  String.eqb s "path" || String.eqb s "query"
  || String.eqb s "header" || String.eqb s "cookie".

Definition ParameterIn_MarshalJSON (i : ParameterIn) : marshaled :=
  let 'ParameterIn_of s := i in
  if ParameterIn_known s then json_Marshal s
  else Failed (errors_New ("unexpected ParameterIn value: " +:+ s)).

Definition ParameterIn_UnmarshalJSON (i : ParameterIn) (data : json)
  : ParameterIn * option error :=
  let '(ii, err) := json_Unmarshal data (zero : string) in
  match err with
  | Some e => (i, Some e)
  | None =>
      if ParameterIn_known ii then (ParameterIn_of ii, None)
      else (i, Some (errors_New ("unexpected ParameterIn value: " +:+ ii)))
  end.

Global Instance ParameterIn_Codec : Codec ParameterIn := {
  Codec_Marshaler := fun v => call_MarshalJSON "openapi3.ParameterIn" (ParameterIn_MarshalJSON v);
  zero := ParameterIn_of EmptyString;
  json_Unmarshal data i := ParameterIn_UnmarshalJSON i data;
  isEmptyValue i := let 'ParameterIn_of s := i in String.length s =? 0;
  saved _ := false;
  typeName := "openapi3.ParameterIn";
  custom := true;
}.

Inductive PathParameterStyle : Type := PathParameterStyle_of (s : string).
Definition PathParameterStyleMatrix := PathParameterStyle_of "matrix".
Definition PathParameterStyleLabel := PathParameterStyle_of "label".
Definition PathParameterStyleSimple := PathParameterStyle_of "simple".

Definition PathParameterStyle_known (s : string) : bool :=
  String.eqb s "matrix" || String.eqb s "label" || String.eqb s "simple".

Definition PathParameterStyle_MarshalJSON (i : PathParameterStyle) : marshaled :=
  let 'PathParameterStyle_of s := i in
  if PathParameterStyle_known s then json_Marshal s
  else Failed (errors_New ("unexpected PathParameterStyle value: " +:+ s)).

Definition PathParameterStyle_UnmarshalJSON (i : PathParameterStyle)
    (data : json) : PathParameterStyle * option error :=
  let '(ii, err) := json_Unmarshal data (zero : string) in
  match err with
  | Some e => (i, Some e)
  | None =>
      if PathParameterStyle_known ii then (PathParameterStyle_of ii, None)
      else (i, Some (errors_New ("unexpected PathParameterStyle value: " +:+ ii)))
  end.

Global Instance PathParameterStyle_Codec : Codec PathParameterStyle := {
  Codec_Marshaler := fun v => call_MarshalJSON "openapi3.PathParameterStyle" (PathParameterStyle_MarshalJSON v);
  zero := PathParameterStyle_of EmptyString;
  json_Unmarshal data i := PathParameterStyle_UnmarshalJSON i data;
  isEmptyValue i := let 'PathParameterStyle_of s := i in String.length s =? 0;
  saved _ := false;
  typeName := "openapi3.PathParameterStyle";
  custom := true;
}.

Inductive QueryParameterStyle : Type := QueryParameterStyle_of (s : string).
Definition QueryParameterStyleForm := QueryParameterStyle_of "form".
Definition QueryParameterStyleSpaceDelimited := QueryParameterStyle_of "spaceDelimited".
Definition QueryParameterStylePipeDelimited := QueryParameterStyle_of "pipeDelimited".
Definition QueryParameterStyleDeepObject := QueryParameterStyle_of "deepObject".

Definition QueryParameterStyle_known (s : string) : bool :=
  String.eqb s "form" || String.eqb s "spaceDelimited"
  || String.eqb s "pipeDelimited" || String.eqb s "deepObject".

Definition QueryParameterStyle_MarshalJSON (i : QueryParameterStyle) : marshaled :=
  let 'QueryParameterStyle_of s := i in
  if QueryParameterStyle_known s then json_Marshal s
  else Failed (errors_New ("unexpected QueryParameterStyle value: " +:+ s)).

Definition QueryParameterStyle_UnmarshalJSON (i : QueryParameterStyle)
    (data : json) : QueryParameterStyle * option error :=
  let '(ii, err) := json_Unmarshal data (zero : string) in
  match err with
  | Some e => (i, Some e)
  | None =>
      if QueryParameterStyle_known ii then (QueryParameterStyle_of ii, None)
      else (i, Some (errors_New ("unexpected QueryParameterStyle value: " +:+ ii)))
  end.

Global Instance QueryParameterStyle_Codec : Codec QueryParameterStyle := {
  Codec_Marshaler := fun v => call_MarshalJSON "openapi3.QueryParameterStyle" (QueryParameterStyle_MarshalJSON v);
  zero := QueryParameterStyle_of EmptyString;
  json_Unmarshal data i := QueryParameterStyle_UnmarshalJSON i data;
  isEmptyValue i := let 'QueryParameterStyle_of s := i in String.length s =? 0;
  saved _ := false;
  typeName := "openapi3.QueryParameterStyle";
  custom := true;
}.

(** ** Constant fields *)

(** [if v, exists := rawMap[key]; exists && string(v) != lit { return
    fmt.Errorf(`bad const value for "key" (lit expected, %s received)`, v) }] *)
Definition check_const (key : string) (lit : bytes) (rawMap : gmap string json)
  : option error :=
  match rawMap !! key with
  | Some v =>
      if negb (String.eqb (print v) lit)
      then Some (errors_New ("bad const value for " +:+ quote key +:+ " ("
                   +:+ lit +:+ " expected, " +:+ print v +:+ " received)"))
      else None
  | None => None
  end.

(** ** PathParameter *)

Record PathParameter : Type := mkPathParameter {
  PathParameter_Style : option PathParameterStyle;
}.

Definition marshalPathParameter : Type := PathParameter.

Definition marshalPathParameter_fields : list (field marshalPathParameter) :=
  [ Field "style" true PathParameter_Style (fun x _ => mkPathParameter x) ].

Definition requireKeysPathParameter : list string := ["required"].

Definition PathParameter_UnmarshalJSON (p : PathParameter) (data : json)
  : PathParameter * option error :=
  let mp : marshalPathParameter := p in
  let '(mp, err) :=
    json_Unmarshal_struct "openapi3.marshalPathParameter"
      marshalPathParameter_fields data mp in
  match err with
  | Some e => (p, Some e)
  | None =>
      let rawMap := rawMap_of data in
      match require_keys requireKeysPathParameter rawMap with
      | Some e => (p, Some e)
      | None =>
          match check_const "in" (quote "path") rawMap with
          | Some e => (p, Some e)
          | None =>
              let rawMap := delete "in" rawMap in
              match check_const "required" "true" rawMap with
              | Some e => (p, Some e)
              | None =>
                  let rawMap := delete "required" rawMap in
                  (mp, None)
              end
          end
      end
  end.

Definition constPathParameter : RawMessage :=
  Raw ("{" +:+ quote "in" +:+ ":" +:+ quote "path" +:+ ","
       +:+ quote "required" +:+ ":true}").

Definition PathParameter_MarshalJSON (p : PathParameter) : marshaled :=
  marshalUnion
    [ Iface constPathParameter;
      Iface (M := json_Marshal_struct marshalPathParameter_fields)
            (p : marshalPathParameter) ].

Global Instance PathParameter_Codec : Codec PathParameter := {
  Codec_Marshaler := fun v => call_MarshalJSON "openapi3.PathParameter" (PathParameter_MarshalJSON v);
  zero := mkPathParameter None;
  json_Unmarshal data p := PathParameter_UnmarshalJSON p data;
  isEmptyValue _ := false;
  saved _ := false;
  typeName := "openapi3.PathParameter";
  custom := true;
}.

(** ** QueryParameter *)

Record QueryParameter : Type := mkQueryParameter {
  QueryParameter_Style : option QueryParameterStyle;
}.

Definition marshalQueryParameter : Type := QueryParameter.

Definition marshalQueryParameter_fields : list (field marshalQueryParameter) :=
  [ Field "style" true QueryParameter_Style (fun x _ => mkQueryParameter x) ].

Definition QueryParameter_UnmarshalJSON (q : QueryParameter) (data : json)
  : QueryParameter * option error :=
  let mq : marshalQueryParameter := q in
  let '(mq, err) :=
    json_Unmarshal_struct "openapi3.marshalQueryParameter"
      marshalQueryParameter_fields data mq in
  match err with
  | Some e => (q, Some e)
  | None =>
      let rawMap := rawMap_of data in
      match check_const "in" (quote "query") rawMap with
      | Some e => (q, Some e)
      | None =>
          let rawMap := delete "in" rawMap in
          (mq, None)
      end
  end.

Definition constQueryParameter : RawMessage :=
  Raw ("{" +:+ quote "in" +:+ ":" +:+ quote "query" +:+ "}").

Definition QueryParameter_MarshalJSON (q : QueryParameter) : marshaled :=
  marshalUnion
    [ Iface constQueryParameter;
      Iface (M := json_Marshal_struct marshalQueryParameter_fields)
            (q : marshalQueryParameter) ].

Global Instance QueryParameter_Codec : Codec QueryParameter := {
  Codec_Marshaler := fun v => call_MarshalJSON "openapi3.QueryParameter" (QueryParameter_MarshalJSON v);
  zero := mkQueryParameter None;
  json_Unmarshal data q := QueryParameter_UnmarshalJSON q data;
  isEmptyValue _ := false;
  saved _ := false;
  typeName := "openapi3.QueryParameter";
  custom := true;
}.

(** ** HeaderParameter and CookieParameter *)

Inductive HeaderParameter : Type := mkHeaderParameter.

Definition HeaderParameter_UnmarshalJSON (h : HeaderParameter) (data : json)
  : HeaderParameter * option error :=
  let rawMap := rawMap_of data in
  match check_const "in" (quote "header") rawMap with
  | Some e => (h, Some e)
  | None =>
      let rawMap := delete "in" rawMap in
      match check_const "style" (quote "simple") rawMap with
      | Some e => (h, Some e)
      | None =>
          let rawMap := delete "style" rawMap in
          (h, None)
      end
  end.

Definition constHeaderParameter : RawMessage :=
  Raw ("{" +:+ quote "in" +:+ ":" +:+ quote "header" +:+ ","
       +:+ quote "style" +:+ ":" +:+ quote "simple" +:+ "}").

Definition HeaderParameter_MarshalJSON (h : HeaderParameter) : marshaled :=
  marshalUnion [ Iface constHeaderParameter ].

Global Instance HeaderParameter_Codec : Codec HeaderParameter := {
  Codec_Marshaler := fun v => call_MarshalJSON "openapi3.HeaderParameter" (HeaderParameter_MarshalJSON v);
  zero := mkHeaderParameter;
  json_Unmarshal data h := HeaderParameter_UnmarshalJSON h data;
  isEmptyValue _ := false;
  saved _ := false;
  typeName := "openapi3.HeaderParameter";
  custom := true;
}.

Inductive CookieParameter : Type := mkCookieParameter.

Definition CookieParameter_UnmarshalJSON (c : CookieParameter) (data : json)
  : CookieParameter * option error :=
  let rawMap := rawMap_of data in
  match check_const "in" (quote "cookie") rawMap with
  | Some e => (c, Some e)
  | None =>
      let rawMap := delete "in" rawMap in
      match check_const "style" (quote "form") rawMap with
      | Some e => (c, Some e)
      | None =>
          let rawMap := delete "style" rawMap in
          (c, None)
      end
  end.

Definition constCookieParameter : RawMessage :=
  Raw ("{" +:+ quote "in" +:+ ":" +:+ quote "cookie" +:+ ","
       +:+ quote "style" +:+ ":" +:+ quote "form" +:+ "}").

Definition CookieParameter_MarshalJSON (c : CookieParameter) : marshaled :=
  marshalUnion [ Iface constCookieParameter ].

Global Instance CookieParameter_Codec : Codec CookieParameter := {
  Codec_Marshaler := fun v => call_MarshalJSON "openapi3.CookieParameter" (CookieParameter_MarshalJSON v);
  zero := mkCookieParameter;
  json_Unmarshal data c := CookieParameter_UnmarshalJSON c data;
  isEmptyValue _ := false;
  saved _ := false;
  typeName := "openapi3.CookieParameter";
  custom := true;
}.

(** ** Union nodes

    One arm of a [oneOf]: [err = json.Unmarshal(data, &s.Arm); if err != nil
    { oneOfErrors["Arm"] = err; s.Arm = nil } else { oneOfValid++ }].  The
    result is the new contents of the arm's field, the error map and the
    count. *)
Definition oneOf_arm {T} `{Codec T} (name : string) (data : json)
    (arm : option T) (oneOfErrors : gmap string error) (oneOfValid : nat)
  : option T * gmap string error * nat :=
  let '(arm, err) := json_Unmarshal data arm in
  match err with
  | Some e => (None, <[name := e]> oneOfErrors, oneOfValid)
  | None => (arm, oneOfErrors, S oneOfValid)
  end.

(** [fmt.Errorf("oneOf constraint failed for T with %d valid results: %v",
    oneOfValid, oneOfErrors)] *)
Definition oneOf_error (typ : string) (oneOfValid : nat)
    (oneOfErrors : gmap string error) : error :=
  errors_New ("oneOf constraint failed for " +:+ typ +:+ " with "
              +:+ fmt_d oneOfValid +:+ " valid results: "
              +:+ fmt_v_errors oneOfErrors).

(** ** ParameterLocation *)

Record ParameterLocation : Type := mkParameterLocation {
  ParameterLocation_PathParameter : option PathParameter;
  ParameterLocation_QueryParameter : option QueryParameter;
  ParameterLocation_HeaderParameter : option HeaderParameter;
  ParameterLocation_CookieParameter : option CookieParameter;
}.

Definition ParameterLocation_UnmarshalJSON (p : ParameterLocation) (data : json)
  : ParameterLocation * option error :=
  let oneOfErrors : gmap string error := ∅ in
  let oneOfValid := 0 in
  let '(pp, oneOfErrors, oneOfValid) :=
    oneOf_arm "PathParameter" data (ParameterLocation_PathParameter p)
      oneOfErrors oneOfValid in
  let '(qp, oneOfErrors, oneOfValid) :=
    oneOf_arm "QueryParameter" data (ParameterLocation_QueryParameter p)
      oneOfErrors oneOfValid in
  let '(hp, oneOfErrors, oneOfValid) :=
    oneOf_arm "HeaderParameter" data (ParameterLocation_HeaderParameter p)
      oneOfErrors oneOfValid in
  let '(cp, oneOfErrors, oneOfValid) :=
    oneOf_arm "CookieParameter" data (ParameterLocation_CookieParameter p)
      oneOfErrors oneOfValid in
  let p := mkParameterLocation pp qp hp cp in
  if negb (oneOfValid =? 1)
  then (p, Some (oneOf_error "ParameterLocation" oneOfValid oneOfErrors))
  else (p, None).

Definition ParameterLocation_MarshalJSON (p : ParameterLocation) : marshaled :=
  marshalUnion
    [ Iface (ParameterLocation_PathParameter p);
      Iface (ParameterLocation_QueryParameter p);
      Iface (ParameterLocation_HeaderParameter p);
      Iface (ParameterLocation_CookieParameter p) ].

Global Instance ParameterLocation_Codec : Codec ParameterLocation := {
  Codec_Marshaler := fun v => call_MarshalJSON "openapi3.ParameterLocation" (ParameterLocation_MarshalJSON v);
  zero := mkParameterLocation None None None None;
  json_Unmarshal data p := ParameterLocation_UnmarshalJSON p data;
  isEmptyValue _ := false;
  saved _ := false;
  typeName := "openapi3.ParameterLocation";
  custom := true;
}.

(** ** HasSchema, HasContent, SchemaXORContentNot, SchemaXORContent *)

Record HasSchema : Type := mkHasSchema { HasSchema_Schema : json }.
Definition marshalHasSchema : Type := HasSchema.
Definition marshalHasSchema_fields : list (field marshalHasSchema) :=
  [ Field "schema" false HasSchema_Schema (fun x _ => mkHasSchema x) ].
Definition requireKeysHasSchema : list string := ["schema"].

Definition HasSchema_UnmarshalJSON (h : HasSchema) (data : json)
  : HasSchema * option error :=
  let mh : marshalHasSchema := h in
  let '(mh, err) :=
    json_Unmarshal_struct "openapi3.marshalHasSchema"
      marshalHasSchema_fields data mh in
  match err with
  | Some e => (h, Some e)
  | None =>
      let rawMap := rawMap_of data in
      match require_keys requireKeysHasSchema rawMap with
      | Some e => (h, Some e)
      | None => (mh, None)
      end
  end.

(** [HasSchema] has no [MarshalJSON]: the struct is encoded field by field. *)
Global Instance HasSchema_Codec : Codec HasSchema := {
  Codec_Marshaler := json_Marshal_struct marshalHasSchema_fields;
  zero := mkHasSchema JNull;
  json_Unmarshal data h := HasSchema_UnmarshalJSON h data;
  isEmptyValue _ := false;
  saved _ := false;
  typeName := "openapi3.HasSchema";
  custom := false;
}.

Record HasContent : Type := mkHasContent { HasContent_Content : json }.
Definition marshalHasContent : Type := HasContent.
Definition marshalHasContent_fields : list (field marshalHasContent) :=
  [ Field "content" false HasContent_Content (fun x _ => mkHasContent x) ].
Definition requireKeysHasContent : list string := ["content"].

Definition HasContent_UnmarshalJSON (h : HasContent) (data : json)
  : HasContent * option error :=
  let mh : marshalHasContent := h in
  let '(mh, err) :=
    json_Unmarshal_struct "openapi3.marshalHasContent"
      marshalHasContent_fields data mh in
  match err with
  | Some e => (h, Some e)
  | None =>
      let rawMap := rawMap_of data in
      match require_keys requireKeysHasContent rawMap with
      | Some e => (h, Some e)
      | None => (mh, None)
      end
  end.

Global Instance HasContent_Codec : Codec HasContent := {
  Codec_Marshaler := json_Marshal_struct marshalHasContent_fields;
  zero := mkHasContent JNull;
  json_Unmarshal data h := HasContent_UnmarshalJSON h data;
  isEmptyValue _ := false;
  saved _ := false;
  typeName := "openapi3.HasContent";
  custom := false;
}.

Record SchemaXORContentNot : Type := mkSchemaXORContentNot {
  SchemaXORContentNot_Schema : json;
  SchemaXORContentNot_Content : json;
}.
Definition marshalSchemaXORContentNot : Type := SchemaXORContentNot.
Definition marshalSchemaXORContentNot_fields
  : list (field marshalSchemaXORContentNot) :=
  [ Field "schema" false SchemaXORContentNot_Schema
      (fun x s => mkSchemaXORContentNot x (SchemaXORContentNot_Content s));
    Field "content" false SchemaXORContentNot_Content
      (fun x s => mkSchemaXORContentNot (SchemaXORContentNot_Schema s) x) ].
Definition requireKeysSchemaXORContentNot : list string := ["schema"; "content"].

Definition SchemaXORContentNot_UnmarshalJSON (s : SchemaXORContentNot)
    (data : json) : SchemaXORContentNot * option error :=
  let ms : marshalSchemaXORContentNot := s in
  let '(ms, err) :=
    json_Unmarshal_struct "openapi3.marshalSchemaXORContentNot"
      marshalSchemaXORContentNot_fields data ms in
  match err with
  | Some e => (s, Some e)
  | None =>
      let rawMap := rawMap_of data in
      match require_keys requireKeysSchemaXORContentNot rawMap with
      | Some e => (s, Some e)
      | None => (ms, None)
      end
  end.

Global Instance SchemaXORContentNot_Codec : Codec SchemaXORContentNot := {
  Codec_Marshaler := json_Marshal_struct marshalSchemaXORContentNot_fields;
  zero := mkSchemaXORContentNot JNull JNull;
  json_Unmarshal data s := SchemaXORContentNot_UnmarshalJSON s data;
  isEmptyValue _ := false;
  saved _ := false;
  typeName := "openapi3.SchemaXORContentNot";
  custom := false;
}.

Record SchemaXORContent : Type := mkSchemaXORContent {
  SchemaXORContent_HasSchema : option HasSchema;
  SchemaXORContent_HasContent : option HasContent;
}.

Definition SchemaXORContent_UnmarshalJSON (s : SchemaXORContent) (data : json)
  : SchemaXORContent * option error :=
  let not : SchemaXORContentNot := zero in
  match (json_Unmarshal data not).2 with
  | None => (s, Some (errors_New "not constraint failed for SchemaXORContent"))
  | Some _ =>
      let oneOfErrors : gmap string error := ∅ in
      let oneOfValid := 0 in
      let '(hs, oneOfErrors, oneOfValid) :=
        oneOf_arm "HasSchema" data (SchemaXORContent_HasSchema s)
          oneOfErrors oneOfValid in
      let '(hc, oneOfErrors, oneOfValid) :=
        oneOf_arm "HasContent" data (SchemaXORContent_HasContent s)
          oneOfErrors oneOfValid in
      let s := mkSchemaXORContent hs hc in
      if negb (oneOfValid =? 1)
      then (s, Some (oneOf_error "SchemaXORContent" oneOfValid oneOfErrors))
      else (s, None)
  end.

Definition SchemaXORContent_MarshalJSON (s : SchemaXORContent) : marshaled :=
  marshalUnion
    [ Iface (SchemaXORContent_HasSchema s);
      Iface (SchemaXORContent_HasContent s) ].

Global Instance SchemaXORContent_Codec : Codec SchemaXORContent := {
  Codec_Marshaler := fun v => call_MarshalJSON "openapi3.SchemaXORContent" (SchemaXORContent_MarshalJSON v);
  zero := mkSchemaXORContent None None;
  json_Unmarshal data s := SchemaXORContent_UnmarshalJSON s data;
  isEmptyValue _ := false;
  saved _ := false;
  typeName := "openapi3.SchemaXORContent";
  custom := true;
}.

(** ** The extension bucket

    One turn of [for key, rawValue := range rawMap] for a node whose only
    bucket is [MapOfAnything] (keys matching [^x-]). *)
Definition bucketX_turn (key : string) (rawValue : json)
    (mapOfAnything : option positive) (σ : mapstore)
    (rawMap : gmap string json)
  : option positive * mapstore * gmap string json * option error :=
  if regexX_MatchString key then
    let '(l, σ) :=
      match mapOfAnything with
      | None => make_map σ
      | Some l => (l, σ)
      end in
    let '(val, err) := json_Unmarshal rawValue (zero : json) in
    match err with
    | Some e => (Some l, σ, rawMap, Some e)
    | None => (Some l, map_assign l key val σ, delete key rawMap, None)
    end
  else (mapOfAnything, σ, rawMap, None).

Fixpoint bucketX_loop (keys : list string) (entries : gmap string json)
    (mapOfAnything : option positive) (σ : mapstore)
    (rawMap : gmap string json)
  : option positive * mapstore * gmap string json * option error :=
  match keys with
  | [] => (mapOfAnything, σ, rawMap, None)
  | key :: keys' =>
      let '(mapOfAnything', σ', rawMap', err) :=
        bucketX_turn key (default JNull (entries !! key)) mapOfAnything σ rawMap in
      match err with
      | Some e => (mapOfAnything', σ', rawMap', Some e)
      | None => bucketX_loop keys' entries mapOfAnything' σ' rawMap'
      end
  end.

Definition range_bucketX `{RangeOrder} (rawMap : gmap string json)
    (mapOfAnything : option positive) (σ : mapstore)
  : option positive * mapstore * gmap string json * option error :=
  bucketX_loop (rangeKeys rawMap) rawMap mapOfAnything σ rawMap.

(** [if len(rawMap) != 0 { ...; return fmt.Errorf("additional properties not
    allowed in T: %v", offendingKeys) }] *)
Definition additional_properties `{RangeOrder} (typ : string)
    (rawMap : gmap string json) : option error :=
  if negb (size rawMap =? 0) then
    let offendingKeys := rangeKeys rawMap in
    Some (errors_New ("additional properties not allowed in " +:+ typ +:+ ": "
                      +:+ fmt_v_strings offendingKeys))
  else None.

(** ** SchemaReference *)

Record SchemaReference : Type := mkSchemaReference {
  SchemaReference_Ref : string;
}.
Definition marshalSchemaReference : Type := SchemaReference.
Definition marshalSchemaReference_fields : list (field marshalSchemaReference) :=
  [ Field "$ref" false SchemaReference_Ref (fun x _ => mkSchemaReference x) ].
Definition knownKeysSchemaReference : list string := ["$ref"].
Definition requireKeysSchemaReference : list string := ["$ref"].

Definition SchemaReference_UnmarshalJSON `{RangeOrder} (s : SchemaReference)
    (data : json) : SchemaReference * option error :=
  let ms : marshalSchemaReference := s in
  let '(ms, err) :=
    json_Unmarshal_struct "openapi3.marshalSchemaReference"
      marshalSchemaReference_fields data ms in
  match err with
  | Some e => (s, Some e)
  | None =>
      let rawMap := rawMap_of data in
      match require_keys requireKeysSchemaReference rawMap with
      | Some e => (s, Some e)
      | None =>
          let rawMap := delete_keys knownKeysSchemaReference rawMap in
          match additional_properties "SchemaReference" rawMap with
          | Some e => (s, Some e)
          | None => (ms, None)
          end
      end
  end.

Global Instance SchemaReference_Codec `{RangeOrder} : Codec SchemaReference := {
  Codec_Marshaler := json_Marshal_struct marshalSchemaReference_fields;
  zero := mkSchemaReference EmptyString;
  json_Unmarshal data s := SchemaReference_UnmarshalJSON s data;
  isEmptyValue _ := false;
  saved _ := false;
  typeName := "openapi3.SchemaReference";
  custom := false;
}.

(** ** Nodes of the document that are not modelled field by field

    Each is a Go type with its [MarshalJSON] and [UnmarshalJSON]. *)
Class Nested := {
  Info : Type;
  Info_Codec :: Codec Info;
  ExternalDocumentation : Type;
  ExternalDocumentation_Codec :: Codec ExternalDocumentation;
  Server : Type;
  Server_Codec :: Codec Server;
  SecurityRequirement : Type;
  SecurityRequirement_Codec :: Codec SecurityRequirement;
  Tag : Type;
  Tag_Codec :: Codec Tag;
  Paths : Type;
  Paths_Codec :: Codec Paths;
  Components : Type;
  Components_Codec :: Codec Components;
  Schema : Type;
  Schema_Codec :: Codec Schema;
  MediaType : Type;
  MediaType_Codec :: Codec MediaType;
  ExampleOrRef : Type;
  ExampleOrRef_Codec :: Codec ExampleOrRef;
}.

Section Nodes.
Context {RO : RangeOrder} {N : Nested}.

(** ** SchemaOrRef *)

Record SchemaOrRef : Type := mkSchemaOrRef {
  SchemaOrRef_Schema : option Schema;
  SchemaOrRef_SchemaReference : option SchemaReference;
}.

Definition SchemaOrRef_UnmarshalJSON (s : SchemaOrRef) (data : json)
  : SchemaOrRef * option error :=
  let oneOfErrors : gmap string error := ∅ in
  let oneOfValid := 0 in
  let '(sc, oneOfErrors, oneOfValid) :=
    oneOf_arm "Schema" data (SchemaOrRef_Schema s) oneOfErrors oneOfValid in
  let '(sr, oneOfErrors, oneOfValid) :=
    oneOf_arm "SchemaReference" data (SchemaOrRef_SchemaReference s)
      oneOfErrors oneOfValid in
  let s := mkSchemaOrRef sc sr in
  if negb (oneOfValid =? 1)
  then (s, Some (oneOf_error "SchemaOrRef" oneOfValid oneOfErrors))
  else (s, None).

Definition SchemaOrRef_MarshalJSON (s : SchemaOrRef) : marshaled :=
  marshalUnion
    [ Iface (SchemaOrRef_Schema s); Iface (SchemaOrRef_SchemaReference s) ].

#[export] Instance SchemaOrRef_Codec : Codec SchemaOrRef := {
  Codec_Marshaler := fun v => call_MarshalJSON "openapi3.SchemaOrRef" (SchemaOrRef_MarshalJSON v);
  zero := mkSchemaOrRef None None;
  json_Unmarshal data s := SchemaOrRef_UnmarshalJSON s data;
  isEmptyValue _ := false;
  saved _ := false;
  typeName := "openapi3.SchemaOrRef";
  custom := true;
}.

(** ** Spec *)

Record Spec : Type := mkSpec {
  Spec_Openapi : string;
  Spec_Info : Info;
  Spec_ExternalDocs : option ExternalDocumentation;
  Spec_Servers : option (list Server);
  Spec_Security : option (list SecurityRequirement);
  Spec_Tags : option (list Tag);
  Spec_Paths : Paths;
  Spec_Components : option Components;
  Spec_MapOfAnything : option positive;
}.

Definition Spec_zero : Spec :=
  mkSpec zero zero None None None None zero None None.

Definition marshalSpec : Type := Spec.

Definition marshalSpec_fields : list (field marshalSpec) :=
  [ Field "openapi" false Spec_Openapi
      (fun x '(mkSpec _ b c d e f g h i) => mkSpec x b c d e f g h i);
    Field "info" false Spec_Info
      (fun x '(mkSpec a _ c d e f g h i) => mkSpec a x c d e f g h i);
    Field "externalDocs" true Spec_ExternalDocs
      (fun x '(mkSpec a b _ d e f g h i) => mkSpec a b x d e f g h i);
    Field "servers" true Spec_Servers
      (fun x '(mkSpec a b c _ e f g h i) => mkSpec a b c x e f g h i);
    Field "security" true Spec_Security
      (fun x '(mkSpec a b c d _ f g h i) => mkSpec a b c d x f g h i);
    Field "tags" true Spec_Tags
      (fun x '(mkSpec a b c d e _ g h i) => mkSpec a b c d e x g h i);
    Field "paths" false Spec_Paths
      (fun x '(mkSpec a b c d e f _ h i) => mkSpec a b c d e f x h i);
    Field "components" true Spec_Components
      (fun x '(mkSpec a b c d e f g _ i) => mkSpec a b c d e f g x i) ].

Definition set_Spec_MapOfAnything (x : option positive) (s : Spec) : Spec :=
  let '(mkSpec a b c d e f g h _) := s in mkSpec a b c d e f g h x.

Definition knownKeysSpec : list string :=
  ["openapi"; "info"; "externalDocs"; "servers"; "security"; "tags"; "paths";
   "components"].

Definition requireKeysSpec : list string := ["openapi"; "info"; "paths"].

Definition Spec_UnmarshalJSON (s : Spec) (data : json) (σ : mapstore)
  : Spec * mapstore * option error :=
  let ms : marshalSpec := s in
  let '(ms, err) :=
    json_Unmarshal_struct "openapi3.marshalSpec" marshalSpec_fields data ms in
  match err with
  | Some e => (s, σ, Some e)
  | None =>
      let rawMap := rawMap_of data in
      match require_keys requireKeysSpec rawMap with
      | Some e => (s, σ, Some e)
      | None =>
          let rawMap := delete_keys knownKeysSpec rawMap in
          let '(mapOfAnything, σ, rawMap, err) :=
            range_bucketX rawMap (Spec_MapOfAnything ms) σ in
          let ms := set_Spec_MapOfAnything mapOfAnything ms in
          match err with
          | Some e => (s, σ, Some e)
          | None =>
              match additional_properties "Spec" rawMap with
              | Some e => (s, σ, Some e)
              | None => (ms, σ, None)
              end
          end
      end
  end.

Definition Spec_MarshalJSON (s : Spec) (σ : mapstore) : marshaled :=
  marshalUnion
    [ Iface (M := json_Marshal_struct marshalSpec_fields) (s : marshalSpec);
      Iface (Stored (deref σ (Spec_MapOfAnything s))) ].

(** [func (s *Spec) WithMapOfAnythingItem(key string, val interface{}) *Spec]:
    [if s.MapOfAnything == nil { s.MapOfAnything = make(...) };
    s.MapOfAnything[key] = val]. *)
Definition Spec_WithMapOfAnythingItem (s : Spec) (key : string) (val : json)
    (σ : mapstore) : Spec * mapstore :=
  let '(l, σ) :=
    match Spec_MapOfAnything s with
    | None => make_map σ
    | Some l => (l, σ)
    end in
  (set_Spec_MapOfAnything (Some l) s, map_assign l key val σ).

(** ** Parameter *)

(** The Go type [Parameter] ([Parameter] is a reserved word here). *)
Record Parameter_ : Type := mkParameter {
  Parameter_Name : string;
  Parameter_In : ParameterIn;
  Parameter_Description : option string;
  Parameter_Required : option bool;
  Parameter_Deprecated : option bool;
  Parameter_AllowEmptyValue : option bool;
  Parameter_Style : option string;
  Parameter_Explode : option bool;
  Parameter_AllowReserved : option bool;
  Parameter_Schema : option SchemaOrRef;
  Parameter_Content : option (gmap string MediaType);
  Parameter_Example : option json;
  Parameter_Examples : option (gmap string ExampleOrRef);
  Parameter_SchemaXORContent : option SchemaXORContent;
  Parameter_Location : option ParameterLocation;
  Parameter_MapOfAnything : option positive;
}.

Definition Parameter_zero : Parameter_ :=
  mkParameter zero zero None None None None None None None None None None None
    None None None.

Definition marshalParameter : Type := Parameter_.

Definition marshalParameter_fields : list (field marshalParameter) :=
  [ Field "name" false Parameter_Name
      (fun x '(mkParameter _ b c d e f g h i j k l m n o q) =>
         mkParameter x b c d e f g h i j k l m n o q);
    Field "in" false Parameter_In
      (fun x '(mkParameter a _ c d e f g h i j k l m n o q) =>
         mkParameter a x c d e f g h i j k l m n o q);
    Field "description" true Parameter_Description
      (fun x '(mkParameter a b _ d e f g h i j k l m n o q) =>
         mkParameter a b x d e f g h i j k l m n o q);
    Field "required" true Parameter_Required
      (fun x '(mkParameter a b c _ e f g h i j k l m n o q) =>
         mkParameter a b c x e f g h i j k l m n o q);
    Field "deprecated" true Parameter_Deprecated
      (fun x '(mkParameter a b c d _ f g h i j k l m n o q) =>
         mkParameter a b c d x f g h i j k l m n o q);
    Field "allowEmptyValue" true Parameter_AllowEmptyValue
      (fun x '(mkParameter a b c d e _ g h i j k l m n o q) =>
         mkParameter a b c d e x g h i j k l m n o q);
    Field "style" true Parameter_Style
      (fun x '(mkParameter a b c d e f _ h i j k l m n o q) =>
         mkParameter a b c d e f x h i j k l m n o q);
    Field "explode" true Parameter_Explode
      (fun x '(mkParameter a b c d e f g _ i j k l m n o q) =>
         mkParameter a b c d e f g x i j k l m n o q);
    Field "allowReserved" true Parameter_AllowReserved
      (fun x '(mkParameter a b c d e f g h _ j k l m n o q) =>
         mkParameter a b c d e f g h x j k l m n o q);
    Field "schema" true Parameter_Schema
      (fun x '(mkParameter a b c d e f g h i _ k l m n o q) =>
         mkParameter a b c d e f g h i x k l m n o q);
    Field "content" true Parameter_Content
      (fun x '(mkParameter a b c d e f g h i j _ l m n o q) =>
         mkParameter a b c d e f g h i j x l m n o q);
    Field "example" true Parameter_Example
      (fun x '(mkParameter a b c d e f g h i j k _ m n o q) =>
         mkParameter a b c d e f g h i j k x m n o q);
    Field "examples" true Parameter_Examples
      (fun x '(mkParameter a b c d e f g h i j k l _ n o q) =>
         mkParameter a b c d e f g h i j k l x n o q) ].

Definition set_Parameter_Example (x : option json) (p : Parameter_) : Parameter_ :=
  let '(mkParameter a b c d e f g h i j k _ m n o q) := p in
  mkParameter a b c d e f g h i j k x m n o q.

Definition set_Parameter_SchemaXORContent (x : option SchemaXORContent)
    (p : Parameter_) : Parameter_ :=
  let '(mkParameter a b c d e f g h i j k l m _ o q) := p in
  mkParameter a b c d e f g h i j k l m x o q.

Definition set_Parameter_Location (x : option ParameterLocation)
    (p : Parameter_) : Parameter_ :=
  let '(mkParameter a b c d e f g h i j k l m n _ q) := p in
  mkParameter a b c d e f g h i j k l m n x q.

Definition set_Parameter_MapOfAnything (x : option positive) (p : Parameter_)
  : Parameter_ :=
  let '(mkParameter a b c d e f g h i j k l m n o _) := p in
  mkParameter a b c d e f g h i j k l m n o x.

Definition knownKeysParameter : list string :=
  ["name"; "in"; "description"; "required"; "deprecated"; "allowEmptyValue";
   "style"; "explode"; "allowReserved"; "schema"; "content"; "example";
   "examples"].

Definition requireKeysParameter : list string := ["name"; "in"].

(** [if mp.Example == nil { if _, ok := rawMap["example"]; ok
    { var v interface{}; mp.Example = &v } }] *)
Definition present_null_Example (mp : marshalParameter)
    (rawMap : gmap string json) : marshalParameter :=
  match Parameter_Example mp with
  | None =>
      match rawMap !! "example" with
      | Some _ => set_Parameter_Example (Some (zero : json)) mp
      | None => mp
      end
  | Some _ => mp
  end.

Definition Parameter_UnmarshalJSON (p : Parameter_) (data : json) (σ : mapstore)
  : Parameter_ * mapstore * option error :=
  let mp : marshalParameter := p in
  let '(mp, err) :=
    json_Unmarshal_struct "openapi3.marshalParameter" marshalParameter_fields
      data mp in
  match err with
  | Some e => (p, σ, Some e)
  | None =>
      let '(x, err) := json_Unmarshal data (Parameter_SchemaXORContent mp) in
      let mp := set_Parameter_SchemaXORContent x mp in
      match err with
      | Some e => (p, σ, Some e)
      | None =>
          let '(l, err) := json_Unmarshal data (Parameter_Location mp) in
          let mp := set_Parameter_Location l mp in
          match err with
          | Some e => (p, σ, Some e)
          | None =>
              let rawMap := rawMap_of data in
              match require_keys requireKeysParameter rawMap with
              | Some e => (p, σ, Some e)
              | None =>
                  let mp := present_null_Example mp rawMap in
                  let rawMap := delete_keys knownKeysParameter rawMap in
                  let '(mapOfAnything, σ, rawMap, err) :=
                    range_bucketX rawMap (Parameter_MapOfAnything mp) σ in
                  let mp := set_Parameter_MapOfAnything mapOfAnything mp in
                  match err with
                  | Some e => (p, σ, Some e)
                  | None =>
                      match additional_properties "Parameter" rawMap with
                      | Some e => (p, σ, Some e)
                      | None => (mp, σ, None)
                      end
                  end
              end
          end
      end
  end.

Definition Parameter_MarshalJSON (p : Parameter_) (σ : mapstore) : marshaled :=
  marshalUnion
    [ Iface (M := json_Marshal_struct marshalParameter_fields)
            (p : marshalParameter);
      Iface (Stored (deref σ (Parameter_MapOfAnything p)));
      Iface (Parameter_SchemaXORContent p);
      Iface (Parameter_Location p) ].

End Nodes.

(** ** Instances used to run the model

    One admissible iteration order, and nested nodes left undecoded (held as
    [interface{}] values).  These stand-ins take every payload; the runs
    below are on payloads that the nodes of the package take as well
    ([info] with its [title] and [version], [paths] empty). *)
Definition map_order : RangeOrder :=
  {| rangeKeys m := (map_to_list m).*1;
     rangeKeys_perm m := reflexivity _ |}.

Definition untyped : Nested :=
  {| Info := json; ExternalDocumentation := json; Server := json;
     SecurityRequirement := json; Tag := json; Paths := json;
     Components := json; Schema := json; MediaType := json;
     ExampleOrRef := json |}.

(** The members of an object hold no number that float64 cannot hold. *)
Definition numbers_fit (kvs : list (string * json)) : Prop :=
  Forall (fun kv => number_error kv.2 = None) kvs.

(** A field whose decoding fails on such numbers only. *)
Definition fits_numbers {S} (f : field S) : Prop :=
  ∀ v x, number_error v = None →
         (json_Unmarshal (Codec := fcodec f) v x).2 = None.

(** [needle] occurs in [hay]. *)
Definition contains (needle hay : string) : bool :=
  match String.index 0 needle hay with
  | Some _ => true
  | None => false
  end.

(** The message of a constant mismatch. *)
Definition bad_const (key : string) (lit received : bytes) : error :=
  errors_New ("bad const value for " +:+ quote key +:+ " (" +:+ lit
              +:+ " expected, " +:+ received +:+ " received)").

(** The members of [constPathParameter]. *)
Definition constPathParameter_members : string :=
  quote "in" +:+ ":" +:+ quote "path" +:+ "," +:+ quote "required" +:+ ":true".

(** The outcomes of the arms of a union, in the order they are tried: the
    arm's name and its error, if any. *)
Fixpoint valid_results (outs : list (string * option error)) : nat :=
  match outs with
  | [] => 0
  | (_, None) :: outs' => S (valid_results outs')
  | (_, Some _) :: outs' => valid_results outs'
  end.

Definition failed_arms (outs : list (string * option error))
  : gmap string error :=
  foldl (fun m o => match o.2 with Some e => <[o.1 := e]> m | None => m end)
        ∅ outs.

(** The contents of an arm's field after the attempt. *)
Definition arm_value {T} (r : option T * option error) : option T :=
  match r.2 with
  | Some _ => None
  | None => r.1
  end.

(** What the bucket loop writes and deletes, key by key. *)
Definition bucket_writes (keys : list string) (entries m : gmap string json)
  : gmap string json :=
  foldl (fun m key =>
           if regexX_MatchString key
           then <[key := canon (default JNull (entries !! key))]> m else m)
        m keys.

Definition bucket_deletes (keys : list string) (rawMap : gmap string json)
  : gmap string json :=
  foldl (fun m key => if regexX_MatchString key then delete key m else m)
        rawMap keys.

(** The error that ends the bucket loop: the one of the first key, in the
    order of the loop, that matches [^x-] and whose value holds a number that
    float64 cannot hold. *)
Fixpoint bucket_error (keys : list string) (entries : gmap string json)
  : option error :=
  match keys with
  | [] => None
  | key :: keys' =>
      if regexX_MatchString key then
        match number_error (default JNull (entries !! key)) with
        | Some e => Some e
        | None => bucket_error keys' entries
        end
      else bucket_error keys' entries
  end.

Definition range_error `{RangeOrder} (rawMap : gmap string json)
  : option error :=
  bucket_error (rangeKeys rawMap) rawMap.

(** Every member that the [^x-] bucket takes is decoded. *)
Definition bucket_decodes (rawMap : gmap string json) : Prop :=
  ∀ key v, rawMap !! key = Some v → regexX_MatchString key = true →
           number_error v = None.

(** The members of a payload that the extension bucket takes, and the rest. *)
Definition extension_entries (rawMap : gmap string json) : gmap string json :=
  canon <$> filter (fun kv => regexX_MatchString kv.1 = true) rawMap.

Definition unconsumed (knownKeys : list string) (rawMap : gmap string json)
  : gmap string json :=
  filter (fun kv => regexX_MatchString kv.1 = false)
         (delete_keys knownKeys rawMap).

(** The store and the bucket reference after the bucket loop. *)
Definition bucket_after (mapOfAnything : option positive) (σ : mapstore)
    (ext : gmap string json) : option positive * mapstore :=
  if decide (ext = ∅) then (mapOfAnything, σ)
  else
    let '(l, σ0) :=
      match mapOfAnything with
      | None => make_map σ
      | Some l => (l, σ)
      end in
    (Some l, <[l := ext ∪ default ∅ (σ0 !! l)]> σ0).

(** [key] is the first of [requireKeys] that the payload lacks. *)
Definition first_missing (requireKeys : list string)
    (rawMap : gmap string json) (key : string) : Prop :=
  ∃ pre post,
    requireKeys = pre ++ key :: post
    ∧ Forall (fun k => is_Some (rawMap !! k)) pre
    ∧ rawMap !! key = None.

(** The member that the struct encoder writes for the [example] field. *)
Definition example_member (ex : option json) : list bytes :=
  match ex with
  | None => []
  | Some v => [quote "example" +:+ ":" +:+ encode v]
  end.

(** The parameter that the payload [{"name":"q","in":"query","content":{}}]
    is decoded to, with [ex] as its example. *)
Definition query_parameter `{Nested} (ex : option json) : Parameter_ :=
  mkParameter "q" (ParameterIn_of "query") None None None None None None
    None None (Some ∅) ex None
    (Some (mkSchemaXORContent None (Some (mkHasContent (JObj [])))))
    (Some (mkParameterLocation None (Some (mkQueryParameter None)) None
             None))
    None.

(** ** Round trips

    What a node type has to satisfy for the round trip of a node that
    contains it: the values that fit the schema ([valid]), the document the
    encoder writes for a value ([doc]), and the decoder reading it back into
    a zero value. *)
Class CodecLaws (T : Type) `{Codec T} := {
  valid : T → Prop;
  doc : T → json;
  marshal_doc : ∀ v, valid v → json_Marshal v = Done (print (doc v));
  unmarshal_doc : ∀ v, valid v → json_Unmarshal (doc v) zero = (v, None);
  doc_not_null : ∀ v, valid v → doc v ≠ JNull;
}.

Class NestedLaws (N : Nested) := {
  Info_Laws :: CodecLaws Info;
  ExternalDocumentation_Laws :: CodecLaws ExternalDocumentation;
  Server_Laws :: CodecLaws Server;
  SecurityRequirement_Laws :: CodecLaws SecurityRequirement;
  Tag_Laws :: CodecLaws Tag;
  Paths_Laws :: CodecLaws Paths;
  Components_Laws :: CodecLaws Components;
}.

(** The member of an optional field: none when the field is left out. *)
Definition opt_member (name : string) (d : option json)
  : list (string * json) :=
  match d with
  | Some d => [(name, d)]
  | None => []
  end.

Definition ptr_doc {T} `{CodecLaws T} (p : option T) : option json :=
  doc <$> p.

Definition slice_doc {T} `{CodecLaws T} (s : option (list T)) : option json :=
  match s with
  | Some (x :: l) => Some (JArr (doc <$> x :: l))
  | _ => None
  end.

(** The elements of a slice, and the entries of a bucket: nil and empty are
    the same contents. *)
Definition slice_contents {T} (s : option (list T)) : list T := default [] s.

Definition bucket_contents (σ : mapstore) (r : option positive)
  : gmap string json :=
  default ∅ (deref σ r).

Section RoundTrip.
Context {RO : RangeOrder} {N : Nested} {L : NestedLaws N}.

Definition Spec_members (s : Spec) : list (string * json) :=
  [("openapi", JStr (Spec_Openapi s)); ("info", doc (Spec_Info s))]
  ++ opt_member "externalDocs" (ptr_doc (Spec_ExternalDocs s))
  ++ opt_member "servers" (slice_doc (Spec_Servers s))
  ++ opt_member "security" (slice_doc (Spec_Security s))
  ++ opt_member "tags" (slice_doc (Spec_Tags s))
  ++ [("paths", doc (Spec_Paths s))]
  ++ opt_member "components" (ptr_doc (Spec_Components s)).

(** The document [Spec.MarshalJSON] writes. *)
Definition Spec_doc (s : Spec) (σ : mapstore) : json :=
  JObj (Spec_members s
        ++ sorted_members (bucket_contents σ (Spec_MapOfAnything s))).

(** A [Spec] that fits its schema: the nested nodes do, and the bucket holds
    decoded values under keys that match [^x-]; the strings are written
    without escapes. *)
Definition Spec_valid (s : Spec) (σ : mapstore) : Prop :=
  plain (Spec_Openapi s)
  ∧ valid (Spec_Info s)
  ∧ (∀ e, Spec_ExternalDocs s = Some e → valid e)
  ∧ Forall valid (slice_contents (Spec_Servers s))
  ∧ Forall valid (slice_contents (Spec_Security s))
  ∧ Forall valid (slice_contents (Spec_Tags s))
  ∧ valid (Spec_Paths s)
  ∧ (∀ c, Spec_Components s = Some c → valid c)
  ∧ (∀ key v,
       bucket_contents σ (Spec_MapOfAnything s) !! key = Some v →
       regexX_MatchString key = true ∧ plain key ∧ stable v).

(** Equal field for field: known fields, elements of the arrays in order,
    entries of the bucket. *)
Definition Spec_same (s1 : Spec) (σ1 : mapstore) (s2 : Spec) (σ2 : mapstore)
  : Prop :=
  Spec_Openapi s1 = Spec_Openapi s2
  ∧ Spec_Info s1 = Spec_Info s2
  ∧ Spec_ExternalDocs s1 = Spec_ExternalDocs s2
  ∧ slice_contents (Spec_Servers s1) = slice_contents (Spec_Servers s2)
  ∧ slice_contents (Spec_Security s1) = slice_contents (Spec_Security s2)
  ∧ slice_contents (Spec_Tags s1) = slice_contents (Spec_Tags s2)
  ∧ Spec_Paths s1 = Spec_Paths s2
  ∧ Spec_Components s1 = Spec_Components s2
  ∧ bucket_contents σ1 (Spec_MapOfAnything s1)
    = bucket_contents σ2 (Spec_MapOfAnything s2).



End RoundTrip.

(** ** The documents of the parameter-location arms

    An arm fits its schema when its style, if any, is one of the enumeration. *)
Definition PathParameterStyle_doc (i : PathParameterStyle) : json :=
  let 'PathParameterStyle_of s := i in JStr s.

Definition QueryParameterStyle_doc (i : QueryParameterStyle) : json :=
  let 'QueryParameterStyle_of s := i in JStr s.

Definition PathParameter_valid (p : PathParameter) : Prop :=
  ∀ s, PathParameter_Style p = Some (PathParameterStyle_of s) →
       PathParameterStyle_known s = true.

Definition QueryParameter_valid (q : QueryParameter) : Prop :=
  ∀ s, QueryParameter_Style q = Some (QueryParameterStyle_of s) →
       QueryParameterStyle_known s = true.

Definition PathParameter_doc (p : PathParameter) : json :=
  JObj ([("in", JStr "path"); ("required", JBool true)]
        ++ opt_member "style" (PathParameterStyle_doc <$> PathParameter_Style p)).

Definition QueryParameter_doc (q : QueryParameter) : json :=
  JObj ([("in", JStr "query")]
        ++ opt_member "style"
             (QueryParameterStyle_doc <$> QueryParameter_Style q)).

Definition HeaderParameter_doc : json :=
  JObj [("in", JStr "header"); ("style", JStr "simple")].

Definition CookieParameter_doc : json :=
  JObj [("in", JStr "cookie"); ("style", JStr "form")].

(** The number of arms of a parameter location that are not nil. *)
Definition set_arm {T} (arm : option T) : nat :=
  match arm with
  | Some _ => 1
  | None => 0
  end.

Definition arms_set (l : ParameterLocation) : nat :=
  set_arm (ParameterLocation_PathParameter l)
  + set_arm (ParameterLocation_QueryParameter l)
  + set_arm (ParameterLocation_HeaderParameter l)
  + set_arm (ParameterLocation_CookieParameter l).

(** A constant key of an arm is absent from the payload, or holds the
    literal. *)
Definition const_ok (key : string) (lit : bytes) (rawMap : gmap string json)
  : Prop :=
  ∀ v, rawMap !! key = Some v → print v = lit.

(** ** Paths

    The Go type [Paths] (the name [Paths] is taken by the nested node of
    [Spec] above).  It has no struct fields: the keys that match [^/] go to
    one bucket and those that match [^x-] to the other, and [UnmarshalJSON]
    writes into the receiver as it goes.  The two maps are held by their
    contents, [None] being the nil map. *)

(** [regex = regexp.MustCompile(`^\/`)] *)
Definition regex_MatchString (key : string) : bool := String.prefix "/" key.

Section PathsNode.
Context {RO : RangeOrder} {PathItem : Type} {PathItem_Codec : Codec PathItem}.

Record Paths_ : Type := mkPaths {
  Paths_MapOfPathItemValues : option (gmap string PathItem);
  Paths_MapOfAnything : option (gmap string json);
}.

(** One turn of [for key, rawValue := range rawMap]. *)
Definition Paths_turn (key : string) (rawValue : json) (p : Paths_)
    (rawMap : gmap string json) : Paths_ * gmap string json * option error :=
  let matched := false in
  let '(p, matched, err) :=
    if regex_MatchString key then
      let matched := true in
      let p :=
        match Paths_MapOfPathItemValues p with
        | None => mkPaths (Some ∅) (Paths_MapOfAnything p)
        | Some _ => p
        end in
      let '(val, err) := json_Unmarshal rawValue (zero : PathItem) in
      match err with
      | Some e => (p, matched, Some e)
      | None =>
          (mkPaths
             (Some (<[key := val]> (default ∅ (Paths_MapOfPathItemValues p))))
             (Paths_MapOfAnything p),
           matched, None)
      end
    else (p, matched, None) in
  match err with
  | Some e => (p, rawMap, Some e)
  | None =>
      let '(p, matched, err) :=
        if regexX_MatchString key then
          let matched := true in
          let p :=
            match Paths_MapOfAnything p with
            | None => mkPaths (Paths_MapOfPathItemValues p) (Some ∅)
            | Some _ => p
            end in
          let '(val, err) := json_Unmarshal rawValue (zero : json) in
          match err with
          | Some e => (p, matched, Some e)
          | None =>
              (mkPaths (Paths_MapOfPathItemValues p)
                 (Some (<[key := val]> (default ∅ (Paths_MapOfAnything p)))),
               matched, None)
          end
        else (p, matched, None) in
      match err with
      | Some e => (p, rawMap, Some e)
      | None => (p, if matched then delete key rawMap else rawMap, None)
      end
  end.

Fixpoint Paths_loop (keys : list string) (entries : gmap string json)
    (p : Paths_) (rawMap : gmap string json)
  : Paths_ * gmap string json * option error :=
  match keys with
  | [] => (p, rawMap, None)
  | key :: keys' =>
      let '(p', rawMap', err) :=
        Paths_turn key (default JNull (entries !! key)) p rawMap in
      match err with
      | Some e => (p', rawMap', Some e)
      | None => Paths_loop keys' entries p' rawMap'
      end
  end.

(** The receiver after the call, and the error. *)
Definition Paths_UnmarshalJSON (p : Paths_) (data : json)
  : Paths_ * option error :=
  let rawMap := rawMap_of data in
  let '(p, rawMap, err) := Paths_loop (rangeKeys rawMap) rawMap p rawMap in
  match err with
  | Some e => (p, Some e)
  | None =>
      match additional_properties "Paths" rawMap with
      | Some e => (p, Some e)
      | None => (p, None)
      end
  end.

Definition Paths_MarshalJSON (p : Paths_) : marshaled :=
  marshalUnion
    [ Iface (Paths_MapOfPathItemValues p);
      Iface (Stored (Paths_MapOfAnything p)) ].

(** The members of a payload that the bucket of path items takes, decoded,
    and the members that neither bucket takes. *)
Definition item_entries (rawMap : gmap string json) : gmap string PathItem :=
  (fun v => (json_Unmarshal v (zero : PathItem)).1)
    <$> filter (fun kv => regex_MatchString kv.1 = true) rawMap.

Definition items_decode (rawMap : gmap string json) : Prop :=
  ∀ key v, rawMap !! key = Some v → regex_MatchString key = true →
           (json_Unmarshal v (zero : PathItem)).2 = None.

Definition unmatched (rawMap : gmap string json) : gmap string json :=
  filter (fun kv => regex_MatchString kv.1 || regexX_MatchString kv.1 = false)
         rawMap.

End PathsNode.

(** The round trip of [Paths]: the document that [MarshalJSON] writes, the
    nodes that fit the schema, and equality of contents. *)
Section PathsRoundTrip.
Context {RO : RangeOrder} {PathItem : Type} {PathItem_Codec : Codec PathItem}
  {PathItem_Laws : CodecLaws PathItem}.

Definition Paths_members (p : @Paths_ PathItem) : list (string * json) :=
  ((fun kv => (kv.1, doc kv.2))
     <$> sorted_members (default ∅ (Paths_MapOfPathItemValues p)))
  ++ sorted_members (default ∅ (Paths_MapOfAnything p)).

Definition Paths_doc (p : @Paths_ PathItem) : json := JObj (Paths_members p).

Definition Paths_valid (p : @Paths_ PathItem) : Prop :=
  (∀ key v, default ∅ (Paths_MapOfPathItemValues p) !! key = Some v →
            regex_MatchString key = true ∧ plain key ∧ valid v)
  ∧ (∀ key v, default ∅ (Paths_MapOfAnything p) !! key = Some v →
              regexX_MatchString key = true ∧ plain key ∧ stable v).

Definition Paths_same (p1 p2 : @Paths_ PathItem) : Prop :=
  default ∅ (Paths_MapOfPathItemValues p1)
  = default ∅ (Paths_MapOfPathItemValues p2)
  ∧ default ∅ (Paths_MapOfAnything p1) = default ∅ (Paths_MapOfAnything p2).

End PathsRoundTrip.

(** What the loop writes into a bucket, key by key, for the keys that match
    [pr], and what it deletes from the raw map. *)
Definition writes {A} (pr : string → bool) (f : json → A) (keys : list string)
    (entries : gmap string json) (m : gmap string A) : gmap string A :=
  foldl (fun m key =>
           if pr key then <[key := f (default JNull (entries !! key))]> m
           else m)
        m keys.

Definition deletes (pr : string → bool) (keys : list string)
    (rawMap : gmap string json) : gmap string json :=
  foldl (fun m key => if pr key then delete key m else m) rawMap keys.

(** A bucket after new entries have been put into it: a nil map stays nil
    when there is nothing to put. *)
Definition merge_into {A} (new : gmap string A) (old : option (gmap string A))
  : option (gmap string A) :=
  if decide (new = ∅) then old else Some (new ∪ default ∅ old).

(** The accumulator ([result], [isObject]) after the loop has gone through
    [maps] without returning. *)
Fixpoint marshalUnion_run (result : bytes) (isObject : bool)
    (maps : list iface) : option (bytes * bool) :=
  match maps with
  | [] => Some (result, isObject)
  | m :: maps' =>
      match json_Marshal_iface m with
      | Done j =>
          match marshalUnion_step result isObject j with
          | Continue result' isObject' =>
              marshalUnion_run result' isObject' maps'
          | _ => None
          end
      | _ => None
      end
  end.

Definition accumulator (maps : list iface) : option (bytes * bool) :=
  marshalUnion_run "{" true maps.

(** Kinds of marshalled fragments. *)
Definition skipped (j : bytes) : Prop := j = "{}" ∨ j = "null".

(** An object with at least one member: [{body}]. *)
Definition object_of (body : string) : bytes := "{" +:+ body +:+ "}".

(** A non-object: not empty, first byte not an opening brace, not [null]. *)
Definition scalar (j : bytes) : Prop :=
  ∃ c t, j = String c t ∧ c ≠ "{"%char ∧ j ≠ "null".

(** What holds of every accumulator the loop can reach. *)
Definition acc_inv (result : bytes) (isObject : bool) : Prop :=
  if isObject then ∃ t, result = String "{" t else scalar result.

(** A fragment that the loop passes over. *)
Definition skips (m : iface) : Prop :=
  ∃ j, json_Marshal_iface m = Done j ∧ skipped j.

(** The two accumulators in which a non-object fragment [j] is taken over. *)
Definition takes_scalar (result : bytes) (isObject : bool) (j : bytes) : Prop :=
  (result = "{" ∧ isObject = true)
  ∨ (isObject = false ∧ result = j ∧ String.length j = 1).

Global Instance takes_scalar_dec result isObject j :
  Decision (takes_scalar result isObject j).
Proof. unfold takes_scalar. apply _. Defined.

(** Fragments [maps] marshal to the objects with member lists [bodies]. *)
Definition marshal_objects (maps : list iface) (bodies : list string) : Prop :=
  Forall2 (fun m b => json_Marshal_iface m = Done (object_of b)
                      ∧ b ≠ EmptyString) maps bodies.

(** * Properties *)

(** ** Bytes *)

Lemma bytes_app_cons a s t : String a s +:+ t = String a (s +:+ t).
Proof. reflexivity. Qed.

Lemma bytes_app_nil_l s : EmptyString +:+ s = s.
Proof. reflexivity. Qed.

Lemma bytes_app_nil_r s : s +:+ EmptyString = s.
Proof. induction s as [|a s IH]; [done|]. by rewrite bytes_app_cons, IH. Qed.

Lemma bytes_app_assoc s t u : (s +:+ t) +:+ u = s +:+ t +:+ u.
Proof.
  induction s as [|a s IH]; [done|]. by rewrite !bytes_app_cons, IH.
Qed.

Lemma bytes_length_app s t :
  String.length (s +:+ t) = String.length s + String.length t.
Proof.
  induction s as [|a s IH]; [done|]. rewrite bytes_app_cons. simpl. by rewrite IH.
Qed.

Lemma bytes_set_last_snoc c s d :
  bytes_set_last c (s +:+ String d EmptyString) = s +:+ String c EmptyString.
Proof.
  induction s as [|a s IH]; [done|].
  rewrite !bytes_app_cons. simpl. rewrite IH.
  destruct s; reflexivity.
Qed.

Lemma bytes_eqb_eq s t : String.eqb s t = true ↔ s = t.
Proof. apply String.eqb_eq. Qed.

Lemma bytes_eqb_neq s t : String.eqb s t = false ↔ s ≠ t.
Proof. apply String.eqb_neq. Qed.

(** ** marshalUnion *)

Example marshalUnion_ex1 :
  marshalUnion (raws ["{" +:+ quote "a" +:+ ":1}"; "null"; "{}";
                      "{" +:+ quote "b" +:+ ":2}"])
  = Done ("{" +:+ quote "a" +:+ ":1," +:+ quote "b" +:+ ":2}").
Proof. reflexivity. Qed.

Example marshalUnion_ex2 : marshalUnion (raws ["null"; "true"]) = Done "true".
Proof. reflexivity. Qed.

Example marshalUnion_ex3 : marshalUnion (raws []) = Done "{}".
Proof. reflexivity. Qed.

Lemma step_skipped result isObject j :
  skipped j → marshalUnion_step result isObject j = Continue result isObject.
Proof. by intros [-> | ->]. Qed.

Lemma object_of_cons body : object_of body = String "{" (body +:+ "}").
Proof. reflexivity. Qed.

Lemma object_of_not_skipped body :
  body ≠ EmptyString →
  String.eqb (object_of body) "{}" = false ∧
  String.eqb (object_of body) "null" = false.
Proof.
  intros Hb. split; [|done].
  apply bytes_eqb_neq. rewrite object_of_cons. intros [=H].
  destruct body as [|a body]; [done|]. rewrite bytes_app_cons in H.
  injection H as _ H. by destruct body.
Qed.

Lemma step_object_first body :
  body ≠ EmptyString →
  marshalUnion_step "{" true (object_of body) = Continue (object_of body) true.
Proof.
  intros Hb. unfold marshalUnion_step.
  destruct (object_of_not_skipped body Hb) as [-> ->].
  by rewrite object_of_cons.
Qed.

Lemma step_object_next acc body :
  body ≠ EmptyString →
  marshalUnion_step (object_of acc) true (object_of body)
  = Continue (object_of (acc +:+ "," +:+ body)) true.
Proof.
  intros Hb. unfold marshalUnion_step.
  destruct (object_of_not_skipped body Hb) as [-> ->].
  rewrite (object_of_cons body). simpl negb. cbv iota.
  assert ((1 <? String.length (object_of acc)) = true) as ->.
  { apply Nat.ltb_lt. unfold object_of. rewrite !bytes_length_app. simpl. lia. }
  simpl bytes_tail. f_equal. unfold object_of.
  rewrite <- (bytes_app_assoc "{" acc "}"), bytes_set_last_snoc.
  by rewrite !bytes_app_assoc.
Qed.

Lemma step_object_after_scalar result j :
  (∃ t, j = String "{" t) → j ≠ "{}" →
  marshalUnion_step result false j
  = Return (errors_New ("failed to union " +:+ result +:+ " and " +:+ j)).
Proof.
  intros [t ->] Hne. unfold marshalUnion_step.
  apply bytes_eqb_neq in Hne as ->. done.
Qed.

(** When exactly a non-object fragment is taken over. *)
Lemma step_scalar result isObject j :
  scalar j →
  marshalUnion_step result isObject j =
    if (String.length result =? 1) && (isObject || String.eqb result j)
    then Continue j false
    else Return (errors_New
           ("failed to union map: object expected, " +:+ j +:+ " received")).
Proof.
  intros (c & t & -> & Hc & Hnull). unfold marshalUnion_step.
  apply bytes_eqb_neq in Hnull as ->.
  assert (String.eqb (String c t) "{}" = false) as ->.
  { apply bytes_eqb_neq. intros [=]. done. }
  assert (Ascii.eqb c "{" = false) as ->; [|done].
  by apply Ascii.eqb_neq.
Qed.

Lemma step_no_panic result isObject j :
  j ≠ EmptyString → marshalUnion_step result isObject j ≠ IndexPanic.
Proof.
  intros Hj. unfold marshalUnion_step.
  repeat case_match; done.
Qed.

(** *** The loop *)

Lemma loop_app result isObject pre post :
  marshalUnion_loop result isObject (pre ++ post) =
    match marshalUnion_run result isObject pre with
    | Some (result', isObject') => marshalUnion_loop result' isObject' post
    | None => marshalUnion_loop result isObject pre
    end.
Proof.
  revert result isObject. induction pre as [|m pre IH]; intros result isObject.
  { done. }
  simpl. destruct (json_Marshal_iface m) as [j| |]; [|done..].
  destruct (marshalUnion_step result isObject j); [|done..].
  apply IH.
Qed.

Lemma run_app result isObject pre post :
  marshalUnion_run result isObject (pre ++ post) =
    match marshalUnion_run result isObject pre with
    | Some (result', isObject') => marshalUnion_run result' isObject' post
    | None => None
    end.
Proof.
  revert result isObject. induction pre as [|m pre IH]; intros result isObject.
  { done. }
  simpl. destruct (json_Marshal_iface m) as [j| |]; [|done..].
  destruct (marshalUnion_step result isObject j); [|done..].
  apply IH.
Qed.

Lemma loop_skip_middle result isObject pre m post j :
  json_Marshal_iface m = Done j → skipped j →
  marshalUnion_loop result isObject (pre ++ m :: post)
  = marshalUnion_loop result isObject (pre ++ post).
Proof.
  intros Hm Hj. revert result isObject.
  induction pre as [|m' pre IH]; intros result isObject; simpl.
  - by rewrite Hm, step_skipped.
  - destruct (json_Marshal_iface m') as [j'| |]; [|done..].
    destruct (marshalUnion_step result isObject j'); [|done..].
    apply IH.
Qed.

Lemma join_cons sep x y l :
  join sep (x :: y :: l) = x +:+ sep +:+ join sep (y :: l).
Proof. reflexivity. Qed.

Lemma run_objects acc maps bodies :
  marshal_objects maps bodies →
  marshalUnion_run (object_of acc) true maps
  = Some (object_of (join "," (acc :: bodies)), true).
Proof.
  intros H. revert acc. induction H as [|m b maps bodies [Hm Hb] _ IH]; intros acc.
  { done. }
  simpl marshalUnion_run. rewrite Hm, step_object_next by done.
  rewrite IH. rewrite (join_cons _ acc b bodies).
  destruct bodies as [|b' bodies]; [done|].
  by rewrite !join_cons, !bytes_app_assoc.
Qed.

Lemma run_objects_first maps bodies :
  bodies ≠ [] →
  marshal_objects maps bodies →
  accumulator maps = Some (object_of (join "," bodies), true).
Proof.
  intros Hne H. destruct H as [|m b maps bodies [Hm Hb] H]; [done|].
  unfold accumulator. simpl marshalUnion_run.
  rewrite Hm, step_object_first by done. by apply run_objects.
Qed.

Lemma loop_finish_object body :
  marshalUnion_loop (object_of body) true [] = Done (object_of body).
Proof.
  unfold marshalUnion_loop.
  assert ((String.length (object_of body) =? 1) = false) as ->; [|done].
  apply Nat.eqb_neq. unfold object_of. rewrite !bytes_length_app. simpl. lia.
Qed.

(** Object fragments are merged in list order. *)
Lemma marshalUnion_objects maps bodies :
  bodies ≠ [] →
  marshal_objects maps bodies →
  marshalUnion maps = Done (object_of (join "," bodies)).
Proof.
  intros Hne H. unfold marshalUnion.
  rewrite <- (app_nil_r maps), loop_app.
  fold (accumulator maps). rewrite (run_objects_first _ _ Hne H).
  apply loop_finish_object.
Qed.

Lemma bytes_set_last_cons2 c a b t :
  bytes_set_last c (String a (String b t)) = String a (bytes_set_last c (String b t)).
Proof. reflexivity. Qed.

Lemma step_inv result isObject j result' isObject' :
  acc_inv result isObject →
  marshalUnion_step result isObject j = Continue result' isObject' →
  acc_inv result' isObject'.
Proof.
  intros Hinv. unfold marshalUnion_step.
  destruct (String.eqb j "{}") eqn:E1; [by intros [= <- <-]|].
  destruct (String.eqb j "null") eqn:E2; [by intros [= <- <-]|].
  destruct j as [|j0 t]; [done|].
  destruct (Ascii.eqb j0 "{") eqn:E3; simpl negb; cbv iota.
  - destruct isObject; simpl negb; cbv iota; [|done].
    intros [= <- <-]. destruct Hinv as [u ->]. simpl.
    destruct u as [|b u].
    + simpl. by eexists.
    + destruct (1 <? _); rewrite bytes_app_cons; by eexists.
  - destruct (_ && _); [|done]. intros [= <- <-].
    exists j0, t. split; [done|]. split.
    + by apply Ascii.eqb_neq.
    + by apply bytes_eqb_neq.
Qed.

Lemma run_inv result isObject maps result' isObject' :
  acc_inv result isObject →
  marshalUnion_run result isObject maps = Some (result', isObject') →
  acc_inv result' isObject'.
Proof.
  revert result isObject. induction maps as [|m maps IH]; intros result isObject Hinv.
  { by intros [= <- <-]. }
  simpl. destruct (json_Marshal_iface m) as [j| |]; [|done..].
  destruct (marshalUnion_step result isObject j) as [r b| |] eqn:Hs; [|done..].
  apply IH. by eapply step_inv.
Qed.

Lemma accumulator_inv maps result isObject :
  accumulator maps = Some (result, isObject) → acc_inv result isObject.
Proof. apply run_inv. by exists EmptyString. Qed.

Lemma run_skips result isObject maps :
  Forall skips maps → marshalUnion_run result isObject maps = Some (result, isObject).
Proof.
  induction 1 as [|m maps (j & Hm & Hj) _ IH]; [done|].
  simpl. by rewrite Hm, step_skipped.
Qed.

Lemma scalar_not_object_first j : scalar j → ∀ t, j ≠ String "{" t.
Proof. intros (c & u & -> & Hc & _) t [= ? ?]. done. Qed.

(** A non-object fragment met in a reachable accumulator: it is taken over
    when nothing has been accumulated, or when the accumulator is this very
    fragment and one byte long; otherwise the loop returns an error. *)
Lemma step_scalar_reachable result isObject j :
  acc_inv result isObject → scalar j →
  (marshalUnion_step result isObject j = Continue j false
   ∧ ((result = "{" ∧ isObject = true)
      ∨ (isObject = false ∧ result = j ∧ String.length j = 1)))
  ∨ (marshalUnion_step result isObject j
       = Return (errors_New
           ("failed to union map: object expected, " +:+ j +:+ " received"))
     ∧ ¬ (result = "{" ∧ isObject = true)
     ∧ ¬ (isObject = false ∧ result = j ∧ String.length j = 1)).
Proof.
  intros Hinv Hj. rewrite (step_scalar _ _ _ Hj).
  destruct (String.length result =? 1) eqn:Hlen.
  - apply Nat.eqb_eq in Hlen. destruct isObject; simpl.
    + left. split; [done|]. left. split; [|done].
      destruct Hinv as [t ->]. by destruct t.
    + destruct (String.eqb result j) eqn:E.
      * apply bytes_eqb_eq in E as ->. left. split; [done|]. by right.
      * apply bytes_eqb_neq in E. right. split; [done|]. split.
        -- by intros [_ ?].
        -- by intros (_ & ? & _).
  - apply Nat.eqb_neq in Hlen. simpl. right. split; [done|]. split.
    + intros [-> _]. done.
    + intros (_ & -> & ?). done.
Qed.

Lemma loop_return result isObject m j e maps :
  json_Marshal_iface m = Done j →
  marshalUnion_step result isObject j = Return e →
  marshalUnion_loop result isObject (m :: maps) = Failed e.
Proof. intros Hm Hs. simpl. by rewrite Hm, Hs. Qed.

Lemma loop_no_panic result isObject maps :
  Forall (fun m => json_Marshal_iface m ≠ Panicked
                   ∧ json_Marshal_iface m ≠ Done EmptyString) maps →
  marshalUnion_loop result isObject maps ≠ Panicked.
Proof.
  intros H. revert result isObject.
  induction H as [|m maps [Hp He] _ IH]; intros result isObject.
  { simpl. by destruct (_ && _). }
  simpl. destruct (json_Marshal_iface m) as [j| |] eqn:Hm; [|done..].
  destruct (marshalUnion_step result isObject j) eqn:Hs; [apply IH|done|].
  exfalso. eapply step_no_panic; [|done]. by intros ->.
Qed.

Lemma loop_finish_scalar j : marshalUnion_loop j false [] = Done j.
Proof. reflexivity. Qed.

Lemma marshalUnion_scalar_alone pre m j post :
  Forall skips pre → json_Marshal_iface m = Done j → scalar j →
  Forall skips post →
  marshalUnion (pre ++ m :: post) = Done j.
Proof.
  intros Hpre Hm Hj Hpost. unfold marshalUnion.
  rewrite loop_app, run_skips by done. simpl. rewrite Hm.
  destruct (step_scalar_reachable "{" true j) as [[-> _]|(_ & Hn & _)];
    [by exists EmptyString|done| |by destruct Hn].
  rewrite <- (app_nil_r post), loop_app, run_skips by done.
  apply loop_finish_scalar.
Qed.

Lemma marshalUnion_scalar_step pre result isObject m j post :
  accumulator pre = Some (result, isObject) →
  json_Marshal_iface m = Done j → scalar j →
  if decide (takes_scalar result isObject j)
  then accumulator (pre ++ [m]) = Some (j, false)
  else marshalUnion (pre ++ m :: post)
       = Failed (errors_New
           ("failed to union map: object expected, " +:+ j +:+ " received")).
Proof.
  intros Hacc Hm Hj. pose proof (accumulator_inv _ _ _ Hacc) as Hinv.
  destruct (step_scalar_reachable result isObject j Hinv Hj)
    as [[Hs Ht]|(Hs & Hn1 & Hn2)].
  - rewrite decide_True by done. unfold accumulator in *.
    rewrite run_app, Hacc. simpl. by rewrite Hm, Hs.
  - rewrite decide_False by (intros [?|?]; done).
    unfold marshalUnion, accumulator in *. rewrite loop_app, Hacc.
    by eapply loop_return.
Qed.

Lemma marshalUnion_object_after_scalar pre result m j post :
  accumulator pre = Some (result, false) →
  json_Marshal_iface m = Done j → (∃ t, j = String "{" t) → j ≠ "{}" →
  marshalUnion (pre ++ m :: post)
  = Failed (errors_New ("failed to union " +:+ result +:+ " and " +:+ j)).
Proof.
  intros Hacc Hm Hj Hne. unfold marshalUnion, accumulator in *.
  rewrite loop_app, Hacc. eapply loop_return; [done|].
  by apply step_object_after_scalar.
Qed.

(** C6 (as amended): the merge rules of [marshalUnion].  Fragments that
    marshal to [{}] or [null] are skipped; object fragments are joined in list
    order; a non-object fragment is taken over, and is then the whole result,
    exactly when nothing has been accumulated yet or when the accumulator is
    that same fragment and one byte long; a non-object fragment met in any
    other accumulator, and an object fragment met after a non-object one, make
    [marshalUnion] return an error value; fragments that marshal to at least
    one byte never make it panic. *)
Theorem marshalUnion_merge_rules :
  (∀ result isObject pre m post, skips m →
     marshalUnion_loop result isObject (pre ++ m :: post)
     = marshalUnion_loop result isObject (pre ++ post))
  ∧ (∀ maps bodies, bodies ≠ [] → marshal_objects maps bodies →
       marshalUnion maps = Done (object_of (join "," bodies)))
  ∧ (∀ pre m j post,
       Forall skips pre → json_Marshal_iface m = Done j → scalar j →
       Forall skips post →
       marshalUnion (pre ++ m :: post) = Done j)
  ∧ (∀ pre result isObject m j post,
       accumulator pre = Some (result, isObject) →
       json_Marshal_iface m = Done j → scalar j →
       if decide (takes_scalar result isObject j)
       then accumulator (pre ++ [m]) = Some (j, false)
       else marshalUnion (pre ++ m :: post)
            = Failed (errors_New
                ("failed to union map: object expected, " +:+ j +:+ " received")))
  ∧ (∀ pre bodies m j post,
       bodies ≠ [] → marshal_objects pre bodies →
       json_Marshal_iface m = Done j → scalar j →
       marshalUnion (pre ++ m :: post)
       = Failed (errors_New
           ("failed to union map: object expected, " +:+ j +:+ " received")))
  ∧ (∀ pre result m j post,
       accumulator pre = Some (result, false) →
       json_Marshal_iface m = Done j → scalar j → j ≠ result →
       marshalUnion (pre ++ m :: post)
       = Failed (errors_New
           ("failed to union map: object expected, " +:+ j +:+ " received")))
  ∧ (∀ pre result m j post,
       accumulator pre = Some (result, false) →
       json_Marshal_iface m = Done j → (∃ t, j = String "{" t) → j ≠ "{}" →
       marshalUnion (pre ++ m :: post)
       = Failed (errors_New ("failed to union " +:+ result +:+ " and " +:+ j)))
  ∧ (∀ maps,
       Forall (fun m => json_Marshal_iface m ≠ Panicked
                        ∧ json_Marshal_iface m ≠ Done EmptyString) maps →
       marshalUnion maps ≠ Panicked).
Proof.
  split; [|split; [|split; [|split; [|split; [|split; [|split]]]]]].
  - intros result isObject pre m post (j & Hm & Hj). by eapply loop_skip_middle.
  - apply marshalUnion_objects.
  - apply marshalUnion_scalar_alone.
  - apply marshalUnion_scalar_step.
  - intros pre bodies m j post Hne Hobj Hm Hj.
    pose proof (run_objects_first _ _ Hne Hobj) as Hacc.
    pose proof (marshalUnion_scalar_step _ _ _ _ _ post Hacc Hm Hj) as H.
    rewrite decide_False in H; [done|].
    intros [[H1 _]|[H1 _]]; [|done].
    apply (f_equal String.length) in H1. unfold object_of in H1.
    rewrite !bytes_length_app in H1. simpl in H1. lia.
  - intros pre result m j post Hacc Hm Hj Hne.
    pose proof (marshalUnion_scalar_step _ _ _ _ _ post Hacc Hm Hj) as H.
    rewrite decide_False in H; [done|].
    intros [[_ ?]|(_ & ? & _)]; done.
  - apply marshalUnion_object_after_scalar.
  - intros maps H. by apply loop_no_panic.
Qed.

(** C6 as stated fails: a second non-object fragment is taken over although
    the accumulator already holds the first one. *)
Lemma marshalUnion_scalar_taken_twice :
  accumulator (raws ["1"]) = Some ("1", false)
  ∧ accumulator (raws ["1"; "1"]) = Some ("1", false)
  ∧ marshalUnion (raws ["1"; "1"]) = Done "1"
  ∧ ¬ (∀ pre j result isObject,
         accumulator pre = Some (result, isObject) → scalar j →
         is_Some (accumulator (pre ++ raws [j])) →
         result = "{" ∧ isObject = true).
Proof.
  split; [done|]. split; [done|]. split; [done|].
  intros H. destruct (H (raws ["1"]) "1" "1" false) as [_ ?]; [done| |by eexists|done].
  exists "1"%char, EmptyString. done.
Qed.

(** ** Struct decoding *)

Lemma find_field_elem_of {S} (fs : list (field S)) key f :
  find_field fs key = Some f → f ∈ fs.
Proof.
  unfold find_field. intros H.
  destruct (find _ fs) as [f'|] eqn:E.
  - injection H as <-. apply list_elem_of_In. by eapply find_some.
  - apply list_elem_of_In. by eapply find_some.
Qed.

(** *** The struct decoder on an object none of whose members fails *)

Lemma decode_members_saved {S} name (fs : list (field S)) kvs s e0 :
  ∃ e, (decode_members name fs kvs s (Some e0)).2 = Some e.
Proof.
  revert s e0. induction kvs as [|[key v] kvs IH]; intros s e0.
  { by exists e0. }
  simpl. destruct (find_field fs key) as [f|]; [|apply IH].
  destruct (json_Unmarshal v (fget f s)) as [x [e|]]; [|apply IH].
  destruct (saved v); [apply IH|]. by eexists.
Qed.

Lemma decode_members_None {S} name (fs : list (field S)) kvs s ms :
  decode_members name fs kvs s None = (ms, None)
  ↔ unmarshal_members fs kvs s = (ms, None).
Proof.
  revert s. induction kvs as [|[key v] kvs IH]; intros s; [done|].
  simpl. destruct (find_field fs key) as [f|]; [|apply IH].
  destruct (json_Unmarshal v (fget f s)) as [x [e|]]; [|apply IH].
  split; [|done]. destruct (saved v); [|done].
  destruct (decode_members_saved name fs kvs (fset f x s)
              (add_context name (fname f) e)) as [e' He'].
  simpl. intros Heq. rewrite Heq in He'. done.
Qed.

Lemma json_Unmarshal_struct_JObj {S} typ (fs : list (field S)) kvs s ms :
  json_Unmarshal_struct typ fs (JObj kvs) s = (ms, None)
  ↔ unmarshal_members fs kvs s = (ms, None).
Proof. apply decode_members_None. Qed.

Lemma json_Unmarshal_struct_ok {S} typ (fs : list (field S)) kvs s :
  (json_Unmarshal_struct typ fs (JObj kvs) s).2 = None
  ↔ (unmarshal_members fs kvs s).2 = None.
Proof.
  split.
  - destruct (json_Unmarshal_struct typ fs (JObj kvs) s) as [ms [e|]] eqn:E;
      [done|].
    intros _. apply json_Unmarshal_struct_JObj in E. by rewrite E.
  - destruct (unmarshal_members fs kvs s) as [ms [e|]] eqn:E; [done|].
    intros _. apply (json_Unmarshal_struct_JObj typ) in E. by rewrite E.
Qed.

Lemma unmarshal_members_found {S} (fs : list (field S)) key v kvs s f x :
  find_field fs key = Some f →
  json_Unmarshal (Codec := fcodec f) v (fget f s) = (x, None) →
  unmarshal_members fs ((key, v) :: kvs) s
  = unmarshal_members fs kvs (fset f x s).
Proof. intros Hf Hx. simpl. by rewrite Hf, Hx. Qed.

Lemma unmarshal_members_fits {S} (fs : list (field S)) kvs s :
  Forall fits_numbers fs → numbers_fit kvs →
  (unmarshal_members fs kvs s).2 = None.
Proof.
  intros Hfs Hkvs. revert s.
  induction Hkvs as [|[key v] kvs Hv _ IH]; intros s; [done|].
  simpl. destruct (find_field fs key) as [f|] eqn:E; [|apply IH].
  apply find_field_elem_of in E.
  pose proof (proj1 (Forall_forall _ _) Hfs f E v (fget f s) Hv) as Hf.
  destruct (json_Unmarshal v (fget f s)) as [x [e|]]; [done|]. apply IH.
Qed.

Lemma json_Unmarshal_struct_fits {S} typ (fs : list (field S)) kvs s :
  Forall fits_numbers fs → numbers_fit kvs →
  (json_Unmarshal_struct typ fs (JObj kvs) s).2 = None.
Proof.
  intros Hfs Hkvs. apply json_Unmarshal_struct_ok.
  by apply unmarshal_members_fits.
Qed.

Lemma rawMap_of_JObj kvs : rawMap_of (JObj kvs) = to_map kvs.
Proof. reflexivity. Qed.

Lemma require_keys_None requireKeys rawMap :
  require_keys requireKeys rawMap = None
  ↔ Forall (fun key => is_Some (rawMap !! key)) requireKeys.
Proof.
  induction requireKeys as [|key keys IH]; simpl.
  - split; [constructor|done].
  - destruct (rawMap !! key) as [v|] eqn:E.
    + rewrite IH. split; [by constructor|by inversion 1].
    + split; [done|]. inversion 1 as [|?? [? ?]]; simplify_eq.
Qed.

(** The error names the first required key that is absent. *)
Lemma require_keys_Some requireKeys rawMap e :
  require_keys requireKeys rawMap = Some e
  ↔ ∃ pre key post,
      requireKeys = pre ++ key :: post
      ∧ Forall (fun k => is_Some (rawMap !! k)) pre
      ∧ rawMap !! key = None
      ∧ e = errors_New ("required key missing: " +:+ key).
Proof.
  induction requireKeys as [|key keys IH]; simpl.
  - split; [done|]. intros (pre & ? & ? & H & _). by destruct pre.
  - destruct (rawMap !! key) as [v|] eqn:E.
    + rewrite IH. split.
      * intros (pre & k & post & -> & Hpre & Hk & ->).
        exists (key :: pre), k, post. repeat split; [|done]. by constructor.
      * intros (pre & k & post & Heq & Hpre & Hk & ->).
        destruct pre as [|k' pre]; simplify_eq/=.
        exists pre, k, post. repeat split; [|done]. by inversion Hpre.
    + split.
      * intros [= <-]. exists [], key, keys. by repeat split.
      * intros (pre & k & post & Heq & Hpre & Hk & ->).
        destruct pre as [|k' pre]; simplify_eq/=; [done|].
        inversion Hpre as [|?? [? ?]]; simplify_eq.
Qed.

(** ** SchemaXORContent *)

Lemma marshalHasSchema_fits : Forall fits_numbers marshalHasSchema_fields.
Proof. repeat (apply Forall_cons; split; [by intros v x ?|]). constructor. Qed.

Lemma marshalHasContent_fits : Forall fits_numbers marshalHasContent_fields.
Proof. repeat (apply Forall_cons; split; [by intros v x ?|]). constructor. Qed.

Lemma marshalSchemaXORContentNot_fits :
  Forall fits_numbers marshalSchemaXORContentNot_fields.
Proof. repeat (apply Forall_cons; split; [by intros v x ?|]). constructor. Qed.

Lemma HasSchema_UnmarshalJSON_err h kvs :
  numbers_fit kvs →
  (HasSchema_UnmarshalJSON h (JObj kvs)).2
  = match to_map kvs !! "schema" with
    | Some _ => None
    | None => Some (errors_New "required key missing: schema")
    end.
Proof.
  intros Hfit. unfold HasSchema_UnmarshalJSON.
  pose proof (json_Unmarshal_struct_fits "openapi3.marshalHasSchema" _ kvs
                (h : marshalHasSchema) marshalHasSchema_fits Hfit) as H.
  destruct (json_Unmarshal_struct _ _ _ _) as [mh err]. simpl in H. subst err.
  rewrite rawMap_of_JObj. simpl. by destruct (to_map kvs !! "schema").
Qed.

Lemma HasContent_UnmarshalJSON_err h kvs :
  numbers_fit kvs →
  (HasContent_UnmarshalJSON h (JObj kvs)).2
  = match to_map kvs !! "content" with
    | Some _ => None
    | None => Some (errors_New "required key missing: content")
    end.
Proof.
  intros Hfit. unfold HasContent_UnmarshalJSON.
  pose proof (json_Unmarshal_struct_fits "openapi3.marshalHasContent" _ kvs
                (h : marshalHasContent) marshalHasContent_fits Hfit) as H.
  destruct (json_Unmarshal_struct _ _ _ _) as [mh err]. simpl in H. subst err.
  rewrite rawMap_of_JObj. simpl. by destruct (to_map kvs !! "content").
Qed.

Lemma SchemaXORContentNot_UnmarshalJSON_err s kvs :
  numbers_fit kvs →
  (SchemaXORContentNot_UnmarshalJSON s (JObj kvs)).2
  = match to_map kvs !! "schema", to_map kvs !! "content" with
    | Some _, Some _ => None
    | None, _ => Some (errors_New "required key missing: schema")
    | Some _, None => Some (errors_New "required key missing: content")
    end.
Proof.
  intros Hfit. unfold SchemaXORContentNot_UnmarshalJSON.
  pose proof (json_Unmarshal_struct_fits "openapi3.marshalSchemaXORContentNot"
                _ kvs (s : marshalSchemaXORContentNot)
                marshalSchemaXORContentNot_fits Hfit) as H.
  destruct (json_Unmarshal_struct _ _ _ _) as [ms err]. simpl in H. subst err.
  rewrite rawMap_of_JObj. simpl.
  by destruct (to_map kvs !! "schema"), (to_map kvs !! "content").
Qed.

(** The arm of a pointer field on an object payload. *)
Lemma ptr_Unmarshal_JObj {T} `{Codec T} kvs (arm : option T) :
  json_Unmarshal (JObj kvs) arm
  = ((Some (json_Unmarshal (JObj kvs) (default zero arm)).1),
     (json_Unmarshal (JObj kvs) (default zero arm)).2).
Proof. simpl. by destruct (json_Unmarshal (JObj kvs) (default zero arm)). Qed.


(** C7 as stated fails: the payload has both keys and is accepted.  The
    number under [schema] is beyond float64, so the [not] shape and the
    shape with [schema], which decode it, fail; the shape with [content]
    skips it. *)
Lemma SchemaXORContent_accepts_both :
  let kvs := [("schema", JNum "1e400"); ("content", JObj [])] in
  is_Some (to_map kvs !! "schema") ∧ is_Some (to_map kvs !! "content")
  ∧ SchemaXORContent_UnmarshalJSON zero (JObj kvs)
    = (mkSchemaXORContent None (Some (mkHasContent (JObj []))), None).
Proof. cbv zeta. split; [by eexists|]. split; [by eexists|]. by vm_compute. Qed.

(** ** Constant fields of the parameter-location arms *)

Lemma check_const_spec key lit rawMap :
  check_const key lit rawMap
  = match rawMap !! key with
    | Some v => if decide (print v = lit) then None
                else Some (bad_const key lit (print v))
    | None => None
    end.
Proof.
  unfold check_const. destruct (rawMap !! key) as [v|]; [|done].
  destruct (String.eqb (print v) lit) eqn:E; simpl.
  - apply bytes_eqb_eq in E. by rewrite decide_True.
  - apply bytes_eqb_neq in E. by rewrite decide_False.
Qed.

Lemma PathParameter_UnmarshalJSON_spec p data mp :
  json_Unmarshal_struct "openapi3.marshalPathParameter"
    marshalPathParameter_fields data p = (mp, None) →
  PathParameter_UnmarshalJSON p data
  = match rawMap_of data !! "required" with
    | None => (p, Some (errors_New "required key missing: required"))
    | Some r =>
        match check_const "in" (quote "path") (rawMap_of data) with
        | Some e => (p, Some e)
        | None =>
            if decide (print r = "true") then (mp, None)
            else (p, Some (bad_const "required" "true" (print r)))
        end
    end.
Proof.
  intros Hs. unfold PathParameter_UnmarshalJSON. rewrite Hs. simpl.
  destruct (rawMap_of data !! "required") as [r|] eqn:Hr; [|done].
  destruct (check_const "in" _ _) as [e|]; [done|].
  rewrite check_const_spec, lookup_delete_ne, Hr by done.
  by destruct (decide _).
Qed.

Lemma PathParameterStyle_known_cases s :
  PathParameterStyle_known s = true →
  s = "matrix" ∨ s = "label" ∨ s = "simple".
Proof.
  unfold PathParameterStyle_known. intros H.
  apply orb_true_iff in H as [H|H]; [apply orb_true_iff in H as [H|H]|];
    apply bytes_eqb_eq in H; auto.
Qed.

Lemma PathParameter_MarshalJSON_spec p :
  PathParameter_MarshalJSON p
  = match PathParameter_Style p with
    | None => Done (object_of constPathParameter_members)
    | Some (PathParameterStyle_of st) =>
        if PathParameterStyle_known st
        then Done (object_of (constPathParameter_members +:+ ","
                              +:+ quote "style" +:+ ":" +:+ quote st))
        else Failed (MarshalerError "*openapi3.PathParameterStyle"
                       (errors_New ("unexpected PathParameterStyle value: "
                                    +:+ st)))
    end.
Proof.
  destruct p as [[[st]|]]; [|reflexivity]. simpl.
  destruct (PathParameterStyle_known st) eqn:E.
  - apply PathParameterStyle_known_cases in E as [->|[->| ->]]; reflexivity.
  - unfold PathParameter_MarshalJSON, marshalUnion. simpl.
    unfold json_Marshal, json_Marshal_struct. simpl.
    unfold json_Marshal. simpl. by rewrite E.
Qed.

(** C3 (as amended): the constants of the path arm.  With the struct
    decoded, a missing [required] key refuses the arm, a missing [in] key is
    accepted, and a constant key that is present must be, byte for byte, the
    arm's literal, or the arm fails with a message that gives the literal and
    the bytes received; the encoder writes the members of the literal first,
    whatever the node holds.  (What is stated of a refusal is the error it
    returns.) *)
Theorem PathParameter_constants :
  (∀ p data mp,
     json_Unmarshal_struct "openapi3.marshalPathParameter"
       marshalPathParameter_fields data p = (mp, None) →
     (rawMap_of data !! "required" = None →
        (PathParameter_UnmarshalJSON p data).2
        = Some (errors_New "required key missing: required"))
     ∧ (∀ r v, rawMap_of data !! "required" = Some r →
          rawMap_of data !! "in" = Some v → print v ≠ quote "path" →
          (PathParameter_UnmarshalJSON p data).2
          = Some (bad_const "in" (quote "path") (print v)))
     ∧ (∀ r, rawMap_of data !! "required" = Some r →
          (∀ v, rawMap_of data !! "in" = Some v → print v = quote "path") →
          print r ≠ "true" →
          (PathParameter_UnmarshalJSON p data).2
          = Some (bad_const "required" "true" (print r)))
     ∧ (∀ r, rawMap_of data !! "required" = Some r →
          (∀ v, rawMap_of data !! "in" = Some v → print v = quote "path") →
          print r = "true" →
          PathParameter_UnmarshalJSON p data = (mp, None)))
  ∧ (∀ p b, PathParameter_MarshalJSON p = Done b →
       ∃ rest, b = "{" +:+ constPathParameter_members +:+ rest)
  ∧ (∀ p, PathParameter_Style p = None →
       PathParameter_MarshalJSON p = Done (raw_bytes constPathParameter))
  ∧ ParameterLocation_UnmarshalJSON zero
      (JObj [("in", JStr "path"); ("name", JStr "id"); ("required", JBool true)])
    = (mkParameterLocation (Some (mkPathParameter None)) None None None, None)
  ∧ PathParameter_UnmarshalJSON zero
      (JObj [("in", JStr "path"); ("required", JBool false)])
    = (zero, Some (bad_const "required" "true" "false"))
  ∧ is_Some (ParameterLocation_UnmarshalJSON zero
               (JObj [("in", JStr "path"); ("required", JBool false)])).2.
Proof.
  split; [|split; [|split; [|split; [|split]]]].
  - intros p data mp Hs. rewrite (PathParameter_UnmarshalJSON_spec _ _ _ Hs).
    split; [|split; [|split]].
    + by intros ->.
    + intros r v -> Hin Hne. by rewrite check_const_spec, Hin, decide_False.
    + intros r -> Hin Hne. rewrite check_const_spec.
      destruct (rawMap_of data !! "in") as [v|].
      * rewrite decide_True by auto. by rewrite decide_False.
      * by rewrite decide_False.
    + intros r -> Hin Heq. rewrite check_const_spec.
      destruct (rawMap_of data !! "in") as [v|].
      * rewrite decide_True by auto. by rewrite decide_True.
      * by rewrite decide_True.
  - intros p b. rewrite PathParameter_MarshalJSON_spec.
    destruct (PathParameter_Style p) as [[st]|].
    + destruct (PathParameterStyle_known st); [|done]. intros [= <-].
      eexists. unfold object_of. by rewrite !bytes_app_assoc.
    + intros [= <-]. by eexists.
  - intros p Hp. by rewrite PathParameter_MarshalJSON_spec, Hp.
  - reflexivity.
  - reflexivity.
  - by eexists.
Qed.

(** C3 as stated fails on the path arm: the constant key [required] is absent
    from the payload, and the arm is refused. *)
Lemma PathParameter_absent_required_refused :
  rawMap_of (JObj [("in", JStr "path")]) !! "required" = None
  ∧ PathParameter_UnmarshalJSON zero (JObj [("in", JStr "path")])
    = (zero, Some (errors_New "required key missing: required")).
Proof. split; reflexivity. Qed.

(** ** Union nodes *)

Lemma failed_arms_fold (outs : list (string * option error))
    (m : gmap string error) (name : string) (e : error) :
  NoDup outs.*1 →
  foldl (fun m o => match o.2 with Some e => <[o.1 := e]> m | None => m end)
        m outs !! name = Some e
  ↔ (name, Some e) ∈ outs
    ∨ (m !! name = Some e ∧ ∀ e', (name, Some e') ∉ outs).
Proof.
  revert m. induction outs as [|[n o] outs IH]; intros m Hnd.
  { simpl. split; [intros ?; right; split; [done|]; intros ? ?%elem_of_nil; done|].
    intros [?%elem_of_nil|[? _]]; done. }
  simpl in Hnd. apply NoDup_cons in Hnd as [Hn Hnd].
  assert (∀ o', (n, o') ∉ outs) as Hn'.
  { intros o' Hin. apply Hn. apply list_elem_of_fmap. by exists (n, o'). }
  simpl. rewrite IH by done. destruct o as [e0|]; simpl.
  - destruct (decide (n = name)) as [->|Hne].
    + rewrite lookup_insert_eq. split.
      * intros [Hin|[[= ->] _]]; [by apply Hn' in Hin|]. left. by left.
      * intros [Hin|[_ Hall]].
        -- apply elem_of_cons in Hin as [[= ->]|Hin]; [|by apply Hn' in Hin].
           right. split; [done|]. intros e' Hin. by apply Hn' in Hin.
        -- exfalso. apply (Hall e0). by left.
    + rewrite lookup_insert_ne by done. split.
      * intros [Hin|[Hm Hall]]; [left; by right|].
        right. split; [done|]. intros e' Hin.
        apply elem_of_cons in Hin as [[= ? ?]|Hin]; [done|]. by eapply Hall.
      * intros [Hin|[Hm Hall]].
        -- apply elem_of_cons in Hin as [[= ? ?]|Hin]; [done|]. by left.
        -- right. split; [done|]. intros e' Hin. apply (Hall e'). by right.
  - split.
    + intros [Hin|[Hm Hall]]; [left; by right|].
      right. split; [done|]. intros e' Hin.
      apply elem_of_cons in Hin as [?|Hin]; [done|]. by eapply Hall.
    + intros [Hin|[Hm Hall]].
      * apply elem_of_cons in Hin as [?|Hin]; [done|]. by left.
      * right. split; [done|]. intros e' Hin. apply (Hall e'). by right.
Qed.

(** The error map holds exactly the arms that failed, each with its error. *)
Lemma failed_arms_lookup (outs : list (string * option error)) name e :
  NoDup outs.*1 →
  failed_arms outs !! name = Some e ↔ (name, Some e) ∈ outs.
Proof.
  intros Hnd. unfold failed_arms. rewrite failed_arms_fold by done.
  rewrite lookup_empty. split; [|by left]. by intros [?|[? _]].
Qed.

Lemma ParameterLocation_UnmarshalJSON_spec p data :
  let r1 := json_Unmarshal data (ParameterLocation_PathParameter p) in
  let r2 := json_Unmarshal data (ParameterLocation_QueryParameter p) in
  let r3 := json_Unmarshal data (ParameterLocation_HeaderParameter p) in
  let r4 := json_Unmarshal data (ParameterLocation_CookieParameter p) in
  let outs := [("PathParameter", r1.2); ("QueryParameter", r2.2);
               ("HeaderParameter", r3.2); ("CookieParameter", r4.2)] in
  ParameterLocation_UnmarshalJSON p data
  = (mkParameterLocation (arm_value r1) (arm_value r2) (arm_value r3)
       (arm_value r4),
     if decide (valid_results outs = 1) then None
     else Some (oneOf_error "ParameterLocation" (valid_results outs)
                  (failed_arms outs))).
Proof.
  unfold ParameterLocation_UnmarshalJSON, oneOf_arm.
  destruct (json_Unmarshal data (ParameterLocation_PathParameter p)) as [x1 [e1|]];
  destruct (json_Unmarshal data (ParameterLocation_QueryParameter p)) as [x2 [e2|]];
  destruct (json_Unmarshal data (ParameterLocation_HeaderParameter p)) as [x3 [e3|]];
  destruct (json_Unmarshal data (ParameterLocation_CookieParameter p)) as [x4 [e4|]];
  reflexivity.
Qed.

Section UnionProperties.
Context {RO : RangeOrder} {N : Nested}.

Lemma SchemaOrRef_UnmarshalJSON_spec (s : SchemaOrRef) data :
  let r1 := json_Unmarshal data (SchemaOrRef_Schema s) in
  let r2 := json_Unmarshal data (SchemaOrRef_SchemaReference s) in
  let outs := [("Schema", r1.2); ("SchemaReference", r2.2)] in
  SchemaOrRef_UnmarshalJSON s data
  = (mkSchemaOrRef (arm_value r1) (arm_value r2),
     if decide (valid_results outs = 1) then None
     else Some (oneOf_error "SchemaOrRef" (valid_results outs)
                  (failed_arms outs))).
Proof.
  unfold SchemaOrRef_UnmarshalJSON, oneOf_arm.
  destruct (json_Unmarshal data (SchemaOrRef_Schema s)) as [x1 [e1|]];
  destruct (json_Unmarshal data (SchemaOrRef_SchemaReference s)) as [x2 [e2|]];
  reflexivity.
Qed.

(** C2 (as amended): a union node tries every arm on the payload, whatever
    the earlier arms did: each arm's field ends up holding what that arm
    decoded, or nil when that arm failed.  The decoding succeeds exactly when
    one arm accepted.  Otherwise the error gives the number of arms that
    accepted and, keyed by arm name, the error of every arm that failed; the
    arms that accepted are not listed. *)
Theorem oneOf_exactly_one :
  (∀ (p : ParameterLocation) data,
     let r1 := json_Unmarshal data (ParameterLocation_PathParameter p) in
     let r2 := json_Unmarshal data (ParameterLocation_QueryParameter p) in
     let r3 := json_Unmarshal data (ParameterLocation_HeaderParameter p) in
     let r4 := json_Unmarshal data (ParameterLocation_CookieParameter p) in
     let outs := [("PathParameter", r1.2); ("QueryParameter", r2.2);
                  ("HeaderParameter", r3.2); ("CookieParameter", r4.2)] in
     (ParameterLocation_UnmarshalJSON p data).1
     = mkParameterLocation (arm_value r1) (arm_value r2) (arm_value r3)
         (arm_value r4)
     ∧ ((ParameterLocation_UnmarshalJSON p data).2 = None
        ↔ valid_results outs = 1)
     ∧ (valid_results outs ≠ 1 →
        (ParameterLocation_UnmarshalJSON p data).2
        = Some (oneOf_error "ParameterLocation" (valid_results outs)
                  (failed_arms outs)))
     ∧ (∀ name e, failed_arms outs !! name = Some e ↔ (name, Some e) ∈ outs))
  ∧ (∀ (s : SchemaOrRef) data,
       let r1 := json_Unmarshal data (SchemaOrRef_Schema s) in
       let r2 := json_Unmarshal data (SchemaOrRef_SchemaReference s) in
       let outs := [("Schema", r1.2); ("SchemaReference", r2.2)] in
       (SchemaOrRef_UnmarshalJSON s data).1
       = mkSchemaOrRef (arm_value r1) (arm_value r2)
       ∧ ((SchemaOrRef_UnmarshalJSON s data).2 = None
          ↔ valid_results outs = 1)
       ∧ (valid_results outs ≠ 1 →
          (SchemaOrRef_UnmarshalJSON s data).2
          = Some (oneOf_error "SchemaOrRef" (valid_results outs)
                    (failed_arms outs)))
       ∧ (∀ name e, failed_arms outs !! name = Some e ↔ (name, Some e) ∈ outs))
  ∧ (∀ typ n (errs : gmap string error),
       Error (oneOf_error typ n errs)
       = "oneOf constraint failed for " +:+ typ +:+ " with " +:+ fmt_d n
         +:+ " valid results: map["
         +:+ join " " (map (fun kv => kv.1 +:+ ":" +:+ Error kv.2)
                         (sorted_members errs))
         +:+ "]").
Proof.
  split; [|split].
  - intros p data r1 r2 r3 r4 outs.
    pose proof (ParameterLocation_UnmarshalJSON_spec p data) as H.
    cbv zeta in H. fold r1 r2 r3 r4 in H. fold outs in H. rewrite H.
    cbn [fst snd]. clear H.
    split; [done|]. split; [|split].
    + destruct (decide (valid_results outs = 1)); naive_solver.
    + intros Hne. by rewrite decide_False.
    + intros name e. apply failed_arms_lookup. subst outs. simpl.
      by apply (bool_decide_unpack _).
  - intros s data r1 r2 outs.
    pose proof (SchemaOrRef_UnmarshalJSON_spec s data) as H.
    cbv zeta in H. fold r1 r2 in H. fold outs in H. rewrite H.
    cbn [fst snd]. clear H.
    split; [done|]. split; [|split].
    + destruct (decide (valid_results outs = 1)); naive_solver.
    + intros Hne. by rewrite decide_False.
    + intros name e. apply failed_arms_lookup. subst outs. simpl.
      by apply (bool_decide_unpack _).
  - intros typ n errs. reflexivity.
Qed.

End UnionProperties.

(** C2 as stated fails: on the payload [{}] three arms of the parameter
    location accept and the error lists the path arm alone; the arms that
    accepted, such as the query arm, do not occur in it. *)
Lemma ParameterLocation_error_lists_failures_only :
  (json_Unmarshal (JObj []) (None : option QueryParameter)).2 = None
  ∧ (Error <$> (ParameterLocation_UnmarshalJSON zero (JObj [])).2)
    = Some ("oneOf constraint failed for ParameterLocation with 3 valid results: "
            +:+ "map[PathParameter:required key missing: required]")
  ∧ (contains "QueryParameter" <$>
       (Error <$> (ParameterLocation_UnmarshalJSON zero (JObj [])).2))
    = Some false.
Proof. split; [reflexivity|]. split; vm_compute; reflexivity. Qed.

(** ** The bucket loop *)

Lemma elem_of_rangeKeys `{RangeOrder} (m : gmap string json) key :
  key ∈ rangeKeys m ↔ is_Some (m !! key).
Proof.
  rewrite rangeKeys_perm, list_elem_of_fmap. split.
  - intros ([k v] & -> & Hin). apply elem_of_map_to_list in Hin. by eexists.
  - intros [v Hv]. exists (key, v). split; [done|]. by apply elem_of_map_to_list.
Qed.


Lemma bucket_writes_none keys entries m :
  existsb regexX_MatchString keys = false → bucket_writes keys entries m = m.
Proof.
  revert m. induction keys as [|key keys IH]; intros m; [done|].
  simpl. intros [Hk Hks]%orb_false_iff.
  unfold bucket_writes in *. simpl. rewrite Hk. by apply IH.
Qed.

Lemma bucket_deletes_none keys rawMap :
  existsb regexX_MatchString keys = false → bucket_deletes keys rawMap = rawMap.
Proof.
  revert rawMap. induction keys as [|key keys IH]; intros m; [done|].
  simpl. intros [Hk Hks]%orb_false_iff.
  unfold bucket_deletes in *. simpl. rewrite Hk. by apply IH.
Qed.

Lemma json_nested_ind (P : json → Prop) :
  P JNull → (∀ b, P (JBool b)) → (∀ lit, P (JNum lit)) → (∀ s, P (JStr s)) →
  (∀ l, Forall P l → P (JArr l)) →
  (∀ kvs, Forall (fun kv => P kv.2) kvs → P (JObj kvs)) →
  ∀ j, P j.
Proof.
  intros Hnull Hbool Hnum Hstr Harr Hobj. fix IH 1.
  intros [|b|lit|s|l|kvs]; [done..| |].
  - apply Harr. induction l as [|x l IHl]; constructor; [apply IH|apply IHl].
  - apply Hobj.
    induction kvs as [|[k v] kvs IHk]; constructor; [apply IH|apply IHk].
Qed.

(** The error of a number is an [*json.UnmarshalTypeError] for float64. *)
Lemma number_error_kind v e :
  number_error v = Some e →
  ∃ lit, e = UnmarshalTypeError ("number " +:+ lit) "float64"
               EmptyString EmptyString.
Proof.
  revert e. induction v as [| | lit | |l IH|kvs IH] using json_nested_ind;
    intros e; try done.
  - simpl. destruct (ParseFloat lit); [done|]. intros [= <-]. by eexists.
  - simpl. induction IH as [|x l Hx _ IHl]; [done|].
    destruct (number_error x) as [e'|] eqn:Hx'.
    + intros [= <-]. by apply Hx.
    + apply IHl.
  - simpl. induction IH as [|[k x] kvs Hx _ IHl]; [done|].
    simpl in *. destruct (number_error x) as [e'|] eqn:Hx'.
    + intros [= <-]. by apply Hx.
    + apply IHl.
Qed.

Lemma interface_value_fits (v x : json) :
  number_error v = None → interface_value v x = canon v.
Proof.
  intros Hv. destruct v as [|b|lit|s|l|kvs]; try done.
  simpl in *. by destruct (ParseFloat lit).
Qed.

Lemma interface_Unmarshal_fits (v x : json) :
  number_error v = None → json_Unmarshal v x = (canon v, None).
Proof. intros Hv. simpl. by rewrite Hv, interface_value_fits. Qed.

Lemma bucketX_loop_error keys entries mapOfAnything (σ : mapstore) rawMap :
  (bucketX_loop keys entries mapOfAnything σ rawMap).2
  = bucket_error keys entries.
Proof.
  revert mapOfAnything σ rawMap.
  induction keys as [|key keys IH]; intros b σ rawMap; [done|].
  cbn [bucketX_loop bucket_error]. unfold bucketX_turn.
  destruct (regexX_MatchString key) eqn:Hk; [|apply IH].
  destruct (match b with Some l => (l, σ) | None => make_map σ end) as [l σ0].
  change (json_Unmarshal (default JNull (entries !! key)) (zero : json))
    with (interface_value (default JNull (entries !! key)) JNull,
          number_error (default JNull (entries !! key))).
  cbv iota beta.
  destruct (number_error (default JNull (entries !! key))); [done|]. apply IH.
Qed.

Lemma bucket_error_None keys entries :
  bucket_error keys entries = None
  ↔ ∀ key, key ∈ keys → regexX_MatchString key = true →
           number_error (default JNull (entries !! key)) = None.
Proof.
  induction keys as [|k keys IH]; simpl.
  { split; [|done]. by intros _ key ?%elem_of_nil. }
  destruct (regexX_MatchString k) eqn:Hk.
  - destruct (number_error (default JNull (entries !! k))) eqn:Hn.
    + split; [done|]. intros H. rewrite H in Hn; [done|by left|done].
    + rewrite IH. split.
      * intros H key [->|Hin]%elem_of_cons; [done|by apply H].
      * intros H key Hin. apply H. by right.
  - rewrite IH. split.
    + intros H key [->|Hin]%elem_of_cons; [congruence|by apply H].
    + intros H key Hin. apply H. by right.
Qed.

Lemma bucket_error_Some keys entries e :
  bucket_error keys entries = Some e →
  ∃ key, key ∈ keys ∧ regexX_MatchString key = true
         ∧ number_error (default JNull (entries !! key)) = Some e.
Proof.
  induction keys as [|k keys IH]; simpl; [done|].
  destruct (regexX_MatchString k) eqn:Hk.
  - destruct (number_error (default JNull (entries !! k))) eqn:Hn.
    + intros [= ->]. exists k. split; [by left|done].
    + intros (key & Hin & H)%IH. exists key. split; [by right|done].
  - intros (key & Hin & H)%IH. exists key. split; [by right|done].
Qed.

Lemma range_error_None `{RangeOrder} (rawMap : gmap string json) :
  range_error rawMap = None ↔ bucket_decodes rawMap.
Proof.
  unfold range_error, bucket_decodes. rewrite bucket_error_None. split.
  - intros H0 key v Hv Hk.
    specialize (H0 key (proj2 (elem_of_rangeKeys _ _) (mk_is_Some _ _ Hv)) Hk).
    by rewrite Hv in H0.
  - intros H0 key [v Hv]%elem_of_rangeKeys Hk. rewrite Hv. simpl. eauto.
Qed.

Lemma range_error_Some `{RangeOrder} (rawMap : gmap string json) e :
  range_error rawMap = Some e →
  ∃ key v, rawMap !! key = Some v ∧ regexX_MatchString key = true
           ∧ number_error v = Some e.
Proof.
  intros (key & [v Hv]%elem_of_rangeKeys & Hk & He)%bucket_error_Some.
  exists key, v. by rewrite Hv in He.
Qed.

Lemma range_bucketX_error `{RangeOrder} (rawMap : gmap string json)
    mapOfAnything (σ : mapstore) :
  (range_bucketX rawMap mapOfAnything σ).2 = range_error rawMap.
Proof. apply bucketX_loop_error. Qed.

Lemma bucketX_loop_spec keys entries mapOfAnything (σ : mapstore) rawMap :
  bucket_error keys entries = None →
  bucketX_loop keys entries mapOfAnything σ rawMap
  = if existsb regexX_MatchString keys then
      let '(l, σ0) :=
        match mapOfAnything with
        | None => make_map σ
        | Some l => (l, σ)
        end in
      (Some l,
       <[l := bucket_writes keys entries (default ∅ (σ0 !! l))]> σ0,
       bucket_deletes keys rawMap, None)
    else (mapOfAnything, σ, rawMap, None).
Proof.
  revert mapOfAnything σ rawMap.
  induction keys as [|key keys IH]; intros b σ rawMap; [done|].
  simpl. unfold bucketX_turn.
  destruct (regexX_MatchString key) eqn:Hk; simpl; [|apply IH].
  destruct (number_error (default JNull (entries !! key))) eqn:Hn; [done|].
  intros Herr. rewrite (interface_value_fits _ _ Hn).
  pose proof (fun b σ rawMap => IH b σ rawMap Herr) as IH'.
  clear IH. rename IH' into IH.
  assert (∀ l (σ0 : mapstore),
    bucketX_loop keys entries (Some l)
      (map_assign l key (canon (default JNull (entries !! key))) σ0)
      (delete key rawMap)
    = (Some l,
       <[l := bucket_writes keys entries
                (<[key := canon (default JNull (entries !! key))]>
                   (default ∅ (σ0 !! l)))]> σ0,
       bucket_deletes keys (delete key rawMap), None)) as Hstep.
  { intros l σ0. rewrite IH. unfold map_assign.
    destruct (existsb regexX_MatchString keys) eqn:Hks.
    - rewrite lookup_insert_eq. simpl. by rewrite insert_insert_eq.
    - by rewrite bucket_writes_none, bucket_deletes_none. }
  destruct b as [l|]; simpl; apply Hstep.
Qed.

Lemma bucket_deletes_lookup keys rawMap key :
  bucket_deletes keys rawMap !! key
  = if regexX_MatchString key && bool_decide (key ∈ keys) then None
    else rawMap !! key.
Proof.
  revert rawMap. induction keys as [|k keys IH]; intros m.
  { simpl. by rewrite andb_false_r. }
  unfold bucket_deletes in *. simpl. rewrite IH.
  destruct (regexX_MatchString key) eqn:Hkey; simpl.
  - destruct (decide (key = k)) as [->|Hne].
    + rewrite Hkey, (bool_decide_true (k ∈ k :: keys)) by (by left).
      case_bool_decide; [done|]. apply lookup_delete_eq.
    + rewrite (bool_decide_ext (key ∈ k :: keys) (key ∈ keys))
        by (rewrite elem_of_cons; split; [by intros [?|?]|by right]).
      case_bool_decide; [done|].
      destruct (regexX_MatchString k); [|done]. by rewrite lookup_delete_ne.
  - destruct (regexX_MatchString k) eqn:Hk; [|done].
    rewrite lookup_delete_ne by congruence. done.
Qed.

Lemma bucket_writes_lookup keys entries m key :
  bucket_writes keys entries m !! key
  = if regexX_MatchString key && bool_decide (key ∈ keys)
    then Some (canon (default JNull (entries !! key)))
    else m !! key.
Proof.
  revert m. induction keys as [|k keys IH]; intros m.
  { simpl. by rewrite andb_false_r. }
  unfold bucket_writes in *. simpl. rewrite IH.
  destruct (regexX_MatchString key) eqn:Hkey; simpl.
  - destruct (decide (key = k)) as [->|Hne].
    + rewrite Hkey, (bool_decide_true (k ∈ k :: keys)) by (by left).
      case_bool_decide; [done|]. apply lookup_insert_eq.
    + rewrite (bool_decide_ext (key ∈ k :: keys) (key ∈ keys))
        by (rewrite elem_of_cons; split; [by intros [?|?]|by right]).
      case_bool_decide; [done|].
      destruct (regexX_MatchString k); [|done]. by rewrite lookup_insert_ne.
  - destruct (regexX_MatchString k) eqn:Hk; [|done].
    rewrite lookup_insert_ne by congruence. done.
Qed.

(** After the loop over all keys, the raw map holds the members that the
    bucket did not take. *)
Lemma bucket_deletes_rangeKeys `{RangeOrder} (rawMap : gmap string json) :
  bucket_deletes (rangeKeys rawMap) rawMap
  = filter (fun kv => regexX_MatchString kv.1 = false) rawMap.
Proof.
  apply map_eq. intros key. rewrite bucket_deletes_lookup.
  destruct (regexX_MatchString key) eqn:Hk; simpl.
  - case_bool_decide as Hin.
    + symmetry. apply map_lookup_filter_None. right. intros v _. simpl. congruence.
    + rewrite elem_of_rangeKeys in Hin. apply eq_None_not_Some in Hin.
      rewrite Hin. symmetry. apply map_lookup_filter_None. by left.
  - destruct (rawMap !! key) as [v|] eqn:E.
    + symmetry. by apply map_lookup_filter_Some.
    + symmetry. apply map_lookup_filter_None. by left.
Qed.

Lemma bucket_writes_rangeKeys `{RangeOrder} (rawMap m : gmap string json) :
  bucket_writes (rangeKeys rawMap) rawMap m = extension_entries rawMap ∪ m.
Proof.
  apply map_eq. intros key. rewrite bucket_writes_lookup.
  unfold extension_entries.
  destruct (regexX_MatchString key) eqn:Hk; simpl.
  - case_bool_decide as Hin.
    + rewrite elem_of_rangeKeys in Hin. destruct Hin as [v Hv]. rewrite Hv. simpl.
      symmetry. apply lookup_union_Some_l. rewrite lookup_fmap.
      by rewrite (proj2 (map_lookup_filter_Some _ rawMap key v)).
    + rewrite elem_of_rangeKeys in Hin. apply eq_None_not_Some in Hin.
      rewrite lookup_union_r; [done|]. rewrite lookup_fmap.
      rewrite (proj2 (map_lookup_filter_None _ rawMap key)); [done|]. by left.
  - rewrite lookup_union_r; [done|]. rewrite lookup_fmap.
    rewrite (proj2 (map_lookup_filter_None _ rawMap key)); [done|].
    right. intros v _. simpl. congruence.
Qed.

Lemma existsb_rangeKeys `{RangeOrder} (rawMap : gmap string json) :
  existsb regexX_MatchString (rangeKeys rawMap) = false
  ↔ extension_entries rawMap = ∅.
Proof.
  unfold extension_entries. rewrite fmap_empty_iff. split.
  - intros Hex. apply map_empty. intros key. apply map_lookup_filter_None.
    destruct (rawMap !! key) as [v|] eqn:Hv; [|by left]. right.
    intros v' _ Hk. simpl in Hk.
    assert (existsb regexX_MatchString (rangeKeys rawMap) = true); [|congruence].
    apply existsb_exists. exists key. split; [|done].
    apply list_elem_of_In, elem_of_rangeKeys. by eexists.
  - intros He. apply not_true_is_false. intros Hex.
    apply existsb_exists in Hex as (key & Hin & Hk).
    apply list_elem_of_In, elem_of_rangeKeys in Hin as [v Hv].
    assert (filter (fun kv => regexX_MatchString kv.1 = true) rawMap !! key
            = Some v) as Hf by by apply map_lookup_filter_Some.
    by rewrite He, lookup_empty in Hf.
Qed.

(** The loop over the whole raw map. *)
Lemma range_bucketX_spec `{RangeOrder} (rawMap : gmap string json)
    mapOfAnything (σ : mapstore) :
  bucket_decodes rawMap →
  range_bucketX rawMap mapOfAnything σ
  = if decide (extension_entries rawMap = ∅) then
      (mapOfAnything, σ,
       filter (fun kv => regexX_MatchString kv.1 = false) rawMap, None)
    else
      let '(l, σ0) :=
        match mapOfAnything with
        | None => make_map σ
        | Some l => (l, σ)
        end in
      (Some l,
       <[l := extension_entries rawMap ∪ default ∅ (σ0 !! l)]> σ0,
       filter (fun kv => regexX_MatchString kv.1 = false) rawMap, None).
Proof.
  intros Hdec%range_error_None.
  unfold range_bucketX. rewrite bucketX_loop_spec by done.
  destruct (existsb _ _) eqn:Hex.
  - rewrite decide_False.
    + destruct mapOfAnything as [l|]; simpl;
        by rewrite bucket_writes_rangeKeys, bucket_deletes_rangeKeys.
    + intros He. apply existsb_rangeKeys in He. congruence.
  - rewrite decide_True by by apply existsb_rangeKeys.
    f_equal. f_equal.
    rewrite <- bucket_deletes_rangeKeys. symmetry.
    by apply bucket_deletes_none.
Qed.

(** ** Flat record nodes: shared steps *)

Lemma delete_keys_lookup knownKeys (rawMap : gmap string json) key :
  delete_keys knownKeys rawMap !! key
  = if bool_decide (key ∈ knownKeys) then None else rawMap !! key.
Proof.
  unfold delete_keys. revert rawMap.
  induction knownKeys as [|k ks IH]; intros m; simpl.
  { done. }
  rewrite IH. destruct (decide (key = k)) as [->|Hne].
  - rewrite (bool_decide_true (k ∈ k :: ks)) by (by left).
    rewrite lookup_delete_eq. by case_bool_decide.
  - rewrite (bool_decide_ext (key ∈ k :: ks) (key ∈ ks))
      by (rewrite elem_of_cons; split; [by intros [?|?]|by right]).
    by rewrite lookup_delete_ne.
Qed.

Lemma extension_entries_delete_keys knownKeys (rawMap : gmap string json) :
  Forall (fun key => regexX_MatchString key = false) knownKeys →
  extension_entries (delete_keys knownKeys rawMap) = extension_entries rawMap.
Proof.
  intros Hk. unfold extension_entries. f_equal. apply map_eq. intros key.
  rewrite !map_lookup_filter, delete_keys_lookup.
  case_bool_decide as Hin; [|done]. simpl.
  rewrite Forall_forall in Hk. apply Hk in Hin.
  destruct (rawMap !! key) as [v|]; [|done]. simpl.
  rewrite option_guard_False; [done|]. simpl. congruence.
Qed.

Lemma additional_properties_None `{RangeOrder} typ (rawMap : gmap string json) :
  additional_properties typ rawMap = None ↔ rawMap = ∅.
Proof.
  unfold additional_properties.
  destruct (size rawMap =? 0) eqn:E; simpl.
  - apply Nat.eqb_eq, map_size_empty_iff in E. done.
  - apply Nat.eqb_neq in E. split; [done|]. intros ->. by rewrite map_size_empty in E.
Qed.

Lemma additional_properties_Some `{RangeOrder} typ (rawMap : gmap string json) :
  rawMap ≠ ∅ →
  additional_properties typ rawMap
  = Some (errors_New ("additional properties not allowed in " +:+ typ +:+ ": "
                      +:+ fmt_v_strings (rangeKeys rawMap))).
Proof.
  intros Hne. unfold additional_properties.
  destruct (size rawMap =? 0) eqn:E; simpl; [|done].
  by apply Nat.eqb_eq, map_size_empty_iff in E.
Qed.

Lemma range_bucketX_after `{RangeOrder} (rawMap : gmap string json)
    mapOfAnything (σ : mapstore) :
  bucket_decodes rawMap →
  range_bucketX rawMap mapOfAnything σ
  = ((bucket_after mapOfAnything σ (extension_entries rawMap)).1,
     (bucket_after mapOfAnything σ (extension_entries rawMap)).2,
     filter (fun kv => regexX_MatchString kv.1 = false) rawMap, None).
Proof.
  intros Hdec. rewrite range_bucketX_spec by done. unfold bucket_after.
  destruct (decide _); [done|]. by destruct mapOfAnything; simpl.
Qed.

Lemma bucket_decodes_delete_keys knownKeys (rawMap : gmap string json) :
  Forall (fun key => regexX_MatchString key = false) knownKeys →
  bucket_decodes (delete_keys knownKeys rawMap) ↔ bucket_decodes rawMap.
Proof.
  intros Hk. unfold bucket_decodes. split.
  - intros H0 key v Hv Hx. apply (H0 key); [|done].
    rewrite delete_keys_lookup. case_bool_decide as Hin; [|done].
    apply (proj1 (Forall_forall _ _) Hk) in Hin. congruence.
  - intros H0 key v Hv Hx. apply (H0 key); [|done].
    rewrite delete_keys_lookup in Hv. by case_bool_decide.
Qed.

(** A part of the struct that no field setter writes is kept by the struct
    decoding. *)
Lemma unmarshal_members_preserves {S A} (pr : S → A) (fs : list (field S))
    kvs s :
  Forall (fun f => ∀ x s, pr (fset f x s) = pr s) fs →
  pr (unmarshal_members fs kvs s).1 = pr s.
Proof.
  intros Hfs. revert s. induction kvs as [|[key v] kvs IH]; intros s; [done|].
  simpl. destruct (find_field fs key) as [f|] eqn:E; [|apply IH].
  apply find_field_elem_of in E.
  pose proof (proj1 (Forall_forall _ _) Hfs f E) as Hf.
  destruct (json_Unmarshal v (fget f s)) as [x [e|]]; simpl.
  - apply Hf.
  - rewrite IH. apply Hf.
Qed.

Lemma decode_members_preserves {S A} (pr : S → A) name (fs : list (field S))
    kvs s sv :
  Forall (fun f => ∀ x s, pr (fset f x s) = pr s) fs →
  pr (decode_members name fs kvs s sv).1 = pr s.
Proof.
  intros Hfs. revert s sv.
  induction kvs as [|[key v] kvs IH]; intros s sv; [done|].
  simpl. destruct (find_field fs key) as [f|] eqn:E; [|apply IH].
  apply find_field_elem_of in E.
  pose proof (proj1 (Forall_forall _ _) Hfs f E) as Hf.
  destruct (json_Unmarshal v (fget f s)) as [x [e|]]; simpl.
  - destruct (saved v); simpl; [rewrite IH|]; apply Hf.
  - rewrite IH. apply Hf.
Qed.

Lemma json_Unmarshal_struct_preserves {S A} (pr : S → A) typ
    (fs : list (field S)) data s :
  Forall (fun f => ∀ x s, pr (fset f x s) = pr s) fs →
  pr (json_Unmarshal_struct typ fs data s).1 = pr s.
Proof.
  intros Hfs. destruct data; try done. by apply decode_members_preserves.
Qed.

Lemma unconsumed_lookup knownKeys (rawMap : gmap string json) key :
  unconsumed knownKeys rawMap !! key
  = if regexX_MatchString key then None
    else if bool_decide (key ∈ knownKeys) then None
    else rawMap !! key.
Proof.
  unfold unconsumed. rewrite map_lookup_filter, delete_keys_lookup.
  destruct (regexX_MatchString key) eqn:Hk.
  - case_bool_decide; [done|]. destruct (rawMap !! key); [|done]. simpl.
    by rewrite option_guard_False by (simpl; congruence).
  - case_bool_decide; [done|]. destruct (rawMap !! key); [|done]. simpl.
    by rewrite option_guard_True.
Qed.



Lemma find_field_None_name {S} (fs : list (field S)) key :
  find_field fs key = None → key ∉ fname <$> fs.
Proof.
  unfold find_field. destruct (find _ fs) as [f|] eqn:E; [done|]. intros _.
  intros (f & -> & Hin)%list_elem_of_fmap.
  apply list_elem_of_In in Hin.
  pose proof (find_none _ _ E f Hin) as Hf. simpl in Hf.
  by rewrite String.eqb_refl in Hf.
Qed.

Lemma to_map_lookup_None {A} (kvs : list (string * A)) key :
  to_map kvs !! key = None ↔ key ∉ kvs.*1.
Proof.
  unfold to_map. rewrite <- not_elem_of_list_to_map.
  by rewrite fmap_reverse, elem_of_reverse.
Qed.




Lemma rangeKeys_singleton `{RangeOrder} key (v : json) :
  rangeKeys {[key := v]} = [key].
Proof.
  apply Permutation_singleton_r. rewrite rangeKeys_perm.
  by rewrite map_to_list_singleton.
Qed.

Lemma to_map_cons_lookup {A} (kvs : list (string * A)) k v key :
  to_map ((k, v) :: kvs) !! key
  = match to_map kvs !! key with
    | Some x => Some x
    | None => if decide (k = key) then Some v else None
    end.
Proof.
  unfold to_map. rewrite reverse_cons, list_to_map_app. simpl.
  rewrite lookup_union. destruct (list_to_map (reverse kvs) !! key) as [x|].
  - by destruct (<[k:=v]> ∅ !! key).
  - rewrite insert_empty. destruct (decide (k = key)) as [->|Hne].
    + by rewrite lookup_singleton_eq.
    + by rewrite lookup_singleton_ne.
Qed.

Lemma regexX_cases key :
  regexX_MatchString key = true ↔ ∃ t, key = String "x" (String "-" t).
Proof.
  unfold regexX_MatchString. split.
  - destruct key as [|c1 [|c2 t]]; cbn [String.prefix]; try done.
    + by destruct (ascii_dec "x" c1).
    + destruct (ascii_dec "x" c1) as [<-|]; [|done].
      destruct (ascii_dec "-" c2) as [<-|]; [|done].
      intros _. by eexists.
  - intros [t ->]. cbn [String.prefix].
    destruct (ascii_dec "x" "x"); [|done].
    destruct (ascii_dec "-" "-"); [|done]. by destruct t.
Qed.

Lemma marshal_members_app {S} (fs1 fs2 : list (field S)) s :
  marshal_members (fs1 ++ fs2) s
  = match marshal_members fs1 s with
    | Done bs1 =>
        match marshal_members fs2 s with
        | Done bs2 => Done (bs1 ++ bs2)
        | Failed e => Failed e
        | Panicked => Panicked
        end
    | Failed e => Failed e
    | Panicked => Panicked
    end.
Proof.
  induction fs1 as [|f fs1 IH]; simpl.
  { by destruct (marshal_members fs2 s). }
  destruct (fomitempty f && isEmptyValue (fget f s)); [done|].
  destruct (json_Marshal (fget f s)) as [b| |]; [|done..].
  rewrite IH. destruct (marshal_members fs1 s) as [bs1| |]; [|done..].
  by destruct (marshal_members fs2 s).
Qed.

(** Every member written for a list of fields carries the name of one of
    them. *)
Lemma marshal_members_names {S} (fs : list (field S)) s bs :
  marshal_members fs s = Done bs →
  Forall (fun b => ∃ f b', f ∈ fs ∧ b = quote (fname f) +:+ ":" +:+ b') bs.
Proof.
  revert bs. induction fs as [|f fs IH]; intros bs; simpl.
  { intros [= <-]. constructor. }
  assert (∀ bs', Forall (fun b => ∃ f0 b', f0 ∈ fs ∧ b = quote (fname f0) +:+ ":" +:+ b') bs' →
                 Forall (fun b => ∃ f0 b', f0 ∈ f :: fs ∧ b = quote (fname f0) +:+ ":" +:+ b') bs') as Hw.
  { intros bs' Hbs. eapply Forall_impl; [exact Hbs|].
    intros b (f0 & b' & Hin & ->).
    exists f0, b'. split; [by right|done]. }
  destruct (fomitempty f && isEmptyValue (fget f s)).
  { intros H. by apply Hw, IH. }
  destruct (json_Marshal (fget f s)) as [b| |]; [|done..].
  destruct (marshal_members fs s) as [bs'| |]; [|done..].
  intros [= <-]. constructor; [|by apply Hw, IH].
  exists f, b. split; [by left|done].
Qed.

Lemma marshal_members_first {S} (f : field S) fs s bs :
  fomitempty f = false →
  marshal_members (f :: fs) s = Done bs →
  ∃ b bs', bs = (quote (fname f) +:+ ":" +:+ b) :: bs'.
Proof.
  intros Ho. simpl. rewrite Ho. simpl.
  destruct (json_Marshal (fget f s)) as [b| |]; [|done..].
  destruct (marshal_members fs s) as [bs'| |]; [|done..].
  intros [= <-]. by eexists _, _.
Qed.

Lemma loop_cons result isObject m maps :
  marshalUnion_loop result isObject (m :: maps)
  = match json_Marshal_iface m with
    | Failed err => Failed err
    | Panicked => Panicked
    | Done j =>
        match marshalUnion_step result isObject j with
        | Continue result' isObject' =>
            marshalUnion_loop result' isObject' maps
        | Return e => Failed e
        | IndexPanic => Panicked
        end
    end.
Proof. reflexivity. Qed.

Lemma bytes_set_last_app c P rest :
  rest ≠ EmptyString →
  bytes_set_last c (P +:+ rest) = P +:+ bytes_set_last c rest.
Proof.
  intros Hr. induction P as [|a P IH]; [done|].
  rewrite !bytes_app_cons. simpl. rewrite IH.
  destruct (P +:+ rest) eqn:E; [|done].
  destruct P; [by rewrite bytes_app_nil_l in E|by rewrite bytes_app_cons in E].
Qed.

Lemma bytes_set_last_nonempty c s :
  s ≠ EmptyString → bytes_set_last c s ≠ EmptyString.
Proof. destruct s as [|a [|b s]]; done. Qed.

Lemma bytes_app_nonempty_l s t : s ≠ EmptyString → s +:+ t ≠ EmptyString.
Proof. by destruct s. Qed.

(** What has been written before the last byte of the accumulator stays at
    the front of the result. *)
Lemma loop_prefix P rest maps b :
  P ≠ EmptyString → rest ≠ EmptyString →
  marshalUnion_loop (P +:+ rest) true maps = Done b →
  ∃ rest', b = P +:+ rest'.
Proof.
  intros HP. revert rest. induction maps as [|m maps IH]; intros rest Hr.
  { simpl. destruct (_ =? 1); intros [= <-]; [|by eexists].
    exists (rest +:+ "}"). by rewrite bytes_app_assoc. }
  simpl. destruct (json_Marshal_iface m) as [j| |]; [|done..].
  assert ((String.length (P +:+ rest) =? 1) = false) as Hlen.
  { apply Nat.eqb_neq. rewrite bytes_length_app.
    destruct P; [done|]. destruct rest; [done|]. simpl. lia. }
  assert ((1 <? String.length (P +:+ rest)) = true) as Hlt.
  { apply Nat.ltb_lt. rewrite bytes_length_app.
    destruct P; [done|]. destruct rest; [done|]. simpl. lia. }
  unfold marshalUnion_step.
  destruct (String.eqb j "{}"); [by apply IH|].
  destruct (String.eqb j "null"); [by apply IH|].
  destruct j as [|j0 t]; [done|].
  destruct (Ascii.eqb j0 "{"); simpl negb; cbv iota.
  - rewrite Hlt. simpl bytes_tail.
    rewrite bytes_set_last_app, bytes_app_assoc by done.
    apply IH. by apply bytes_app_nonempty_l, bytes_set_last_nonempty.
  - by rewrite Hlen.
Qed.

Section FlatProperties.
Context {RO : RangeOrder} {N : Nested}.

Lemma marshalSpec_keeps_MapOfAnything :
  Forall (fun f : field marshalSpec =>
            ∀ x s, Spec_MapOfAnything (fset f x s) = Spec_MapOfAnything s)
         marshalSpec_fields.
Proof. repeat constructor; by intros x []. Qed.

Lemma knownKeysSpec_not_extension :
  Forall (fun key => regexX_MatchString key = false) knownKeysSpec.
Proof. repeat constructor. Qed.

(** The steps of [Spec.UnmarshalJSON] once the struct is decoded, when the
    bucket loop does not fail. *)
Lemma Spec_UnmarshalJSON_spec (s : Spec) data (σ : mapstore) ms :
  json_Unmarshal_struct "openapi3.marshalSpec" marshalSpec_fields data s
  = (ms, None) →
  bucket_decodes (rawMap_of data) →
  Spec_UnmarshalJSON s data σ
  = match require_keys requireKeysSpec (rawMap_of data) with
    | Some e => (s, σ, Some e)
    | None =>
        let after :=
          bucket_after (Spec_MapOfAnything s) σ
            (extension_entries (rawMap_of data)) in
        match additional_properties "Spec"
                (unconsumed knownKeysSpec (rawMap_of data)) with
        | Some e => (s, after.2, Some e)
        | None => (set_Spec_MapOfAnything after.1 ms, after.2, None)
        end
    end.
Proof.
  intros Hs Hdec. unfold Spec_UnmarshalJSON. rewrite Hs.
  destruct (require_keys _ _); [done|].
  rewrite range_bucketX_after
    by (by apply bucket_decodes_delete_keys;
          [apply knownKeysSpec_not_extension|]).
  rewrite (extension_entries_delete_keys _ _ knownKeysSpec_not_extension).
  pose proof (json_Unmarshal_struct_preserves (S := marshalSpec)
                Spec_MapOfAnything "openapi3.marshalSpec" _ data s
                marshalSpec_keeps_MapOfAnything) as Hm.
  unfold marshalSpec in *. rewrite Hs in Hm. simpl in Hm. rewrite Hm. done.
Qed.

(** The error of [Spec.UnmarshalJSON] once the struct is decoded; on an
    error the receiver is returned as it was. *)
Lemma Spec_UnmarshalJSON_error (s : Spec) data (σ : mapstore) ms :
  json_Unmarshal_struct "openapi3.marshalSpec" marshalSpec_fields data s
  = (ms, None) →
  (Spec_UnmarshalJSON s data σ).2
  = match require_keys requireKeysSpec (rawMap_of data) with
    | Some e => Some e
    | None =>
        match range_error (delete_keys knownKeysSpec (rawMap_of data)) with
        | Some e => Some e
        | None => additional_properties "Spec"
                    (unconsumed knownKeysSpec (rawMap_of data))
        end
    end.
Proof.
  intros Hs. unfold Spec_UnmarshalJSON. rewrite Hs.
  destruct (require_keys _ _); [done|].
  destruct (range_error _) as [e|] eqn:He.
  - pose proof (range_bucketX_error
                  (delete_keys knownKeysSpec (rawMap_of data))
                  (Spec_MapOfAnything ms) σ) as H.
    rewrite He in H.
    destruct (range_bucketX _ _ _) as [[[b' σ'] rest] err]. simpl in H.
    by subst err.
  - apply range_error_None in He. rewrite range_bucketX_after by done.
    unfold unconsumed. by destruct (additional_properties _ _).
Qed.

Lemma marshalParameter_keeps_unexported :
  Forall (fun f : field marshalParameter =>
            ∀ x p,
              (Parameter_SchemaXORContent (fset f x p),
               Parameter_Location (fset f x p),
               Parameter_MapOfAnything (fset f x p))
              = (Parameter_SchemaXORContent p, Parameter_Location p,
                 Parameter_MapOfAnything p))
         marshalParameter_fields.
Proof. repeat constructor; by intros x []. Qed.

Lemma knownKeysParameter_not_extension :
  Forall (fun key => regexX_MatchString key = false) knownKeysParameter.
Proof. repeat constructor. Qed.

Lemma present_null_Example_MapOfAnything mp rawMap :
  Parameter_MapOfAnything (present_null_Example mp rawMap)
  = Parameter_MapOfAnything mp.
Proof.
  unfold present_null_Example.
  destruct (Parameter_Example mp); [done|].
  destruct (rawMap !! "example"); [|done]. by destruct mp.
Qed.

(** The steps of [Parameter.UnmarshalJSON] once the struct and the two
    embedded unions are decoded, when the bucket loop does not fail. *)
Lemma Parameter_UnmarshalJSON_spec (p : Parameter_) data (σ : mapstore) mp x l :
  json_Unmarshal_struct "openapi3.marshalParameter" marshalParameter_fields
    data p = (mp, None) →
  json_Unmarshal data (Parameter_SchemaXORContent p) = (x, None) →
  json_Unmarshal data (Parameter_Location p) = (l, None) →
  bucket_decodes (rawMap_of data) →
  Parameter_UnmarshalJSON p data σ
  = match require_keys requireKeysParameter (rawMap_of data) with
    | Some e => (p, σ, Some e)
    | None =>
        let after :=
          bucket_after (Parameter_MapOfAnything p) σ
            (extension_entries (rawMap_of data)) in
        match additional_properties "Parameter"
                (unconsumed knownKeysParameter (rawMap_of data)) with
        | Some e => (p, after.2, Some e)
        | None =>
            (set_Parameter_MapOfAnything after.1
               (present_null_Example
                  (set_Parameter_Location l
                     (set_Parameter_SchemaXORContent x mp))
                  (rawMap_of data)),
             after.2, None)
        end
    end.
Proof.
  intros Hs Hx Hl Hdec. unfold Parameter_UnmarshalJSON.
  pose proof (json_Unmarshal_struct_preserves (S := marshalParameter)
                (fun p => (Parameter_SchemaXORContent p, Parameter_Location p,
                           Parameter_MapOfAnything p))
                "openapi3.marshalParameter" _ data p
                marshalParameter_keeps_unexported) as Hm.
  unfold marshalParameter in *. rewrite Hs in *. simpl in Hm.
  injection Hm as Hm1 Hm2 Hm3. rewrite Hm1, Hx.
  assert (Parameter_Location (set_Parameter_SchemaXORContent x mp)
          = Parameter_Location p) as -> by (by destruct mp).
  rewrite Hl.
  destruct (require_keys _ _); [done|].
  rewrite range_bucketX_after
    by (by apply bucket_decodes_delete_keys;
          [apply knownKeysParameter_not_extension|]).
  rewrite (extension_entries_delete_keys _ _ knownKeysParameter_not_extension).
  rewrite present_null_Example_MapOfAnything.
  assert (Parameter_MapOfAnything
            (set_Parameter_Location l (set_Parameter_SchemaXORContent x mp))
          = Parameter_MapOfAnything p) as -> by (by destruct mp).
  done.
Qed.

(** The error of [Parameter.UnmarshalJSON] once the struct and the two
    embedded unions are decoded. *)
Lemma Parameter_UnmarshalJSON_error (p : Parameter_) data (σ : mapstore)
    mp x l :
  json_Unmarshal_struct "openapi3.marshalParameter" marshalParameter_fields
    data p = (mp, None) →
  json_Unmarshal data (Parameter_SchemaXORContent p) = (x, None) →
  json_Unmarshal data (Parameter_Location p) = (l, None) →
  (Parameter_UnmarshalJSON p data σ).2
  = match require_keys requireKeysParameter (rawMap_of data) with
    | Some e => Some e
    | None =>
        match range_error
                (delete_keys knownKeysParameter (rawMap_of data)) with
        | Some e => Some e
        | None => additional_properties "Parameter"
                    (unconsumed knownKeysParameter (rawMap_of data))
        end
    end.
Proof.
  intros Hs Hx Hl. unfold Parameter_UnmarshalJSON.
  pose proof (json_Unmarshal_struct_preserves (S := marshalParameter)
                (fun p => (Parameter_SchemaXORContent p, Parameter_Location p,
                           Parameter_MapOfAnything p))
                "openapi3.marshalParameter" _ data p
                marshalParameter_keeps_unexported) as Hm.
  unfold marshalParameter in *. rewrite Hs in *. simpl in Hm.
  injection Hm as Hm1 Hm2 Hm3. rewrite Hm1, Hx.
  assert (Parameter_Location (set_Parameter_SchemaXORContent x mp)
          = Parameter_Location p) as -> by (by destruct mp).
  rewrite Hl.
  destruct (require_keys _ _); [done|].
  destruct (range_error _) as [e|] eqn:He.
  - match goal with
    | |- context [range_bucketX ?m ?b ?σ0] =>
        pose proof (range_bucketX_error m b σ0) as H;
        destruct (range_bucketX m b σ0) as [[[b' σ'] rest] err]
    end.
    rewrite He in H. simpl in H. by subst err.
  - apply range_error_None in He. rewrite range_bucketX_after by done.
    unfold unconsumed. by destruct (additional_properties _ _).
Qed.

(** The errors that end [Parameter.UnmarshalJSON] before the required keys
    are looked at. *)
Lemma Parameter_UnmarshalJSON_early (p : Parameter_) data (σ : mapstore) :
  (∀ mp e,
     json_Unmarshal_struct "openapi3.marshalParameter" marshalParameter_fields
       data p = (mp, Some e) →
     Parameter_UnmarshalJSON p data σ = (p, σ, Some e))
  ∧ (∀ mp x e,
       json_Unmarshal_struct "openapi3.marshalParameter"
         marshalParameter_fields data p = (mp, None) →
       json_Unmarshal data (Parameter_SchemaXORContent p) = (x, Some e) →
       Parameter_UnmarshalJSON p data σ = (p, σ, Some e))
  ∧ (∀ mp x l e,
       json_Unmarshal_struct "openapi3.marshalParameter"
         marshalParameter_fields data p = (mp, None) →
       json_Unmarshal data (Parameter_SchemaXORContent p) = (x, None) →
       json_Unmarshal data (Parameter_Location p) = (l, Some e) →
       Parameter_UnmarshalJSON p data σ = (p, σ, Some e)).
Proof.
  pose proof (json_Unmarshal_struct_preserves (S := marshalParameter)
                (fun p => (Parameter_SchemaXORContent p, Parameter_Location p,
                           Parameter_MapOfAnything p))
                "openapi3.marshalParameter" _ data p
                marshalParameter_keeps_unexported) as Hm.
  unfold marshalParameter in *.
  split; [|split].
  - intros mp e Hs. unfold Parameter_UnmarshalJSON. unfold marshalParameter in *. by rewrite Hs.
  - intros mp x e Hs Hx. unfold Parameter_UnmarshalJSON.
    unfold marshalParameter in *. rewrite Hs in *. simpl in Hm. injection Hm as Hm1 Hm2 Hm3.
    by rewrite Hm1, Hx.
  - intros mp x l e Hs Hx Hl. unfold Parameter_UnmarshalJSON.
    unfold marshalParameter in *. rewrite Hs in *. simpl in Hm. injection Hm as Hm1 Hm2 Hm3.
    rewrite Hm1, Hx.
    assert (Parameter_Location (set_Parameter_SchemaXORContent x mp)
            = Parameter_Location p) as -> by (by destruct mp).
    by rewrite Hl.
Qed.

Lemma Spec_UnmarshalJSON_struct_error (s : Spec) data (σ : mapstore) ms e :
  json_Unmarshal_struct "openapi3.marshalSpec" marshalSpec_fields data s
  = (ms, Some e) →
  Spec_UnmarshalJSON s data σ = (s, σ, Some e).
Proof. intros Hs. unfold Spec_UnmarshalJSON. by rewrite Hs. Qed.

Lemma Spec_UnmarshalJSON_decodes (s : Spec) data (σ : mapstore) :
  (Spec_UnmarshalJSON s data σ).2 = None → bucket_decodes (rawMap_of data).
Proof.
  destruct (json_Unmarshal_struct "openapi3.marshalSpec" marshalSpec_fields
              data s) as [ms [e|]] eqn:Hs.
  { by rewrite (Spec_UnmarshalJSON_struct_error _ _ _ _ _ Hs). }
  rewrite (Spec_UnmarshalJSON_error _ _ _ _ Hs).
  destruct (require_keys _ _); [done|].
  destruct (range_error _) eqn:He; [done|]. intros _.
  apply range_error_None in He.
  by apply (bucket_decodes_delete_keys _ _ knownKeysSpec_not_extension).
Qed.

Lemma Spec_UnmarshalJSON_ok (s : Spec) data (σ : mapstore) :
  (Spec_UnmarshalJSON s data σ).2 = None →
  ∃ ms,
    json_Unmarshal_struct "openapi3.marshalSpec" marshalSpec_fields data s
    = (ms, None)
    ∧ require_keys requireKeysSpec (rawMap_of data) = None
    ∧ unconsumed knownKeysSpec (rawMap_of data) = ∅.
Proof.
  intros Hok. pose proof (Spec_UnmarshalJSON_decodes _ _ _ Hok) as Hdec.
  revert Hok.
  destruct (json_Unmarshal_struct "openapi3.marshalSpec" marshalSpec_fields
              data s) as [ms [e|]] eqn:Hs.
  { by rewrite (Spec_UnmarshalJSON_struct_error _ _ _ _ _ Hs). }
  rewrite (Spec_UnmarshalJSON_spec _ _ _ _ Hs Hdec).
  destruct (require_keys _ _); [done|].
  destruct (additional_properties _ _) eqn:Ha; [done|].
  apply additional_properties_None in Ha. intros _. by exists ms.
Qed.


Lemma require_keys_first_missing requireKeys (rawMap : gmap string json) key :
  require_keys requireKeys rawMap
  = Some (errors_New ("required key missing: " +:+ key))
  ↔ first_missing requireKeys rawMap key.
Proof.
  rewrite require_keys_Some. unfold first_missing. split.
  - intros (pre & k & post & -> & Hpre & Hk & He).
    injection He as He. apply (inj (String.app _)) in He. subst k. eauto.
  - intros (pre & post & -> & Hpre & Hk). exists pre, key, post. eauto.
Qed.

Lemma additional_properties_not_required `{RangeOrder} typ
    (rawMap : gmap string json) key :
  additional_properties typ rawMap
  ≠ Some (errors_New ("required key missing: " +:+ key)).
Proof.
  unfold additional_properties. destruct (negb _); [|done]. intros [=].
Qed.

(** C4 (as amended): once the struct is decoded (and, for [Parameter], its
    two unions), the decoding fails with [required key missing: k] exactly
    when [k] is the first required key, in declared order, that the raw
    payload lacks; a key that is present counts whatever its value ([null],
    [false], [0]). *)
Theorem required_keys_by_presence :
  (∀ (s : Spec) data (σ : mapstore) ms key,
     json_Unmarshal_struct "openapi3.marshalSpec" marshalSpec_fields data s
     = (ms, None) →
     (Spec_UnmarshalJSON s data σ).2
     = Some (errors_New ("required key missing: " +:+ key))
     ↔ first_missing requireKeysSpec (rawMap_of data) key)
  ∧ (∀ (p : Parameter_) data (σ : mapstore) mp x l key,
       json_Unmarshal_struct "openapi3.marshalParameter"
         marshalParameter_fields data p = (mp, None) →
       json_Unmarshal data (Parameter_SchemaXORContent p) = (x, None) →
       json_Unmarshal data (Parameter_Location p) = (l, None) →
       (Parameter_UnmarshalJSON p data σ).2
       = Some (errors_New ("required key missing: " +:+ key))
       ↔ first_missing requireKeysParameter (rawMap_of data) key)
  ∧ (∀ requireKeys (rawMap : gmap string json),
       (∀ key, ¬ first_missing requireKeys rawMap key)
       ↔ Forall (fun key => ∃ v, rawMap !! key = Some v) requireKeys).
Proof.
  split; [|split].
  - intros s data σ ms key Hs.
    rewrite (Spec_UnmarshalJSON_error _ _ _ _ Hs).
    rewrite <- require_keys_first_missing.
    destruct (require_keys requireKeysSpec (rawMap_of data)) as [e|]; [done|].
    destruct (range_error _) as [e|] eqn:Hb.
    { apply range_error_Some in Hb as (k & v & _ & _ & Hn).
      apply number_error_kind in Hn as [lit ->]. done. }
    destruct (additional_properties _ _) eqn:Ha; simpl; [|done].
    split; [|done]. intros He. rewrite <- Ha in He.
    by apply additional_properties_not_required in He.
  - intros p data σ mp x l key Hs Hx Hl.
    rewrite (Parameter_UnmarshalJSON_error _ _ _ _ _ _ Hs Hx Hl).
    rewrite <- require_keys_first_missing.
    destruct (require_keys requireKeysParameter (rawMap_of data)) as [e|]; [done|].
    destruct (range_error _) as [e|] eqn:Hb.
    { apply range_error_Some in Hb as (k & v & _ & _ & Hn).
      apply number_error_kind in Hn as [lit ->]. done. }
    destruct (additional_properties _ _) eqn:Ha; simpl; [|done].
    split; [|done]. intros He. rewrite <- Ha in He.
    by apply additional_properties_not_required in He.
  - intros requireKeys rawMap.
    change (Forall (fun key => ∃ v, rawMap !! key = Some v) requireKeys)
      with (Forall (fun key => is_Some (rawMap !! key)) requireKeys).
    rewrite <- require_keys_None. split.
    + intros Hno. destruct (require_keys requireKeys rawMap) as [e|] eqn:Hr; [|done].
      pose proof Hr as Hr'.
      apply require_keys_Some in Hr' as (pre & key & post & _ & _ & _ & ->).
      apply require_keys_first_missing in Hr. by apply Hno in Hr.
    + intros Hr key Hm. apply require_keys_first_missing in Hm. congruence.
Qed.

Lemma bucket_after_other mapOfAnything (σ : mapstore) ext l :
  (∀ l0, mapOfAnything = Some l0 → l ≠ l0) →
  (mapOfAnything = None → is_Some (σ !! l)) →
  (bucket_after mapOfAnything σ ext).2 !! l = σ !! l.
Proof.
  intros Hsome Hnone. unfold bucket_after. destruct (decide _); [done|].
  destruct mapOfAnything as [l0|]; simpl.
  - rewrite lookup_insert_ne; [done|]. intros ->. by eapply Hsome.
  - assert (fresh (dom σ) ≠ l) as Hl.
    { intros <-. destruct (Hnone eq_refl) as [m Hm].
      apply (is_fresh (dom σ)). apply elem_of_dom. by eexists. }
    by rewrite !lookup_insert_ne.
Qed.

Lemma bucket_after_ref mapOfAnything (σ : mapstore) ext l0 :
  mapOfAnything = Some l0 →
  (bucket_after mapOfAnything σ ext).1 = Some l0
  ∧ (bucket_after mapOfAnything σ ext).2 !! l0
    = if decide (ext = ∅) then σ !! l0
      else Some (ext ∪ default ∅ (σ !! l0)).
Proof.
  intros ->. unfold bucket_after. destruct (decide _); [done|]. simpl.
  by rewrite lookup_insert_eq.
Qed.





Lemma Parameter_UnmarshalJSON_cases (p : Parameter_) data (σ : mapstore) :
  (∃ e, Parameter_UnmarshalJSON p data σ = (p, σ, Some e))
  ∨ (∃ mp x l,
       json_Unmarshal_struct "openapi3.marshalParameter"
         marshalParameter_fields data p = (mp, None)
       ∧ json_Unmarshal data (Parameter_SchemaXORContent p) = (x, None)
       ∧ json_Unmarshal data (Parameter_Location p) = (l, None)).
Proof.
  destruct (Parameter_UnmarshalJSON_early p data σ) as (H1 & H2 & H3).
  destruct (json_Unmarshal_struct "openapi3.marshalParameter"
              marshalParameter_fields data p) as [mp [e|]] eqn:Hs.
  { left. exists e. by eapply H1. }
  destruct (json_Unmarshal data (Parameter_SchemaXORContent p)) as [x [e|]] eqn:Hx.
  { left. exists e. by eapply H2. }
  destruct (json_Unmarshal data (Parameter_Location p)) as [l [e|]] eqn:Hl.
  { left. exists e. by eapply H3. }
  right. by exists mp, x, l.
Qed.







(** C9 (as amended): a failure of [Spec.UnmarshalJSON] is the error of the
    struct decoding, the [errorString] of the first missing required key,
    the [*json.UnmarshalTypeError] of an [x-] member that holds a number
    float64 cannot hold, or the [errorString] that lists the unconsumed
    keys; a failure of a union is an [errorString] with the count and the
    per-arm messages, one of a constant an [errorString] with the literal
    and the bytes received.  The key names, the count and the values are
    part of the message text only. *)
Theorem failures_are_messages :
  (∀ (s : Spec) data (σ : mapstore) e,
     (Spec_UnmarshalJSON s data σ).2 = Some e →
     (∃ ms, json_Unmarshal_struct "openapi3.marshalSpec" marshalSpec_fields
              data s = (ms, Some e))
     ∨ (∃ key, first_missing requireKeysSpec (rawMap_of data) key
               ∧ e = errorString ("required key missing: " +:+ key))
     ∨ (∃ key v lit,
          rawMap_of data !! key = Some v
          ∧ regexX_MatchString key = true
          ∧ number_error v = Some e
          ∧ e = UnmarshalTypeError ("number " +:+ lit) "float64" "" "")
     ∨ (unconsumed knownKeysSpec (rawMap_of data) ≠ ∅
        ∧ e = errorString
                ("additional properties not allowed in Spec: ["
                 +:+ join " " (rangeKeys (unconsumed knownKeysSpec
                                            (rawMap_of data)))
                 +:+ "]")))
  ∧ (∀ (p : ParameterLocation) data e,
       (ParameterLocation_UnmarshalJSON p data).2 = Some e →
       ∃ n (errs : gmap string error),
         e = errorString
               ("oneOf constraint failed for ParameterLocation with "
                +:+ fmt_d n +:+ " valid results: map["
                +:+ join " " (map (fun kv => kv.1 +:+ ":" +:+ Error kv.2)
                                (sorted_members errs))
                +:+ "]"))
  ∧ (∀ (p : PathParameter) data mp e,
       json_Unmarshal_struct "openapi3.marshalPathParameter"
         marshalPathParameter_fields data p = (mp, None) →
       (PathParameter_UnmarshalJSON p data).2 = Some e →
       e = errorString "required key missing: required"
       ∨ ∃ key lit received,
           e = errorString ("bad const value for " +:+ quote key +:+ " ("
                            +:+ lit +:+ " expected, " +:+ received
                            +:+ " received)")).
Proof.
  split; [|split].
  - intros s data σ e.
    destruct (json_Unmarshal_struct "openapi3.marshalSpec" marshalSpec_fields
                data s) as [ms [e'|]] eqn:Hs.
    { rewrite (Spec_UnmarshalJSON_struct_error _ _ _ _ _ Hs). intros [= ->].
      left. by exists ms. }
    rewrite (Spec_UnmarshalJSON_error _ _ _ _ Hs).
    destruct (require_keys _ _) as [e'|] eqn:Hr.
    + intros [= ->]. right. left. pose proof Hr as Hr'.
      apply require_keys_Some in Hr' as (pre & key & post & _ & _ & _ & ->).
      exists key. split; [|done]. by apply require_keys_first_missing.
    + destruct (range_error _) as [e'|] eqn:He.
      * intros [= ->]. right. right. left.
        apply range_error_Some in He as (key & v & Hkv & Hx & Hn).
        destruct (number_error_kind _ _ Hn) as [lit ->].
        exists key, v, lit. split; [|done].
        rewrite delete_keys_lookup in Hkv. by case_bool_decide.
      * destruct (additional_properties _ _) as [e'|] eqn:Ha; [|done].
        intros [= ->]. right. right. right.
        assert (unconsumed knownKeysSpec (rawMap_of data) ≠ ∅) as Hne.
        { intros He'. apply (additional_properties_None "Spec") in He'.
          congruence. }
        split; [done|]. rewrite additional_properties_Some in Ha by done.
        by injection Ha as <-.
  - intros p data e. rewrite ParameterLocation_UnmarshalJSON_spec. cbv zeta.
    cbn [snd]. destruct (decide _); [done|]. intros [= <-]. by eexists _, _.
  - intros p data mp e Hs.
    rewrite (PathParameter_UnmarshalJSON_spec _ _ _ Hs).
    destruct (rawMap_of data !! "required") as [r|]; [|intros [= <-]; by left].
    rewrite check_const_spec.
    destruct (rawMap_of data !! "in") as [v|].
    + destruct (decide (print v = _)).
      * destruct (decide _); [done|]. intros [= <-]. right. by eexists _, _, _.
      * intros [= <-]. right. by eexists _, _, _.
    + destruct (decide _); [done|]. intros [= <-]. right. by eexists _, _, _.
Qed.

Lemma marshalParameter_extension_key key :
  regexX_MatchString key = true →
  find_field marshalParameter_fields key = None.
Proof. intros [t ->]%regexX_cases. reflexivity. Qed.

(** The [example] field after one member of the payload. *)
Lemma marshalParameter_member_Example key v (p : marshalParameter) :
  key ∈ knownKeysParameter ∨ regexX_MatchString key = true →
  match find_field marshalParameter_fields key with
  | None => True
  | Some f =>
      (json_Unmarshal (Codec := fcodec f) v (fget f p)).2 = None →
      Parameter_Example
        (fset f (json_Unmarshal (Codec := fcodec f) v (fget f p)).1 p)
      = if decide (key = "example")
        then match v with JNull => None | _ => Some (canon v) end
        else Parameter_Example p
  end.
Proof.
  intros [Hk|Hx].
  - unfold knownKeysParameter in Hk.
    repeat (apply elem_of_cons in Hk as [->|Hk]);
      try (by intros _; destruct p); try (by apply elem_of_nil in Hk).
    cbn [find_field marshalParameter_fields fname String.eqb Ascii.eqb
         Bool.eqb fcodec fget fset json_Unmarshal ptr_Codec interface_Codec].
    destruct p. destruct v as [| |lit| | |]; try done.
    simpl. by destruct (ParseFloat lit).
  - by rewrite marshalParameter_extension_key.
Qed.

Lemma marshalParameter_members_Example kvs (p mp : marshalParameter) :
  unmarshal_members marshalParameter_fields kvs p = (mp, None) →
  Forall (fun key => key ∈ knownKeysParameter ∨ regexX_MatchString key = true)
         kvs.*1 →
  Parameter_Example mp
  = match to_map kvs !! "example" with
    | None => Parameter_Example p
    | Some JNull => None
    | Some v => Some (canon v)
    end.
Proof.
  revert p. induction kvs as [|[key v] kvs IH]; intros p Hm Hkeys.
  { simpl in Hm. by injection Hm as ->. }
  simpl in Hkeys. apply Forall_cons in Hkeys as [Hkey Hkeys].
  rewrite to_map_cons_lookup. simpl in Hm.
  pose proof (marshalParameter_member_Example key v p Hkey) as Hstep.
  destruct (find_field marshalParameter_fields key) as [f|] eqn:Hf.
  - destruct (json_Unmarshal v (fget f p)) as [x [e|]]; [done|].
    simpl in Hstep. rewrite (IH _ Hm Hkeys), Hstep by done.
    destruct (to_map kvs !! "example") as [x'|]; [done|].
    destruct (decide (key = "example")) as [->|Hne].
    + done.
    + done.
  - rewrite (IH _ Hm Hkeys).
    destruct (to_map kvs !! "example") as [x'|]; [done|].
    destruct (decide (key = "example")) as [->|Hne]; [|done].
    exfalso. apply (f_equal (fmap fname)) in Hf. by vm_compute in Hf.
Qed.

Lemma Parameter_UnmarshalJSON_decodes (p : Parameter_) data (σ : mapstore) :
  (Parameter_UnmarshalJSON p data σ).2 = None →
  bucket_decodes (rawMap_of data).
Proof.
  destruct (Parameter_UnmarshalJSON_cases p data σ)
    as [[e ->]|(mp & x & l & Hs & Hx & Hl)]; [done|].
  rewrite (Parameter_UnmarshalJSON_error _ _ _ _ _ _ Hs Hx Hl).
  destruct (require_keys _ _); [done|].
  destruct (range_error _) eqn:He; [done|]. intros _.
  apply range_error_None in He.
  by apply (bucket_decodes_delete_keys _ _ knownKeysParameter_not_extension).
Qed.

Lemma Parameter_UnmarshalJSON_ok (p : Parameter_) data (σ : mapstore) :
  (Parameter_UnmarshalJSON p data σ).2 = None →
  ∃ kvs mp x l,
    data = JObj kvs
    ∧ unmarshal_members marshalParameter_fields kvs p = (mp, None)
    ∧ json_Unmarshal data (Parameter_SchemaXORContent p) = (x, None)
    ∧ json_Unmarshal data (Parameter_Location p) = (l, None)
    ∧ require_keys requireKeysParameter (to_map kvs) = None
    ∧ unconsumed knownKeysParameter (to_map kvs) = ∅
    ∧ (Parameter_UnmarshalJSON p data σ).1.1
      = set_Parameter_MapOfAnything
          (bucket_after (Parameter_MapOfAnything p) σ
             (extension_entries (to_map kvs))).1
          (present_null_Example
             (set_Parameter_Location l (set_Parameter_SchemaXORContent x mp))
             (to_map kvs)).
Proof.
  intros Hok. pose proof (Parameter_UnmarshalJSON_decodes _ _ _ Hok) as Hdec.
  revert Hok.
  destruct (Parameter_UnmarshalJSON_cases p data σ)
    as [[e ->]|(mp & x & l & Hs & Hx & Hl)]; [done|].
  rewrite (Parameter_UnmarshalJSON_spec _ _ _ _ _ _ Hs Hx Hl Hdec).
  destruct (require_keys _ _) eqn:Hr; [done|]. cbv zeta.
  destruct (additional_properties _ _) eqn:Ha; [done|]. intros _.
  apply additional_properties_None in Ha.
  destruct data as [| | | | |kvs]; try done.
  exists kvs, mp, x, l. rewrite rawMap_of_JObj in *.
  split; [done|].
  split; [by apply (json_Unmarshal_struct_JObj "openapi3.marshalParameter")|].
  done.
Qed.

Lemma unconsumed_empty_keys knownKeys (kvs : list (string * json)) :
  unconsumed knownKeys (to_map kvs) = ∅ →
  Forall (fun key => key ∈ knownKeys ∨ regexX_MatchString key = true) kvs.*1.
Proof.
  intros He. apply Forall_forall. intros key Hin.
  pose proof (unconsumed_lookup knownKeys (to_map kvs) key) as Hl.
  rewrite He, lookup_empty in Hl.
  destruct (regexX_MatchString key); [by right|].
  case_bool_decide; [by left|].
  symmetry in Hl. by apply to_map_lookup_None in Hl.
Qed.

Lemma present_null_Example_spec (mp : marshalParameter)
    (rawMap : gmap string json) :
  Parameter_Example (present_null_Example mp rawMap)
  = match Parameter_Example mp with
    | Some v => Some v
    | None => match rawMap !! "example" with
              | Some _ => Some JNull
              | None => None
              end
    end.
Proof.
  unfold present_null_Example. destruct (Parameter_Example mp) eqn:E; [done|].
  destruct (rawMap !! "example"); [|done]. by destruct mp.
Qed.

Lemma marshalParameter_fields_split :
  marshalParameter_fields
  = take 11 marshalParameter_fields
    ++ [Field "example" true Parameter_Example set_Parameter_Example]
    ++ drop 12 marshalParameter_fields.
Proof. reflexivity. Qed.

Lemma join_nonempty sep x l : x ≠ EmptyString → join sep (x :: l) ≠ EmptyString.
Proof. intros Hx. destruct l; [done|]. rewrite join_cons. by destruct x. Qed.

(** The bytes of the struct fragment of a parameter. *)
Lemma marshalParameter_bytes (p : Parameter_) b :
  json_Marshal_struct marshalParameter_fields p = Done b →
  ∃ pre post,
    b = object_of (join "," (pre ++ example_member (Parameter_Example p)
                             ++ post))
    ∧ join "," (pre ++ example_member (Parameter_Example p) ++ post)
      ≠ EmptyString
    ∧ Forall (fun m => ∃ name rest,
                name ≠ "example" ∧ m = quote name +:+ ":" +:+ rest)
             (pre ++ post).
Proof.
  unfold json_Marshal_struct.
  rewrite marshalParameter_fields_split, !marshal_members_app.
  destruct (marshal_members (take 11 marshalParameter_fields) p)
    as [pre| |] eqn:Hpre; [|done..].
  match goal with
  | |- context [@marshal_members ?S (?f :: nil) ?q] =>
      set (ex := @marshal_members S (f :: nil) q)
  end.
  assert (ex = Done (example_member (Parameter_Example p))) as ->.
  { subst ex. simpl. by destruct (Parameter_Example p). }
  destruct (marshal_members (drop 12 marshalParameter_fields) p)
    as [post| |] eqn:Hpost; [|done..].
  intros [= <-]. exists pre, post. split; [done|]. split.
  - apply (marshal_members_first (S := marshalParameter)) in Hpre
      as (b0 & bs & ->); [|done].
    rewrite <- app_comm_cons. by apply join_nonempty.
  - apply Forall_app. split.
    + eapply Forall_impl; [by eapply marshal_members_names|].
      intros m (f & b' & Hin & ->). exists (fname f), b'. split; [|done].
      simpl in Hin. repeat (apply elem_of_cons in Hin as [->|Hin]); try done.
      by apply elem_of_nil in Hin.
    + eapply Forall_impl; [by eapply marshal_members_names|].
      intros m (f & b' & Hin & ->). exists (fname f), b'. split; [|done].
      simpl in Hin. repeat (apply elem_of_cons in Hin as [->|Hin]); try done.
      by apply elem_of_nil in Hin.
Qed.

End FlatProperties.

(** ** The round trip of [Spec] *)

Lemma marshal_list_docs {T} `{CodecLaws T} (l : list T) :
  Forall valid l → marshal_list l = Done (print <$> (doc <$> l)).
Proof.
  induction 1 as [|x l Hx _ IH]; [done|].
  simpl. by rewrite (marshal_doc x Hx), IH.
Qed.

Lemma unmarshal_elems_docs {T} `{CodecLaws T} (l : list T) :
  Forall valid l → unmarshal_elems (doc <$> l) [] = (l, None).
Proof.
  induction 1 as [|x l Hx _ IH]; [done|].
  rewrite fmap_cons. cbn [unmarshal_elems head tail default].
  rewrite (unmarshal_doc x Hx). by rewrite IH.
Qed.

Lemma ptr_unmarshal_doc {T} `{CodecLaws T} (v : T) :
  valid v → json_Unmarshal (doc v) (None : option T) = (Some v, None).
Proof.
  intros Hv. pose proof (doc_not_null v Hv) as Hn.
  pose proof (unmarshal_doc v Hv) as Hu. simpl.
  destruct (doc v); [done|..]; by rewrite Hu.
Qed.

Lemma slice_marshal_doc {T} `{CodecLaws T} (x : T) (l : list T) :
  Forall valid (x :: l) →
  json_Marshal (Some (x :: l)) = Done (print (JArr (doc <$> x :: l))).
Proof.
  intros Hv. pose proof (marshal_list_docs _ Hv) as Hm.
  change (json_Marshal (Some (x :: l)))
    with (match marshal_list (x :: l) with
          | Done bs => Done ("[" +:+ join "," bs +:+ "]")
          | Failed e => Failed e
          | Panicked => Panicked
          end).
  by rewrite Hm.
Qed.

Lemma slice_unmarshal_doc {T} `{CodecLaws T} (l : list T) :
  Forall valid l →
  json_Unmarshal (JArr (doc <$> l)) (None : option (list T)) = (Some l, None).
Proof. intros Hv. simpl. by rewrite (unmarshal_elems_docs _ Hv). Qed.

Lemma marshal_members_required {S} (f : field S) s d :
  fomitempty f = false →
  json_Marshal (Marshaler := Codec_Marshaler (Codec := fcodec f)) (fget f s)
  = Done (print d) →
  marshal_members [f] s = Done [print_member print (fname f, d)].
Proof. intros Ho Hm. simpl. rewrite Ho. simpl. by rewrite Hm. Qed.

Lemma marshal_members_optional {S} (f : field S) s od :
  fomitempty f = true →
  match od with
  | None => isEmptyValue (Codec := fcodec f) (fget f s) = true
  | Some d =>
      isEmptyValue (Codec := fcodec f) (fget f s) = false
      ∧ json_Marshal (Marshaler := Codec_Marshaler (Codec := fcodec f))
          (fget f s) = Done (print d)
  end →
  marshal_members [f] s = Done (print_member print <$> opt_member (fname f) od).
Proof.
  intros Ho Hm. simpl. rewrite Ho. destruct od as [d|].
  - destruct Hm as [-> ->]. done.
  - by rewrite Hm.
Qed.

Lemma marshal_members_cons_app {S} (f : field S) fs s :
  marshal_members (f :: fs) s
  = match marshal_members [f] s with
    | Done bs1 =>
        match marshal_members fs s with
        | Done bs2 => Done (bs1 ++ bs2)
        | Failed e => Failed e
        | Panicked => Panicked
        end
    | Failed e => Failed e
    | Panicked => Panicked
    end.
Proof. apply (marshal_members_app [f] fs). Qed.

Lemma marshalUnion_pair_skip m1 m2 b1 j2 :
  json_Marshal_iface m1 = Done (object_of b1) → b1 ≠ EmptyString →
  json_Marshal_iface m2 = Done j2 → skipped j2 →
  marshalUnion [m1; m2] = Done (object_of b1).
Proof.
  intros H1 Hb1 H2 Hj2. unfold marshalUnion.
  change [m1; m2] with ([m1] ++ m2 :: []).
  rewrite (loop_skip_middle _ _ _ _ _ _ H2 Hj2).
  apply (marshalUnion_objects [m1] [b1]); [done|].
  constructor; [done|constructor].
Qed.

Lemma marshalUnion_pair m1 m2 b1 b2 :
  json_Marshal_iface m1 = Done (object_of b1) → b1 ≠ EmptyString →
  json_Marshal_iface m2 = Done (object_of b2) → b2 ≠ EmptyString →
  marshalUnion [m1; m2] = Done (object_of (b1 +:+ "," +:+ b2)).
Proof.
  intros H1 Hb1 H2 Hb2.
  apply (marshalUnion_objects [m1; m2] [b1; b2]); [done|].
  constructor; [done|]. constructor; [done|constructor].
Qed.

Lemma join_app sep (l1 l2 : list string) :
  l1 ≠ [] → l2 ≠ [] →
  join sep (l1 ++ l2) = join sep l1 +:+ sep +:+ join sep l2.
Proof.
  intros H1 H2. induction l1 as [|x [|y l1] IH]; [done|..].
  - destruct l2; [done|]. reflexivity.
  - change ((x :: y :: l1) ++ l2) with (x :: y :: (l1 ++ l2)).
    rewrite !join_cons. change (y :: l1 ++ l2) with ((y :: l1) ++ l2).
    rewrite IH by done. by rewrite !bytes_app_assoc.
Qed.

Lemma sorted_members_perm {A} (m : gmap string A) :
  sorted_members m ≡ₚ map_to_list m.
Proof. apply merge_sort_Permutation. Qed.

Lemma sorted_members_empty {A} (m : gmap string A) :
  sorted_members m = [] ↔ m = ∅.
Proof.
  split.
  - intros He. apply map_to_list_empty_iff, Permutation_nil_r.
    by rewrite <- sorted_members_perm, He.
  - intros ->. apply Permutation_nil_r.
    by rewrite sorted_members_perm, map_to_list_empty.
Qed.

Lemma to_map_perm {A} (l1 l2 : list (string * A)) :
  NoDup l1.*1 → l1 ≡ₚ l2 → to_map l1 = to_map l2.
Proof.
  intros Hnd Hp. unfold to_map. apply list_to_map_proper.
  - by rewrite reverse_Permutation.
  - by rewrite !reverse_Permutation.
Qed.

(** A map written with sorted keys is read back as the same map. *)
Lemma to_map_sorted_members {A} (m : gmap string A) :
  to_map (sorted_members m) = m.
Proof.
  rewrite (to_map_perm (sorted_members m) (reverse (map_to_list m))).
  - unfold to_map. rewrite reverse_involutive. apply list_to_map_to_list.
  - rewrite sorted_members_perm. apply NoDup_fst_map_to_list.
  - by rewrite sorted_members_perm, reverse_Permutation.
Qed.

Lemma to_map_app_lookup {A} (l1 l2 : list (string * A)) key :
  to_map (l1 ++ l2) !! key
  = match to_map l2 !! key with
    | Some x => Some x
    | None => to_map l1 !! key
    end.
Proof.
  induction l1 as [|[k v] l1 IH]; simpl.
  { by destruct (to_map l2 !! key). }
  rewrite !to_map_cons_lookup, IH.
  by destruct (to_map l2 !! key).
Qed.

Lemma to_map_lookup_is_Some {A} (kvs : list (string * A)) key :
  is_Some (to_map kvs !! key) ↔ key ∈ kvs.*1.
Proof.
  pose proof (to_map_lookup_None kvs key) as H.
  destruct (to_map kvs !! key) as [v|].
  - split; [|by eexists]. intros _.
    destruct (decide (key ∈ kvs.*1)) as [|Hn]; [done|].
    by apply H in Hn.
  - split; [by intros [? ?]|]. intros Hin. by apply H in Hin.
Qed.

Lemma extension_entries_lookup (rawMap : gmap string json) key :
  extension_entries rawMap !! key
  = if regexX_MatchString key then canon <$> rawMap !! key else None.
Proof.
  unfold extension_entries. rewrite lookup_fmap, map_lookup_filter.
  destruct (rawMap !! key) as [v|]; simpl; [|by destruct (regexX_MatchString key)].
  destruct (regexX_MatchString key) eqn:E.
  - by rewrite option_guard_True.
  - rewrite option_guard_False; [done|]. simpl. congruence.
Qed.

Lemma unmarshal_members_app {S} (fs : list (field S)) kvs1 kvs2 s :
  unmarshal_members fs (kvs1 ++ kvs2) s
  = match (unmarshal_members fs kvs1 s).2 with
    | None => unmarshal_members fs kvs2 (unmarshal_members fs kvs1 s).1
    | Some _ => unmarshal_members fs kvs1 s
    end.
Proof.
  revert s. induction kvs1 as [|[key v] kvs1 IH]; intros s; [done|].
  simpl. destruct (find_field fs key) as [f|]; [|apply IH].
  destruct (json_Unmarshal v (fget f s)) as [x [e|]]; [done|]. apply IH.
Qed.

Lemma unmarshal_members_unknown {S} (fs : list (field S)) kvs s :
  Forall (fun key => find_field fs key = None) kvs.*1 →
  unmarshal_members fs kvs s = (s, None).
Proof.
  induction kvs as [|[key v] kvs IH]; [done|].
  intros [Hk Hks]%Forall_cons. simpl in *. rewrite Hk. by apply IH.
Qed.


(** Members under keys without escapes, holding values written without
    escapes, are written as they are printed. *)
Lemma encode_members (kvs : list (string * json)) :
  (∀ key v, (key, v) ∈ kvs → plain key ∧ encode v = print v) →
  encode (JObj kvs) = print (JObj kvs).
Proof.
  intros H. cbn [encode print]. do 3 f_equal.
  induction kvs as [|[key v] kvs IH]; [done|].
  cbn [map]. destruct (H key v) as [Hk Hv]; [by left|].
  unfold print_member. cbn [fst snd]. rewrite Hk, Hv. f_equal.
  apply IH. intros key' v' Hin. apply H. by right.
Qed.

Lemma sorted_members_lookup {A} (m : gmap string A) key v :
  (key, v) ∈ sorted_members m → m !! key = Some v.
Proof.
  intros Hin. apply elem_of_map_to_list.
  by rewrite <- (sorted_members_perm m).
Qed.

Section RoundTripProperties.
Context {RO : RangeOrder} {N : Nested} {L : NestedLaws N}.

Lemma marshalSpec_extension_key key :
  regexX_MatchString key = true → find_field marshalSpec_fields key = None.
Proof. intros [t ->]%regexX_cases. reflexivity. Qed.

Lemma ptr_member {T} `{CodecLaws T} (p : option T) :
  (∀ v, p = Some v → valid v) →
  match ptr_doc p with
  | None => isEmptyValue p = true
  | Some d => isEmptyValue p = false ∧ json_Marshal p = Done (print d)
  end.
Proof.
  intros Hv. destruct p as [v|]; [|done]. split; [done|].
  pose proof (marshal_doc v (Hv v eq_refl)) as Hm.
  change (json_Marshal (Some v))
    with (if custom (T := T) then through_pointer (json_Marshal v)
          else json_Marshal v).
  rewrite Hm. by destruct custom.
Qed.

Lemma slice_member {T} `{CodecLaws T} (s : option (list T)) :
  Forall valid (slice_contents s) →
  match slice_doc s with
  | None => isEmptyValue s = true
  | Some d => isEmptyValue s = false ∧ json_Marshal s = Done (print d)
  end.
Proof.
  intros Hv. destruct s as [[|x l]|]; [done| |done]. split; [done|].
  by apply slice_marshal_doc.
Qed.

(** The members that the struct encoder writes for a [Spec]. *)
Lemma marshalSpec_members (s : Spec) (σ : mapstore) :
  Spec_valid s σ →
  marshal_members marshalSpec_fields s
  = Done (print_member print <$> Spec_members s).
Proof.
  intros (Hpl & Hi & He & Hsv & Hsec & Ht & Hpa & Hc & _).
  unfold marshalSpec_fields.
  do 7 rewrite (marshal_members_cons_app _ (_ :: _)).
  rewrite (marshal_members_required _ s (JStr (Spec_Openapi s)))
    by (try done; exact (f_equal Done Hpl)).
  rewrite (marshal_members_required _ s (doc (Spec_Info s)))
    by (try done; by apply (marshal_doc (Spec_Info s))).
  rewrite (marshal_members_optional _ s (ptr_doc (Spec_ExternalDocs s)))
    by (try done; by apply ptr_member).
  rewrite (marshal_members_optional _ s (slice_doc (Spec_Servers s)))
    by (try done; by apply slice_member).
  rewrite (marshal_members_optional _ s (slice_doc (Spec_Security s)))
    by (try done; by apply slice_member).
  rewrite (marshal_members_optional _ s (slice_doc (Spec_Tags s)))
    by (try done; by apply slice_member).
  rewrite (marshal_members_required _ s (doc (Spec_Paths s)))
    by (try done; by apply (marshal_doc (Spec_Paths s))).
  rewrite (marshal_members_optional _ s (ptr_doc (Spec_Components s)))
    by (try done; by apply ptr_member).
  unfold Spec_members. by rewrite !fmap_app.
Qed.

Lemma Spec_members_nonempty (s : Spec) :
  join "," (print_member print <$> Spec_members s) ≠ EmptyString.
Proof. unfold Spec_members. by apply join_nonempty. Qed.

(** [Spec.MarshalJSON] writes the members of the struct, then those of the
    bucket. *)
Lemma Spec_MarshalJSON_doc_any (s : Spec) (σ σ1 : mapstore) :
  Spec_valid s σ1 →
  (∀ key v, bucket_contents σ (Spec_MapOfAnything s) !! key = Some v →
            plain key ∧ encode v = print v) →
  Spec_MarshalJSON s σ = Done (print (Spec_doc s σ)).
Proof.
  intros Hv Hbucket. pose proof (marshalSpec_members s σ1 Hv) as Hm.
  pose proof (Spec_members_nonempty s) as Hne.
  unfold Spec_MarshalJSON, Spec_doc.
  set (M := Spec_members s) in *. clearbody M.
  assert (json_Marshal_iface
            (Iface (M := json_Marshal_struct marshalSpec_fields)
                   (s : marshalSpec))
          = Done (object_of (join "," (print_member print <$> M)))) as Hstruct.
  { simpl. unfold json_Marshal, json_Marshal_struct. by rewrite Hm. }
  unfold bucket_contents.
  set (m := default ∅ (deref σ (Spec_MapOfAnything s))).
  assert (json_Marshal_iface (Iface (Stored (deref σ (Spec_MapOfAnything s))))
          = Done (match deref σ (Spec_MapOfAnything s) with
                  | Some _ => print (JObj (sorted_members m))
                  | None => "null"
                  end)) as Hb.
  { unfold bucket_contents in Hbucket. fold m in Hbucket.
    destruct (deref σ (Spec_MapOfAnything s)); [|done].
    cbn [json_Marshal_iface json_Marshal StoredMap_Marshaler stored_map
         json_Marshal_map].
    f_equal. apply encode_members. intros key v Hkv.
    apply (Hbucket key v). by apply sorted_members_lookup. }
  destruct (decide (m = ∅)) as [He|He].
  - rewrite (proj2 (sorted_members_empty m) He), app_nil_r.
    eapply marshalUnion_pair_skip; [exact Hstruct|done|exact Hb|].
    rewrite (proj2 (sorted_members_empty m) He).
    destruct (deref σ (Spec_MapOfAnything s)); [by left|by right].
  - assert (sorted_members m ≠ []) as Hs.
    { intros Hs. by apply sorted_members_empty in Hs. }
    destruct (deref σ (Spec_MapOfAnything s)) as [m'|] eqn:Hd;
      [|by subst m].
    rewrite (marshalUnion_pair _ _ _
               (join "," (print_member print <$> sorted_members m))
               Hstruct Hne Hb).
    + unfold object_of.
      change (print (JObj (M ++ sorted_members m)))
        with ("{" +:+ join "," (map (print_member print)
                                   (M ++ sorted_members m)) +:+ "}").
      rewrite map_app, join_app.
      * done.
      * by destruct M.
      * by destruct (sorted_members m).
    + destruct (sorted_members m) as [|kv l]; [done|]. by apply join_nonempty.
Qed.


(** The struct decoder on the members of a [Spec], one field at a time. *)
Lemma decode_openapi v rest o i e sv sec t pa c b :
  unmarshal_members marshalSpec_fields (("openapi", JStr v) :: rest)
    (mkSpec o i e sv sec t pa c b)
  = unmarshal_members marshalSpec_fields rest (mkSpec v i e sv sec t pa c b).
Proof. reflexivity. Qed.

Lemma decode_info (v : Info) rest a e sv sec t pa c b :
  valid v →
  unmarshal_members marshalSpec_fields (("info", doc v) :: rest)
    (mkSpec a zero e sv sec t pa c b)
  = unmarshal_members marshalSpec_fields rest (mkSpec a v e sv sec t pa c b).
Proof.
  intros Hv.
  etrans; [eapply unmarshal_members_found;
           [reflexivity|exact (unmarshal_doc v Hv)]|reflexivity].
Qed.

Lemma decode_paths (v : Paths) rest a i e sv sec t c b :
  valid v →
  unmarshal_members marshalSpec_fields (("paths", doc v) :: rest)
    (mkSpec a i e sv sec t zero c b)
  = unmarshal_members marshalSpec_fields rest (mkSpec a i e sv sec t v c b).
Proof.
  intros Hv.
  etrans; [eapply unmarshal_members_found;
           [reflexivity|exact (unmarshal_doc v Hv)]|reflexivity].
Qed.

Lemma decode_externalDocs (v : option ExternalDocumentation) rest
    a i sv sec t pa c b :
  (∀ x, v = Some x → valid x) →
  unmarshal_members marshalSpec_fields
    (opt_member "externalDocs" (ptr_doc v) ++ rest)
    (mkSpec a i None sv sec t pa c b)
  = unmarshal_members marshalSpec_fields rest (mkSpec a i v sv sec t pa c b).
Proof.
  intros Hv. destruct v as [x|]; [|reflexivity].
  etrans; [eapply unmarshal_members_found;
           [reflexivity|exact (ptr_unmarshal_doc x (Hv x eq_refl))]
          |reflexivity].
Qed.

Lemma decode_components (v : option Components) rest a i e sv sec t pa b :
  (∀ x, v = Some x → valid x) →
  unmarshal_members marshalSpec_fields
    (opt_member "components" (ptr_doc v) ++ rest)
    (mkSpec a i e sv sec t pa None b)
  = unmarshal_members marshalSpec_fields rest (mkSpec a i e sv sec t pa v b).
Proof.
  intros Hv. destruct v as [x|]; [|reflexivity].
  etrans; [eapply unmarshal_members_found;
           [reflexivity|exact (ptr_unmarshal_doc x (Hv x eq_refl))]
          |reflexivity].
Qed.

Lemma decode_servers (v : option (list Server)) rest a i e sec t pa c b :
  Forall valid (slice_contents v) →
  ∃ v', slice_contents v' = slice_contents v
    ∧ unmarshal_members marshalSpec_fields
        (opt_member "servers" (slice_doc v) ++ rest)
        (mkSpec a i e None sec t pa c b)
      = unmarshal_members marshalSpec_fields rest
          (mkSpec a i e v' sec t pa c b).
Proof.
  intros Hv. destruct v as [[|x l]|]; [by exists None| |by exists None].
  exists (Some (x :: l)). split; [done|].
  etrans; [eapply unmarshal_members_found;
           [reflexivity|exact (slice_unmarshal_doc (x :: l) Hv)]
          |reflexivity].
Qed.

Lemma decode_security (v : option (list SecurityRequirement)) rest
    a i e sv t pa c b :
  Forall valid (slice_contents v) →
  ∃ v', slice_contents v' = slice_contents v
    ∧ unmarshal_members marshalSpec_fields
        (opt_member "security" (slice_doc v) ++ rest)
        (mkSpec a i e sv None t pa c b)
      = unmarshal_members marshalSpec_fields rest
          (mkSpec a i e sv v' t pa c b).
Proof.
  intros Hv. destruct v as [[|x l]|]; [by exists None| |by exists None].
  exists (Some (x :: l)). split; [done|].
  etrans; [eapply unmarshal_members_found;
           [reflexivity|exact (slice_unmarshal_doc (x :: l) Hv)]
          |reflexivity].
Qed.

Lemma decode_tags (v : option (list Tag)) rest a i e sv sec pa c b :
  Forall valid (slice_contents v) →
  ∃ v', slice_contents v' = slice_contents v
    ∧ unmarshal_members marshalSpec_fields
        (opt_member "tags" (slice_doc v) ++ rest)
        (mkSpec a i e sv sec None pa c b)
      = unmarshal_members marshalSpec_fields rest
          (mkSpec a i e sv sec v' pa c b).
Proof.
  intros Hv. destruct v as [[|x l]|]; [by exists None| |by exists None].
  exists (Some (x :: l)). split; [done|].
  etrans; [eapply unmarshal_members_found;
           [reflexivity|exact (slice_unmarshal_doc (x :: l) Hv)]
          |reflexivity].
Qed.

(** The struct decoder reads the members written for a [Spec] back into the
    zero value. *)
Lemma Spec_unmarshal_members (s : Spec) (σ : mapstore) rest :
  Spec_valid s σ →
  ∃ ms : Spec,
    unmarshal_members marshalSpec_fields (Spec_members s ++ rest) Spec_zero
    = unmarshal_members marshalSpec_fields rest ms
    ∧ Spec_MapOfAnything ms = None
    ∧ ∀ σ1 σ2 r,
        bucket_contents σ1 (Spec_MapOfAnything s) = bucket_contents σ2 r →
        Spec_same s σ1 (set_Spec_MapOfAnything r ms) σ2.
Proof.
  intros (_ & Hi & He & Hsv & Hsec & Ht & Hpa & Hc & _).
  destruct s as [a i e sv sec t pa c b].
  cbn [Spec_Info Spec_ExternalDocs Spec_Servers Spec_Security Spec_Tags
       Spec_Paths Spec_Components] in *.
  unfold Spec_members, Spec_zero.
  cbn [Spec_Openapi Spec_Info Spec_ExternalDocs Spec_Servers Spec_Security
       Spec_Tags Spec_Paths Spec_Components].
  rewrite <- !app_assoc. cbn [app].
  rewrite decode_openapi, decode_info by done.
  rewrite decode_externalDocs by done.
  destruct (decode_servers sv
              (opt_member "security" (slice_doc sec)
               ++ opt_member "tags" (slice_doc t)
               ++ ("paths", doc pa)
                  :: opt_member "components" (ptr_doc c) ++ rest)
              a i e None None zero None None Hsv) as (sv' & Esv & ->).
  destruct (decode_security sec
              (opt_member "tags" (slice_doc t)
               ++ ("paths", doc pa)
                  :: opt_member "components" (ptr_doc c) ++ rest)
              a i e sv' None zero None None Hsec) as (sec' & Esec & ->).
  destruct (decode_tags t
              (("paths", doc pa)
                 :: opt_member "components" (ptr_doc c) ++ rest)
              a i e sv' sec' zero None None Ht) as (t' & Et & ->).
  rewrite decode_paths by done. rewrite decode_components by done.
  exists (mkSpec a i e sv' sec' t' pa c None).
  split; [done|]. split; [done|].
  intros σ1 σ2 r Hb. by repeat split.
Qed.

Lemma opt_member_keys name d key :
  key ∈ (opt_member name d).*1 → key = name.
Proof.
  destruct d; simpl; [|by intros ?%elem_of_nil].
  by intros ->%list_elem_of_singleton.
Qed.

Lemma Spec_members_keys (s : Spec) key :
  key ∈ (Spec_members s).*1 → key ∈ knownKeysSpec.
Proof.
  unfold Spec_members. rewrite !fmap_app, !elem_of_app.
  intros [H|[H|[H|[H|[H|[H|H]]]]]];
    try (apply opt_member_keys in H; subst key;
         by apply (bool_decide_unpack _)).
  - simpl in H. apply elem_of_cons in H as [->|H];
      [by apply (bool_decide_unpack _)|].
    apply list_elem_of_singleton in H as ->. by apply (bool_decide_unpack _).
  - simpl in H. apply list_elem_of_singleton in H as ->.
    by apply (bool_decide_unpack _).
Qed.

Lemma Spec_members_required (s : Spec) :
  Forall (fun key => key ∈ (Spec_members s).*1) requireKeysSpec.
Proof.
  unfold Spec_members, requireKeysSpec. rewrite !fmap_app.
  apply Forall_cons. split.
  { rewrite !elem_of_app. left. by left. }
  apply Forall_cons. split.
  { rewrite !elem_of_app. left. right. by left. }
  apply Forall_cons. split; [|constructor].
  rewrite !elem_of_app. do 5 right. left. by left.
Qed.

Lemma sorted_members_keys {A} (m : gmap string A) key :
  key ∈ (sorted_members m).*1 ↔ is_Some (m !! key).
Proof. by rewrite <- to_map_lookup_is_Some, to_map_sorted_members. Qed.


End RoundTripProperties.

(** ** The arms of a parameter location *)

Lemma QueryParameterStyle_known_cases s :
  QueryParameterStyle_known s = true →
  s = "form" ∨ s = "spaceDelimited" ∨ s = "pipeDelimited" ∨ s = "deepObject".
Proof.
  unfold QueryParameterStyle_known. intros H.
  apply orb_true_iff in H as [H|H];
    [apply orb_true_iff in H as [H|H];
       [apply orb_true_iff in H as [H|H]|]|];
    apply bytes_eqb_eq in H; auto.
Qed.

Lemma check_const_None key lit rawMap :
  check_const key lit rawMap = None ↔ const_ok key lit rawMap.
Proof.
  rewrite check_const_spec. unfold const_ok.
  destruct (rawMap !! key) as [v|]; [|done].
  destruct (decide (print v = lit)) as [He|Hne].
  - split; [|done]. by intros _ ? [= <-].
  - split; [done|]. intros H. by destruct Hne, (H v).
Qed.

Lemma check_const_delete key key' lit (rawMap : gmap string json) :
  key ≠ key' →
  check_const key lit (delete key' rawMap) = check_const key lit rawMap.
Proof. intros Hne. unfold check_const. by rewrite lookup_delete_ne. Qed.

(** A pointer is decoded to nil by [null] alone. *)
Lemma ptr_Unmarshal_None {T} `{Codec T} data (arm r : option T) :
  json_Unmarshal data arm = (r, None) → (r = None ↔ data = JNull).
Proof.
  destruct data; simpl; try (by intros [= <-]);
    destruct (json_Unmarshal _ (default zero arm)) as [v e];
    by intros [= <- ->].
Qed.

Lemma arm_value_set {T} `{Codec T} data (arm : option T) :
  data ≠ JNull →
  set_arm (arm_value (json_Unmarshal data arm))
  = match (json_Unmarshal data arm).2 with
    | None => 1
    | Some _ => 0
    end.
Proof.
  intros Hd. unfold arm_value.
  destruct (json_Unmarshal data arm) as [r [e|]] eqn:E; [done|]. simpl.
  destruct r; [done|]. destruct Hd. by apply (ptr_Unmarshal_None _ _ _ E).
Qed.

(** X1: a parameter location with one arm set, whose style is one of the
    enumeration, is written as the arm's constants followed by its style, and
    that document is decoded, into the zero value, to the same location: the
    constants make the three other arms refuse it. *)
Theorem ParameterLocation_roundtrip :
  (∀ p, PathParameter_valid p →
     let l := mkParameterLocation (Some p) None None None in
     ParameterLocation_MarshalJSON l = Done (print (PathParameter_doc p))
     ∧ ParameterLocation_UnmarshalJSON zero (PathParameter_doc p) = (l, None))
  ∧ (∀ q, QueryParameter_valid q →
       let l := mkParameterLocation None (Some q) None None in
       ParameterLocation_MarshalJSON l = Done (print (QueryParameter_doc q))
       ∧ ParameterLocation_UnmarshalJSON zero (QueryParameter_doc q)
         = (l, None))
  ∧ (let l := mkParameterLocation None None (Some mkHeaderParameter) None in
     ParameterLocation_MarshalJSON l = Done (print HeaderParameter_doc)
     ∧ ParameterLocation_UnmarshalJSON zero HeaderParameter_doc = (l, None))
  ∧ (let l := mkParameterLocation None None None (Some mkCookieParameter) in
     ParameterLocation_MarshalJSON l = Done (print CookieParameter_doc)
     ∧ ParameterLocation_UnmarshalJSON zero CookieParameter_doc = (l, None)).
Proof.
  split; [|split; [|split]].
  - intros [[[s]|]] Hv l; [|by split; vm_compute].
    destruct (PathParameterStyle_known_cases s (Hv s eq_refl))
      as [->|[->| ->]]; by split; vm_compute.
  - intros [[[s]|]] Hv l; [|by split; vm_compute].
    destruct (QueryParameterStyle_known_cases s (Hv s eq_refl))
      as [->|[->|[->| ->]]]; by split; vm_compute.
  - by split; vm_compute.
  - by split; vm_compute.
Qed.

Lemma ParameterLocation_UnmarshalJSON_one_arm (p : ParameterLocation) data :
  (ParameterLocation_UnmarshalJSON p data).2 = None →
  arms_set (ParameterLocation_UnmarshalJSON p data).1 = 1 ∧ data ≠ JNull.
Proof.
  rewrite ParameterLocation_UnmarshalJSON_spec. cbv zeta. cbn [fst snd].
  destruct (decide _) as [Hone|]; [intros _|done].
  assert (data ≠ JNull) as Hd.
  { intros ->. by vm_compute in Hone. }
  split; [|done]. unfold arms_set.
  cbn [ParameterLocation_PathParameter ParameterLocation_QueryParameter
       ParameterLocation_HeaderParameter ParameterLocation_CookieParameter].
  rewrite !arm_value_set by done. revert Hone.
  generalize (json_Unmarshal data (ParameterLocation_PathParameter p)).2,
    (json_Unmarshal data (ParameterLocation_QueryParameter p)).2,
    (json_Unmarshal data (ParameterLocation_HeaderParameter p)).2,
    (json_Unmarshal data (ParameterLocation_CookieParameter p)).2.
  intros [e1|] [e2|] [e3|] [e4|]; simpl; lia.
Qed.

(** X2: a successful decoding of a parameter location leaves exactly one arm
    set, whatever the receiver held; the payload [null], which every arm
    takes, is refused. *)
Theorem ParameterLocation_decoded_one_arm (p : ParameterLocation) data :
  (ParameterLocation_UnmarshalJSON p data).2 = None →
  arms_set (ParameterLocation_UnmarshalJSON p data).1 = 1 ∧ data ≠ JNull.
Proof. apply ParameterLocation_UnmarshalJSON_one_arm. Qed.

Lemma ParameterLocation_decoded_one_arm_witness :
  let data := JObj [("in", JStr "query"); ("style", JStr "form")] in
  (ParameterLocation_UnmarshalJSON zero data).2 = None
  ∧ arms_set (ParameterLocation_UnmarshalJSON zero data).1 = 1
  ∧ data ≠ JNull.
Proof.
  cbv zeta. split; [by vm_compute|].
  apply ParameterLocation_decoded_one_arm. by vm_compute.
Defined.

(** X3: the header arm and the cookie arm check their two constants and
    nothing else: a payload is taken exactly when each of [in] and [style] is
    absent or holds the arm's literal, so every payload that is not an object
    is taken; the receiver is left as it was. *)
Theorem constant_arms_accept :
  (∀ h data,
     (HeaderParameter_UnmarshalJSON h data).1 = h
     ∧ ((HeaderParameter_UnmarshalJSON h data).2 = None
        ↔ const_ok "in" (quote "header") (rawMap_of data)
          ∧ const_ok "style" (quote "simple") (rawMap_of data)))
  ∧ (∀ c data,
       (CookieParameter_UnmarshalJSON c data).1 = c
       ∧ ((CookieParameter_UnmarshalJSON c data).2 = None
          ↔ const_ok "in" (quote "cookie") (rawMap_of data)
            ∧ const_ok "style" (quote "form") (rawMap_of data)))
  ∧ (∀ h c data, (∀ kvs, data ≠ JObj kvs) →
       HeaderParameter_UnmarshalJSON h data = (h, None)
       ∧ CookieParameter_UnmarshalJSON c data = (c, None)).
Proof.
  assert (∀ lit1 lit2 (rawMap : gmap string json),
            match check_const "in" lit1 rawMap with
            | Some e => Some e
            | None => check_const "style" lit2 (delete "in" rawMap)
            end = None
            ↔ const_ok "in" lit1 rawMap ∧ const_ok "style" lit2 rawMap) as Hc.
  { intros lit1 lit2 rawMap. rewrite <- !check_const_None.
    rewrite check_const_delete by done.
    destruct (check_const "in" lit1 rawMap) as [e|].
    - split; [done|]. by intros [? _].
    - split; [by intros ?|by intros [_ ?]]. }
  split; [|split].
  - intros h data. unfold HeaderParameter_UnmarshalJSON.
    rewrite <- Hc. destruct (check_const "in" _ _); [done|].
    by destruct (check_const "style" _ _).
  - intros c data. unfold CookieParameter_UnmarshalJSON.
    rewrite <- Hc. destruct (check_const "in" _ _); [done|].
    by destruct (check_const "style" _ _).
  - intros h c data Hd.
    assert (rawMap_of data = ∅) as Hr by (by destruct data; try done; destruct (Hd kvs)).
    unfold HeaderParameter_UnmarshalJSON, CookieParameter_UnmarshalJSON.
    rewrite Hr. done.
Qed.

(** ** The exclusivity group of a parameter *)

Lemma SchemaXORContent_UnmarshalJSON_err s kvs :
  numbers_fit kvs →
  (SchemaXORContent_UnmarshalJSON s (JObj kvs)).2 = None
  ↔ (is_Some (to_map kvs !! "schema") ↔ to_map kvs !! "content" = None).
Proof.
  intros Hfit. unfold SchemaXORContent_UnmarshalJSON.
  change (json_Unmarshal (JObj kvs) (zero : SchemaXORContentNot))
    with (SchemaXORContentNot_UnmarshalJSON zero (JObj kvs)).
  rewrite SchemaXORContentNot_UnmarshalJSON_err by done.
  unfold oneOf_arm. rewrite !ptr_Unmarshal_JObj.
  change (json_Unmarshal (JObj kvs) (default zero (SchemaXORContent_HasSchema s)))
    with (HasSchema_UnmarshalJSON (default zero (SchemaXORContent_HasSchema s))
            (JObj kvs)).
  change (json_Unmarshal (JObj kvs) (default zero (SchemaXORContent_HasContent s)))
    with (HasContent_UnmarshalJSON
            (default zero (SchemaXORContent_HasContent s)) (JObj kvs)).
  rewrite HasSchema_UnmarshalJSON_err, HasContent_UnmarshalJSON_err by done.
  destruct (to_map kvs !! "schema") as [v1|], (to_map kvs !! "content") as [v2|];
    simpl.
  - split; [done|]. intros [H _]. discriminate H. by eexists.
  - split; [done|]. by intros _.
  - split; [intros _|done]. split; [by intros [? ?]|done].
  - split; [done|]. intros [_ H]. by destruct (H eq_refl).
Qed.

(** X4: on a payload whose numbers float64 can hold,
    [SchemaXORContent.UnmarshalJSON] succeeds on the objects that have
    exactly one of the keys [schema] and [content], and on no other payload:
    [null] is taken by both arms, and any other document by none. *)
Theorem SchemaXORContent_exactly_one_key (s : SchemaXORContent) data :
  (∀ kvs, data = JObj kvs → numbers_fit kvs) →
  (SchemaXORContent_UnmarshalJSON s data).2 = None
  ↔ ∃ kvs, data = JObj kvs
           ∧ (is_Some (to_map kvs !! "schema")
              ↔ to_map kvs !! "content" = None).
Proof.
  intros Hfit. destruct data as [|b|n|t|l|kvs].
  1-5: split; [|by intros (? & [=] & _)]; by destruct s as [[h|] [c|]].
  rewrite SchemaXORContent_UnmarshalJSON_err by (by apply Hfit). split.
  - intros H. by exists kvs.
  - by intros (? & [= <-] & H).
Qed.

Lemma SchemaXORContent_exactly_one_key_witness :
  (SchemaXORContent_UnmarshalJSON zero
     (JObj [("schema", JObj [("type", JStr "string")])])).2 = None
  ↔ ∃ kvs, JObj [("schema", JObj [("type", JStr "string")])] = JObj kvs
           ∧ (is_Some (to_map kvs !! "schema")
              ↔ to_map kvs !! "content" = None).
Proof.
  apply (SchemaXORContent_exactly_one_key zero
           (JObj [("schema", JObj [("type", JStr "string")])])).
  intros kvs [= <-]. repeat constructor.
Defined.

Lemma SchemaXORContent_decode_schema (v : json) :
  number_error v = None →
  SchemaXORContent_UnmarshalJSON zero (JObj [("schema", v)])
  = (mkSchemaXORContent (Some (mkHasSchema (canon v))) None, None).
Proof.
  intros Hn.
  assert (numbers_fit [("schema", v)]) as Hfit by (by repeat constructor).
  assert (HasSchema_UnmarshalJSON zero (JObj [("schema", v)])
          = (mkHasSchema (canon v), None)) as Hhs.
  { unfold HasSchema_UnmarshalJSON.
    assert (json_Unmarshal_struct "openapi3.marshalHasSchema"
              marshalHasSchema_fields (JObj [("schema", v)])
              (zero : HasSchema) = (mkHasSchema (canon v), None)) as ->.
    { apply json_Unmarshal_struct_JObj.
      etrans; [eapply unmarshal_members_found;
               [reflexivity|apply (interface_Unmarshal_fits _ _ Hn)]|].
      reflexivity. }
    reflexivity. }
  pose proof (HasContent_UnmarshalJSON_err zero _ Hfit) as Hhc.
  pose proof (SchemaXORContentNot_UnmarshalJSON_err zero _ Hfit) as Hnot.
  unfold SchemaXORContent_UnmarshalJSON.
  change (json_Unmarshal (JObj [("schema", v)]) (zero : SchemaXORContentNot))
    with (SchemaXORContentNot_UnmarshalJSON zero (JObj [("schema", v)])).
  rewrite Hnot. unfold oneOf_arm. rewrite !ptr_Unmarshal_JObj.
  change (json_Unmarshal (JObj [("schema", v)])
            (default zero (SchemaXORContent_HasSchema zero)))
    with (HasSchema_UnmarshalJSON zero (JObj [("schema", v)])).
  change (json_Unmarshal (JObj [("schema", v)])
            (default zero (SchemaXORContent_HasContent zero)))
    with (HasContent_UnmarshalJSON zero (JObj [("schema", v)])).
  rewrite Hhs, Hhc. reflexivity.
Qed.

Lemma SchemaXORContent_decode_content (v : json) :
  number_error v = None →
  SchemaXORContent_UnmarshalJSON zero (JObj [("content", v)])
  = (mkSchemaXORContent None (Some (mkHasContent (canon v))), None).
Proof.
  intros Hn.
  assert (numbers_fit [("content", v)]) as Hfit by (by repeat constructor).
  assert (HasContent_UnmarshalJSON zero (JObj [("content", v)])
          = (mkHasContent (canon v), None)) as Hhc.
  { unfold HasContent_UnmarshalJSON.
    assert (json_Unmarshal_struct "openapi3.marshalHasContent"
              marshalHasContent_fields (JObj [("content", v)])
              (zero : HasContent) = (mkHasContent (canon v), None)) as ->.
    { apply json_Unmarshal_struct_JObj.
      etrans; [eapply unmarshal_members_found;
               [reflexivity|apply (interface_Unmarshal_fits _ _ Hn)]|].
      reflexivity. }
    reflexivity. }
  pose proof (HasSchema_UnmarshalJSON_err zero _ Hfit) as Hhs.
  pose proof (SchemaXORContentNot_UnmarshalJSON_err zero _ Hfit) as Hnot.
  unfold SchemaXORContent_UnmarshalJSON.
  change (json_Unmarshal (JObj [("content", v)]) (zero : SchemaXORContentNot))
    with (SchemaXORContentNot_UnmarshalJSON zero (JObj [("content", v)])).
  rewrite Hnot. unfold oneOf_arm. rewrite !ptr_Unmarshal_JObj.
  change (json_Unmarshal (JObj [("content", v)])
            (default zero (SchemaXORContent_HasSchema zero)))
    with (HasSchema_UnmarshalJSON zero (JObj [("content", v)])).
  change (json_Unmarshal (JObj [("content", v)])
            (default zero (SchemaXORContent_HasContent zero)))
    with (HasContent_UnmarshalJSON zero (JObj [("content", v)])).
  rewrite Hhs, Hhc. reflexivity.
Qed.

(** X5: a [SchemaXORContent] with one arm set, holding a value as the
    decoder produces it and that is written without escapes, is written as
    the one member of that arm, and that document is decoded, into the zero
    value, to the same node. *)
Theorem SchemaXORContent_roundtrip (v : json) :
  stable v →
  (let s := mkSchemaXORContent (Some (mkHasSchema v)) None in
   SchemaXORContent_MarshalJSON s = Done (print (JObj [("schema", v)]))
   ∧ SchemaXORContent_UnmarshalJSON zero (JObj [("schema", v)]) = (s, None))
  ∧ (let s := mkSchemaXORContent None (Some (mkHasContent v)) in
     SchemaXORContent_MarshalJSON s = Done (print (JObj [("content", v)]))
     ∧ SchemaXORContent_UnmarshalJSON zero (JObj [("content", v)])
       = (s, None)).
Proof.
  intros (Hv & Hn & He). split; (split; [|]).
  - apply (marshalUnion_pair_skip _ _ (quote "schema" +:+ ":" +:+ print v)
             "null"); [|done|done|by right].
    rewrite <- He. reflexivity.
  - by rewrite (SchemaXORContent_decode_schema _ Hn), Hv.
  - unfold SchemaXORContent_MarshalJSON, marshalUnion.
    change ([Iface (SchemaXORContent_HasSchema _); ?m])
      with ([] ++ Iface (None : option HasSchema) :: [m]).
    rewrite (loop_skip_middle _ _ [] _ _ "null"); [|done|by right].
    apply (marshalUnion_objects [_] [quote "content" +:+ ":" +:+ print v]);
      [done|]. constructor; [|constructor]. split; [|done].
    rewrite <- He. reflexivity.
  - by rewrite (SchemaXORContent_decode_content _ Hn), Hv.
Qed.

Lemma SchemaXORContent_roundtrip_witness :
  let v := JObj [("type", JStr "string")] in
  stable v
  ∧ SchemaXORContent_UnmarshalJSON zero (JObj [("schema", v)])
    = (mkSchemaXORContent (Some (mkHasSchema v)) None, None).
Proof.
  cbv zeta. split; [by repeat split|].
  apply (SchemaXORContent_roundtrip (JObj [("type", JStr "string")])).
  by repeat split.
Defined.

(** ** The query arm *)

(** X6: the query arm takes a payload exactly when its struct is decoded and
    [in] is absent or holds the literal; unlike the path arm it asks for no
    key, so the empty object is taken.  An arm whose style is one of the
    enumeration is written as the constant followed by the style and read
    back to itself. *)
Theorem QueryParameter_accepts :
  (∀ q data,
     (QueryParameter_UnmarshalJSON q data).2 = None
     ↔ (json_Unmarshal_struct "openapi3.marshalQueryParameter"
          marshalQueryParameter_fields data q).2 = None
       ∧ const_ok "in" (quote "query") (rawMap_of data))
  ∧ (∀ q, QueryParameter_UnmarshalJSON q (JObj []) = (q, None))
  ∧ (∀ q, QueryParameter_valid q →
       QueryParameter_MarshalJSON q = Done (print (QueryParameter_doc q))
       ∧ QueryParameter_UnmarshalJSON zero (QueryParameter_doc q) = (q, None)).
Proof.
  split; [|split].
  - intros q data. unfold QueryParameter_UnmarshalJSON.
    rewrite <- check_const_None.
    destruct (json_Unmarshal_struct "openapi3.marshalQueryParameter"
                marshalQueryParameter_fields data q) as [mq [e|]]; simpl.
    { split; [done|by intros [? _]]. }
    destruct (check_const "in" _ _) as [e|]; simpl.
    + split; [done|by intros [_ ?]].
    + split; [done|]. by intros [? ?].
  - by intros [q].
  - intros [[[s]|]] Hv; [|by split; vm_compute].
    destruct (QueryParameterStyle_known_cases s (Hv s eq_refl))
      as [->|[->|[->| ->]]]; by split; vm_compute.
Qed.

(** ** SchemaReference *)

Section SchemaReferenceProperties.
Context {RO : RangeOrder}.

(** X7: a schema reference is written as its one member [$ref], the string
    with the escapes of [json.Marshal], and the document of the one member
    [$ref] is read back to the reference; a payload that has any other key,
    an [x-] key included, is refused and the receiver, a struct of one
    string, is left as it was. *)
Theorem SchemaReference_strict :
  (∀ s r,
     json_Marshal (mkSchemaReference r)
     = Done ("{" +:+ quote "$ref" +:+ ":" +:+ json_string r +:+ "}")
     ∧ (plain r →
        json_Marshal (mkSchemaReference r)
        = Done (print (JObj [("$ref", JStr r)])))
     ∧ SchemaReference_UnmarshalJSON s (JObj [("$ref", JStr r)])
       = (mkSchemaReference r, None))
  ∧ (∀ s kvs key,
       key ∈ kvs.*1 → key ≠ "$ref" →
       ∃ e, SchemaReference_UnmarshalJSON s (JObj kvs) = (s, Some e)).
Proof.
  split.
  - intros s r. split; [reflexivity|].
    split.
    { intros Hr. unfold plain in Hr.
      change (print (JObj [("$ref", JStr r)]))
        with ("{" +:+ quote "$ref" +:+ ":" +:+ quote r +:+ "}").
      rewrite <- Hr. reflexivity. }
    unfold SchemaReference_UnmarshalJSON.
    cbn [json_Unmarshal_struct decode_members].
    change (find_field marshalSchemaReference_fields "$ref")
      with (Some (Field "$ref" false SchemaReference_Ref
                    (fun x (_ : marshalSchemaReference) => mkSchemaReference x))).
    cbn. rewrite (proj2 (additional_properties_None "SchemaReference" _));
      [done|].
    by rewrite delete_insert_eq, delete_empty.
  - intros s kvs key Hin Hne. unfold SchemaReference_UnmarshalJSON.
    destruct (json_Unmarshal_struct "openapi3.marshalSchemaReference"
                marshalSchemaReference_fields (JObj kvs) s) as [ms [e|]];
      [by eexists|].
    destruct (require_keys _ _) as [e|]; [by eexists|].
    rewrite additional_properties_Some; [by eexists|].
    intros He. apply (f_equal (.!! key)) in He.
    rewrite delete_keys_lookup, lookup_empty, rawMap_of_JObj in He.
    rewrite bool_decide_eq_false_2 in He.
    + by apply to_map_lookup_None in He.
    + by intros ->%list_elem_of_singleton.
Qed.

End SchemaReferenceProperties.

(** ** More on the union merge *)

Lemma marshalUnion_raw_objects (bodies : list string) :
  Forall (fun b => b ≠ EmptyString) bodies →
  marshal_objects (raws (object_of <$> bodies)) bodies.
Proof.
  induction 1 as [|b bodies Hb _ IH]; [constructor|].
  constructor; [done|apply IH].
Qed.

(** X8: merging is flat.  For fragments that marshal to objects with
    members, merging two lists one after the other gives what merging the
    two merged results gives: a node can hand a nested union to
    [marshalUnion] as one fragment. *)
Theorem marshalUnion_flatten maps1 maps2 bodies1 bodies2 :
  bodies1 ≠ [] → bodies2 ≠ [] →
  marshal_objects maps1 bodies1 → marshal_objects maps2 bodies2 →
  ∃ r1 r2,
    marshalUnion maps1 = Done r1 ∧ marshalUnion maps2 = Done r2
    ∧ marshalUnion (maps1 ++ maps2) = marshalUnion (raws [r1; r2])
    ∧ marshalUnion (raws [r1]) = Done r1.
Proof.
  intros Hn1 Hn2 H1 H2.
  assert (∀ bodies maps, bodies ≠ [] → marshal_objects maps bodies →
            join "," bodies ≠ EmptyString) as Hj.
  { intros [|b bodies] maps Hn Hm; [done|].
    apply join_nonempty. inversion Hm as [|???? [_ Hb]]; by subst. }
  exists (object_of (join "," bodies1)), (object_of (join "," bodies2)).
  split; [by apply marshalUnion_objects|].
  split; [by apply marshalUnion_objects|]. split.
  - rewrite (marshalUnion_objects (maps1 ++ maps2) (bodies1 ++ bodies2)).
    + rewrite (marshalUnion_objects _ [join "," bodies1; join "," bodies2]).
      * by rewrite join_app.
      * done.
      * repeat constructor; eauto.
    + by destruct bodies1.
    + by apply Forall2_app.
  - apply (marshalUnion_objects _ [join "," bodies1]); [done|].
    repeat constructor; eauto.
Qed.

Lemma marshalUnion_flatten_witness :
  ∃ r1 r2,
    marshalUnion (raws ["{" +:+ quote "a" +:+ ":1}"]) = Done r1
    ∧ marshalUnion (raws ["{" +:+ quote "b" +:+ ":2}"]) = Done r2
    ∧ marshalUnion (raws ["{" +:+ quote "a" +:+ ":1}"]
                    ++ raws ["{" +:+ quote "b" +:+ ":2}"])
      = marshalUnion (raws [r1; r2])
    ∧ marshalUnion (raws [r1]) = Done r1.
Proof.
  apply (marshalUnion_flatten _ _ [quote "a" +:+ ":1"] [quote "b" +:+ ":2"]);
    try done; repeat constructor; done.
Defined.

(** X9: the error of [json.Marshal] on a fragment is returned as it is, and
    the fragments after it are not looked at, when the fragments before it
    have been merged without a conflict. *)
Theorem marshalUnion_first_error pre m e post acc :
  accumulator pre = Some acc →
  json_Marshal_iface m = Failed e →
  marshalUnion (pre ++ m :: post) = Failed e.
Proof.
  intros Hacc Hm. unfold marshalUnion, accumulator in *.
  rewrite loop_app, Hacc. destruct acc as [result isObject].
  rewrite loop_cons. by rewrite Hm.
Qed.

(** ** What a successful decoding has checked *)

Lemma bytes_app_inj_r s t u : s +:+ u = t +:+ u → s = t.
Proof.
  revert t. induction s as [|a s IH]; intros [|b t] H.
  - done.
  - apply (f_equal String.length) in H.
    rewrite bytes_app_nil_l, bytes_app_cons in H. simpl in H.
    rewrite bytes_length_app in H. lia.
  - apply (f_equal String.length) in H.
    rewrite bytes_app_nil_l, bytes_app_cons in H. simpl in H.
    rewrite bytes_length_app in H. lia.
  - rewrite !bytes_app_cons in H. injection H as -> H. f_equal. by apply IH.
Qed.

Lemma quote_inj s t : quote s = quote t → s = t.
Proof.
  unfold quote, dq. rewrite !bytes_app_cons, !bytes_app_nil_l.
  intros [= H]. by apply bytes_app_inj_r in H.
Qed.

Lemma PathParameter_accepted_in p data :
  (PathParameter_UnmarshalJSON p data).2 = None →
  const_ok "in" (quote "path") (rawMap_of data).
Proof.
  unfold PathParameter_UnmarshalJSON. rewrite <- check_const_None.
  destruct (json_Unmarshal_struct "openapi3.marshalPathParameter"
              marshalPathParameter_fields data p) as [mp [e|]]; [done|].
  destruct (require_keys _ _); [done|].
  by destruct (check_const "in" _ _).
Qed.

Lemma QueryParameter_accepted_in q data :
  (QueryParameter_UnmarshalJSON q data).2 = None →
  const_ok "in" (quote "query") (rawMap_of data).
Proof.
  unfold QueryParameter_UnmarshalJSON. rewrite <- check_const_None.
  destruct (json_Unmarshal_struct "openapi3.marshalQueryParameter"
              marshalQueryParameter_fields data q) as [mq [e|]]; [done|].
  by destruct (check_const "in" _ _).
Qed.

Lemma HeaderParameter_accepted_in h data :
  (HeaderParameter_UnmarshalJSON h data).2 = None →
  const_ok "in" (quote "header") (rawMap_of data).
Proof.
  unfold HeaderParameter_UnmarshalJSON. rewrite <- check_const_None.
  by destruct (check_const "in" _ _).
Qed.

Lemma CookieParameter_accepted_in c data :
  (CookieParameter_UnmarshalJSON c data).2 = None →
  const_ok "in" (quote "cookie") (rawMap_of data).
Proof.
  unfold CookieParameter_UnmarshalJSON. rewrite <- check_const_None.
  by destruct (check_const "in" _ _).
Qed.

(** An arm that is set after the decoding has taken the payload. *)
Lemma arm_value_is_Some {T} `{Codec T} kvs (arm : option T) :
  is_Some (arm_value (json_Unmarshal (JObj kvs) arm)) →
  (json_Unmarshal (JObj kvs) (default zero arm)).2 = None.
Proof.
  unfold arm_value. rewrite ptr_Unmarshal_JObj. simpl.
  destruct (json_Unmarshal (JObj kvs) (default zero arm)).2; [|done].
  by intros [? ?].
Qed.

Lemma bucket_after_contents_union mapOfAnything (σ : mapstore)
    (ext : gmap string json) :
  bucket_contents (bucket_after mapOfAnything σ ext).2
    (bucket_after mapOfAnything σ ext).1
  = ext ∪ bucket_contents σ mapOfAnything.
Proof.
  unfold bucket_after. destruct (decide (ext = ∅)) as [->|Hne].
  { by rewrite (left_id ∅ (∪)). }
  unfold bucket_contents, make_map.
  destruct mapOfAnything as [l|]; simpl; by rewrite !lookup_insert_eq.
Qed.

Section NodeProperties.
Context {RO : RangeOrder} {N : Nested}.

(** X11: a successful decoding of a [Spec] adds the [x-] members of the
    payload to the bucket the receiver had: they replace the entries under
    the same keys and the other entries stay.  A receiver that had a map
    keeps that map; without [x-] members nothing is allocated or written. *)
Theorem Spec_decode_merges_bucket (s : Spec) data (σ : mapstore) :
  (Spec_UnmarshalJSON s data σ).2 = None →
  let s' := (Spec_UnmarshalJSON s data σ).1.1 in
  let σ' := (Spec_UnmarshalJSON s data σ).1.2 in
  bucket_contents σ' (Spec_MapOfAnything s')
  = extension_entries (rawMap_of data) ∪ bucket_contents σ (Spec_MapOfAnything s)
  ∧ (∀ l, Spec_MapOfAnything s = Some l → Spec_MapOfAnything s' = Some l)
  ∧ (extension_entries (rawMap_of data) = ∅ →
     Spec_MapOfAnything s' = Spec_MapOfAnything s ∧ σ' = σ).
Proof.
  intros Hok. pose proof Hok as (ms & Hs & Hr & Hrest)%Spec_UnmarshalJSON_ok.
  pose proof (Spec_UnmarshalJSON_decodes _ _ _ Hok) as Hdec.
  cbv zeta. rewrite (Spec_UnmarshalJSON_spec _ _ _ _ Hs Hdec), Hr. cbv zeta.
  rewrite Hrest, (proj2 (additional_properties_None "Spec" ∅)) by done.
  cbn [fst snd].
  assert (∀ x, Spec_MapOfAnything (set_Spec_MapOfAnything x ms) = x) as ->
    by (by intros x; destruct ms).
  split; [apply bucket_after_contents_union|]. split.
  - intros l Hl. by destruct (bucket_after_ref _ σ
                                (extension_entries (rawMap_of data)) _ Hl).
  - intros ->. unfold bucket_after. by rewrite decide_True.
Qed.

Lemma marshalParameter_member_In key v (p : marshalParameter) :
  key ∈ knownKeysParameter ∨ regexX_MatchString key = true →
  match find_field marshalParameter_fields key with
  | None => True
  | Some f =>
      (json_Unmarshal (Codec := fcodec f) v (fget f p)).2 = None →
      if decide (key = "in")
      then ∃ s, v = JStr s
                ∧ Parameter_In
                    (fset f (json_Unmarshal (Codec := fcodec f) v (fget f p)).1
                       p) = ParameterIn_of s
      else Parameter_In
             (fset f (json_Unmarshal (Codec := fcodec f) v (fget f p)).1 p)
           = Parameter_In p
  end.
Proof.
  intros [Hk|Hx].
  - unfold knownKeysParameter in Hk.
    repeat (apply elem_of_cons in Hk as [->|Hk]);
      try (by destruct p); try (by apply elem_of_nil in Hk).
    simpl. destruct v as [|b|lit|s|l|kvs]; try done.
    unfold ParameterIn_UnmarshalJSON. simpl.
    destruct (ParameterIn_known s); [|done]. intros _. exists s. by destruct p.
  - by rewrite marshalParameter_extension_key.
Qed.

Lemma marshalParameter_members_In kvs (p mp : marshalParameter) :
  unmarshal_members marshalParameter_fields kvs p = (mp, None) →
  Forall (fun key => key ∈ knownKeysParameter ∨ regexX_MatchString key = true)
         kvs.*1 →
  match to_map kvs !! "in" with
  | None => Parameter_In mp = Parameter_In p
  | Some v => ∃ s, v = JStr s ∧ Parameter_In mp = ParameterIn_of s
  end.
Proof.
  revert p. induction kvs as [|[key v] kvs IH]; intros p Hm Hkeys.
  { simpl in Hm. by injection Hm as ->. }
  simpl in Hkeys. apply Forall_cons in Hkeys as [Hkey Hkeys].
  rewrite to_map_cons_lookup. simpl in Hm.
  pose proof (marshalParameter_member_In key v p Hkey) as Hstep.
  destruct (find_field marshalParameter_fields key) as [f|] eqn:Hf.
  - destruct (json_Unmarshal v (fget f p)) as [x [e|]]; [done|].
    simpl in Hstep. specialize (Hstep eq_refl).
    pose proof (IH _ Hm Hkeys) as Hrest.
    destruct (to_map kvs !! "in") as [x'|]; [done|].
    destruct (decide (key = "in")) as [->|Hne].
    + destruct Hstep as (s & -> & Hin). exists s. split; [done|]. congruence.
    + congruence.
  - pose proof (IH _ Hm Hkeys) as Hrest.
    destruct (to_map kvs !! "in") as [x'|]; [done|].
    destruct (decide (key = "in")) as [->|Hne]; [|done].
    exfalso. apply (f_equal (fmap fname)) in Hf. by vm_compute in Hf.
Qed.

Lemma Parameter_decoded_In_Location (p : Parameter_) data (σ : mapstore)
    kvs mp x l :
  (Parameter_UnmarshalJSON p data σ).1.1
  = set_Parameter_MapOfAnything
      (bucket_after (Parameter_MapOfAnything p) σ
         (extension_entries (to_map kvs))).1
      (present_null_Example
         (set_Parameter_Location l (set_Parameter_SchemaXORContent x mp))
         (to_map kvs)) →
  Parameter_In (Parameter_UnmarshalJSON p data σ).1.1 = Parameter_In mp
  ∧ Parameter_Location (Parameter_UnmarshalJSON p data σ).1.1 = l.
Proof.
  intros ->. unfold present_null_Example.
  destruct mp as [? ? ? ? ? ? ? ? ? ? ? ex ? ? ? ?]. simpl.
  destruct ex; [done|]. by destruct (to_map kvs !! "example").
Qed.

Lemma HasSchema_accepted h kvs :
  (HasSchema_UnmarshalJSON h (JObj kvs)).2 = None →
  is_Some (to_map kvs !! "schema").
Proof.
  unfold HasSchema_UnmarshalJSON.
  destruct (json_Unmarshal_struct _ _ _ _) as [mh [e|]]; [done|].
  rewrite rawMap_of_JObj.
  destruct (require_keys _ _) eqn:Hr; [done|]. intros _.
  apply require_keys_None in Hr. by apply Forall_cons in Hr as [? _].
Qed.

Lemma HasContent_accepted h kvs :
  (HasContent_UnmarshalJSON h (JObj kvs)).2 = None →
  is_Some (to_map kvs !! "content").
Proof.
  unfold HasContent_UnmarshalJSON.
  destruct (json_Unmarshal_struct _ _ _ _) as [mh [e|]]; [done|].
  rewrite rawMap_of_JObj.
  destruct (require_keys _ _) eqn:Hr; [done|]. intros _.
  apply require_keys_None in Hr. by apply Forall_cons in Hr as [? _].
Qed.

(** A payload that the exclusivity group takes has been taken by one of its
    two arms. *)
Lemma SchemaXORContent_accepted s kvs :
  (SchemaXORContent_UnmarshalJSON s (JObj kvs)).2 = None →
  is_Some (to_map kvs !! "schema") ∨ is_Some (to_map kvs !! "content").
Proof.
  unfold SchemaXORContent_UnmarshalJSON.
  destruct (json_Unmarshal (JObj kvs) (zero : SchemaXORContentNot)).2;
    [|done].
  unfold oneOf_arm. rewrite !ptr_Unmarshal_JObj.
  change (json_Unmarshal (JObj kvs) (default zero (SchemaXORContent_HasSchema s)))
    with (HasSchema_UnmarshalJSON (default zero (SchemaXORContent_HasSchema s))
            (JObj kvs)).
  change (json_Unmarshal (JObj kvs) (default zero (SchemaXORContent_HasContent s)))
    with (HasContent_UnmarshalJSON
            (default zero (SchemaXORContent_HasContent s)) (JObj kvs)).
  pose proof (HasSchema_accepted (default zero (SchemaXORContent_HasSchema s))
                kvs) as H1.
  pose proof (HasContent_accepted
                (default zero (SchemaXORContent_HasContent s)) kvs) as H2.
  destruct (HasSchema_UnmarshalJSON _ _) as [hs [e1|]];
    destruct (HasContent_UnmarshalJSON _ _) as [hc [e2|]]; simpl;
    try done; intros _; auto.
Qed.

(** X12: what a successful decoding of a [Parameter] has checked: the
    payload is an object that has [name] and [in], at least one of [schema]
    and [content], exactly one of them when every number of the payload is
    one that float64 can hold, and no key besides the known ones and those
    that match [^x-]. *)
Theorem Parameter_decode_sound (p : Parameter_) data (σ : mapstore) :
  (Parameter_UnmarshalJSON p data σ).2 = None →
  ∃ kvs,
    data = JObj kvs
    ∧ is_Some (to_map kvs !! "name") ∧ is_Some (to_map kvs !! "in")
    ∧ (is_Some (to_map kvs !! "schema") ∨ is_Some (to_map kvs !! "content"))
    ∧ (numbers_fit kvs →
       (is_Some (to_map kvs !! "schema") ↔ to_map kvs !! "content" = None))
    ∧ Forall (fun key => key ∈ knownKeysParameter
                         ∨ regexX_MatchString key = true) kvs.*1.
Proof.
  intros (kvs & mp & x & l & -> & Hs & Hx & Hl & Hr & Hrest & _)
    %Parameter_UnmarshalJSON_ok.
  exists kvs. split; [done|].
  apply require_keys_None in Hr.
  apply Forall_cons in Hr as [Hname Hr]. apply Forall_cons in Hr as [Hin _].
  split; [done|]. split; [done|].
  rewrite ptr_Unmarshal_JObj in Hx. apply (f_equal snd) in Hx. simpl in Hx.
  split; [by apply (SchemaXORContent_accepted _ _ Hx)|].
  split; [|by apply unconsumed_empty_keys].
  intros Hfit. by apply SchemaXORContent_UnmarshalJSON_err in Hx.
Qed.

(** X13: after a successful decoding of a [Parameter] the field [In] and the
    location agree: the location has exactly one arm set, and it is the arm
    that the value of [In] names. *)
Theorem Parameter_In_names_Location (p : Parameter_) data (σ : mapstore) :
  (Parameter_UnmarshalJSON p data σ).2 = None →
  ∃ s l,
    Parameter_In (Parameter_UnmarshalJSON p data σ).1.1 = ParameterIn_of s
    ∧ Parameter_Location (Parameter_UnmarshalJSON p data σ).1.1 = Some l
    ∧ arms_set l = 1
    ∧ (is_Some (ParameterLocation_PathParameter l) → s = "path")
    ∧ (is_Some (ParameterLocation_QueryParameter l) → s = "query")
    ∧ (is_Some (ParameterLocation_HeaderParameter l) → s = "header")
    ∧ (is_Some (ParameterLocation_CookieParameter l) → s = "cookie").
Proof.
  intros (kvs & mp & x & l & -> & Hs & Hx & Hl & Hr & Hrest & Hres)
    %Parameter_UnmarshalJSON_ok.
  apply Parameter_decoded_In_Location in Hres as [-> ->].
  pose proof (marshalParameter_members_In _ _ _ Hs
                (unconsumed_empty_keys _ _ Hrest)) as Hin.
  apply require_keys_None in Hr.
  apply Forall_cons in Hr as [_ Hr]. apply Forall_cons in Hr as [[v Hv] _].
  rewrite Hv in Hin. destruct Hin as (s & -> & Hin).
  rewrite ptr_Unmarshal_JObj in Hl. injection Hl as <- Hl.
  set (l0 := default zero (Parameter_Location p)) in *.
  change (json_Unmarshal (JObj kvs) l0)
    with (ParameterLocation_UnmarshalJSON l0 (JObj kvs)) in *.
  exists s, (ParameterLocation_UnmarshalJSON l0 (JObj kvs)).1.
  split; [done|]. split; [done|].
  split; [by apply ParameterLocation_UnmarshalJSON_one_arm|].
  assert (∀ name, const_ok "in" (quote name) (rawMap_of (JObj kvs)) →
                  s = name) as Hname.
  { intros name Hc. symmetry. apply quote_inj. symmetry.
    by apply (Hc (JStr s)). }
  rewrite ParameterLocation_UnmarshalJSON_spec. cbv zeta. cbn [fst].
  cbn [ParameterLocation_PathParameter ParameterLocation_QueryParameter
       ParameterLocation_HeaderParameter ParameterLocation_CookieParameter].
  split; [|split; [|split]]; intros Harm%arm_value_is_Some; apply Hname.
  - exact (PathParameter_accepted_in _ _ Harm).
  - exact (QueryParameter_accepted_in _ _ Harm).
  - exact (HeaderParameter_accepted_in _ _ Harm).
  - exact (CookieParameter_accepted_in _ _ Harm).
Qed.

Lemma ptr_interface_fits (v : json) (p : option json) :
  number_error v = None →
  json_Unmarshal v p
  = (match v with JNull => None | _ => Some (canon v) end, None).
Proof.
  intros Hn.
  assert (json_Unmarshal v p
          = match v with
            | JNull => (None, None)
            | _ => let '(x, err) := json_Unmarshal v (default zero p) in
                   (Some x, err)
            end) as -> by (by destruct v).
  rewrite (interface_Unmarshal_fits _ _ Hn). by destruct v.
Qed.

Lemma extension_entries_none (kvs : list (string * json)) :
  forallb (fun key => negb (regexX_MatchString key)) kvs.*1 = true →
  extension_entries (to_map kvs) = ∅.
Proof.
  intros Hall. apply map_eq. intros key.
  rewrite extension_entries_lookup, lookup_empty.
  destruct (regexX_MatchString key) eqn:Hx; [|done].
  assert (to_map kvs !! key = None) as ->; [|done].
  apply to_map_lookup_None. intros Hin.
  rewrite forallb_forall in Hall. apply list_elem_of_In, Hall in Hin.
  by rewrite Hx in Hin.
Qed.

Lemma unconsumed_none knownKeys (kvs : list (string * json)) :
  forallb (fun key => bool_decide (key ∈ knownKeys)) kvs.*1 = true →
  unconsumed knownKeys (to_map kvs) = ∅.
Proof.
  intros Hall. apply map_eq. intros key.
  rewrite unconsumed_lookup, lookup_empty.
  destruct (regexX_MatchString key); [done|].
  case_bool_decide as Hk; [done|].
  apply to_map_lookup_None. intros Hin.
  rewrite forallb_forall in Hall. apply list_elem_of_In, Hall in Hin.
  by apply bool_decide_eq_true in Hin.
Qed.

(** The decoding of a payload of known keys, once the struct and the two
    embedded unions are decoded. *)
Lemma Parameter_UnmarshalJSON_known (σ : mapstore) kvs mp x l :
  json_Unmarshal_struct "openapi3.marshalParameter" marshalParameter_fields
    (JObj kvs) Parameter_zero = (mp, None) →
  json_Unmarshal (JObj kvs) (None : option SchemaXORContent) = (x, None) →
  json_Unmarshal (JObj kvs) (None : option ParameterLocation) = (l, None) →
  forallb (fun key => bool_decide (key ∈ requireKeysParameter))
    requireKeysParameter = true →
  forallb (fun key => bool_decide (key ∈ kvs.*1)) requireKeysParameter
  = true →
  forallb (fun key => negb (regexX_MatchString key)) kvs.*1 = true →
  forallb (fun key => bool_decide (key ∈ knownKeysParameter)) kvs.*1 = true →
  Parameter_UnmarshalJSON Parameter_zero (JObj kvs) σ
  = (set_Parameter_MapOfAnything None
       (present_null_Example
          (set_Parameter_Location l (set_Parameter_SchemaXORContent x mp))
          (to_map kvs)), σ, None).
Proof.
  intros Hs Hx Hl _ Hreq Hnox Hknown.
  pose proof (extension_entries_none kvs Hnox) as Hext.
  assert (bucket_decodes (rawMap_of (JObj kvs))) as Hdec.
  { intros key v' Hk Hx'. apply (f_equal (.!! key)) in Hext.
    rewrite rawMap_of_JObj in Hk.
    rewrite extension_entries_lookup, Hx', Hk, lookup_empty in Hext.
    done. }
  rewrite (Parameter_UnmarshalJSON_spec _ _ _ _ _ _ Hs Hx Hl Hdec).
  rewrite rawMap_of_JObj, Hext.
  rewrite (unconsumed_none knownKeysParameter kvs) by done.
  assert (require_keys requireKeysParameter (to_map kvs) = None) as ->.
  { apply require_keys_None, Forall_forall. intros key Hin.
    apply to_map_lookup_is_Some.
    rewrite forallb_forall in Hreq. apply list_elem_of_In, Hreq in Hin.
    by apply bool_decide_eq_true in Hin. }
  cbv zeta.
  rewrite (proj2 (additional_properties_None "Parameter" ∅)) by done.
  unfold bucket_after. by rewrite decide_True.
Qed.

(** The bytes of a parameter with a name, a location in the query, an
    empty [content] and the members [ex] of its example. *)
Lemma query_parameter_bytes (σ : mapstore) (ex : option json) :
  Parameter_MarshalJSON (query_parameter ex) σ
  = Done ("{" +:+ join ","
                    ([quote "name" +:+ ":" +:+ quote "q";
                      quote "in" +:+ ":" +:+ quote "query"]
                     ++ example_member ex
                     ++ [quote "content" +:+ ":{}";
                         quote "in" +:+ ":" +:+ quote "query"])
          +:+ "}").
Proof.
  unfold Parameter_MarshalJSON, marshalUnion.
  match goal with
  | |- marshalUnion_loop _ _ [?m1; ?m2; ?m3; ?m4] = _ =>
      change [m1; m2; m3; m4] with ([m1] ++ m2 :: [m3; m4]);
      rewrite (loop_skip_middle _ _ [m1] m2 [m3; m4] "null");
        [|reflexivity|by right];
      change (marshalUnion_loop EmptyString false ([m1] ++ [m3; m4]))
        with (marshalUnion [m1; m3; m4])
  end.
  rewrite (marshalUnion_objects _
             [join "," ([quote "name" +:+ ":" +:+ quote "q";
                         quote "in" +:+ ":" +:+ quote "query"]
                        ++ example_member ex);
              quote "content" +:+ ":{}";
              quote "in" +:+ ":" +:+ quote "query"]);
    [|done|].
  - f_equal. unfold object_of.
    destruct ex as [c|]; cbn [example_member app join];
      by rewrite ?bytes_app_assoc.
  - cbn [app].
    apply Forall2_cons; split.
    { split; [|by destruct ex].
      destruct ex as [c|]; vm_compute; reflexivity. }
    repeat (apply Forall2_cons; split;
            [split; [vm_compute; reflexivity|done]|]).
    apply Forall2_nil_2.
Qed.

(** C8: the three states of [Parameter.Example].  The decoding leaves the
    field as it was when the payload has no [example] key (nil for a fresh
    receiver), sets it to a pointer to the nil value for [null], and to the
    value otherwise; the encoder writes no member for nil, [null] for the
    pointer to nil and the value otherwise, among the members of the other
    fields, none of which is named [example], at the front of the output.
    On the payloads [{"name":"q","in":"query","content":{}}] without and
    with an [example] member, decoding into the zero value succeeds, and
    encoding what was decoded writes the payload back with no [example]
    member, with [null], or with the value as [json.Marshal] writes it,
    followed by the constant of the location. *)
Theorem Parameter_Example_tristate :
  (∀ (p : Parameter_) data (σ : mapstore),
     (Parameter_UnmarshalJSON p data σ).2 = None →
     Parameter_Example (Parameter_UnmarshalJSON p data σ).1.1
     = match rawMap_of data !! "example" with
       | None => Parameter_Example p
       | Some JNull => Some JNull
       | Some v => Some (canon v)
       end)
  ∧ (∀ (p : Parameter_) (σ : mapstore) b,
       Parameter_MarshalJSON p σ = Done b →
       ∃ pre post rest,
         b = "{" +:+ join "," (pre ++ example_member (Parameter_Example p)
                               ++ post) +:+ rest
         ∧ Forall (fun m => ∃ name rest,
                     name ≠ "example" ∧ m = quote name +:+ ":" +:+ rest)
                  (pre ++ post))
  ∧ example_member None = []
  ∧ example_member (Some JNull) = [quote "example" +:+ ":null"]
  ∧ (∀ v, example_member (Some v) = [quote "example" +:+ ":" +:+ encode v])
  ∧ (∀ (σ : mapstore),
       Parameter_UnmarshalJSON Parameter_zero
         (JObj [("name", JStr "q"); ("in", JStr "query");
                ("content", JObj [])]) σ
       = (query_parameter None, σ, None)
       ∧ Parameter_Example (query_parameter None) = None
       ∧ Parameter_MarshalJSON (query_parameter None) σ
         = Done ("{" +:+ quote "name" +:+ ":" +:+ quote "q" +:+ ","
                 +:+ quote "in" +:+ ":" +:+ quote "query" +:+ ","
                 +:+ quote "content" +:+ ":{},"
                 +:+ quote "in" +:+ ":" +:+ quote "query" +:+ "}"))
  ∧ (∀ (σ : mapstore) v,
       number_error v = None →
       Parameter_UnmarshalJSON Parameter_zero
         (JObj [("name", JStr "q"); ("in", JStr "query"); ("example", v);
                ("content", JObj [])]) σ
       = (query_parameter (Some (canon v)), σ, None)
       ∧ Parameter_Example (query_parameter (Some (canon v)))
         = Some (canon v)
       ∧ Parameter_MarshalJSON (query_parameter (Some (canon v))) σ
         = Done ("{" +:+ quote "name" +:+ ":" +:+ quote "q" +:+ ","
                 +:+ quote "in" +:+ ":" +:+ quote "query" +:+ ","
                 +:+ quote "example" +:+ ":" +:+ encode (canon v) +:+ ","
                 +:+ quote "content" +:+ ":{},"
                 +:+ quote "in" +:+ ":" +:+ quote "query" +:+ "}")).
Proof.
  split; [|split; [|split; [done|split; [done|split; [done|split]]]]].
  - intros p data σ Hok.
    destruct (Parameter_UnmarshalJSON_ok _ _ _ Hok)
      as (kvs & mp & x & l & -> & Hs & _ & _ & _ & Hrest & ->).
    rewrite rawMap_of_JObj.
    assert (∀ b mp', Parameter_Example (set_Parameter_MapOfAnything b mp')
                     = Parameter_Example mp') as -> by (by intros ? []).
    rewrite present_null_Example_spec.
    assert (Parameter_Example
              (set_Parameter_Location l (set_Parameter_SchemaXORContent x mp))
            = Parameter_Example mp) as -> by (by destruct mp).
    rewrite (marshalParameter_members_Example _ _ _ Hs
               (unconsumed_empty_keys _ _ Hrest)).
    destruct (to_map kvs !! "example") as [[]|]; try done.
    by destruct (Parameter_Example p).
  - intros p σ b. unfold Parameter_MarshalJSON, marshalUnion.
    rewrite loop_cons. cbn [json_Marshal_iface].
    change (json_Marshal (Marshaler := json_Marshal_struct marshalParameter_fields)
              (p : marshalParameter))
      with (json_Marshal_struct marshalParameter_fields p).
    destruct (json_Marshal_struct marshalParameter_fields p) as [j| |] eqn:Hj;
      [|done..].
    apply marshalParameter_bytes in Hj as (pre & post & -> & Hne & Hnames).
    rewrite step_object_first by done. intros Hloop.
    unfold object_of in Hloop. rewrite <- bytes_app_assoc in Hloop.
    apply loop_prefix in Hloop as [rest ->]; [|by destruct (join _ _)|done].
    exists pre, post, rest. by rewrite bytes_app_assoc.
  - intros σ. split; [|split; [done|]].
    + by rewrite (Parameter_UnmarshalJSON_known σ _
                    (mkParameter "q" (ParameterIn_of "query") None None None
                       None None None None None (Some ∅) None None None None
                       None)
                    (Some (mkSchemaXORContent None
                             (Some (mkHasContent (JObj [])))))
                    (Some (mkParameterLocation None
                             (Some (mkQueryParameter None)) None None)))
        by (by vm_compute).
    + rewrite query_parameter_bytes.
      f_equal; cbn [example_member app join]; by rewrite ?bytes_app_assoc.
  - intros σ v Hn. split; [|split; [done|]].
    + set (kvs := [("name", JStr "q"); ("in", JStr "query"); ("example", v);
                   ("content", JObj [])]).
      assert (json_Unmarshal_struct "openapi3.marshalParameter"
                marshalParameter_fields (JObj kvs) Parameter_zero
              = (mkParameter "q" (ParameterIn_of "query") None None None
                   None None None None None (Some ∅)
                   (match v with JNull => None | _ => Some (canon v) end)
                   None None None None, None)) as Hs.
      { apply json_Unmarshal_struct_JObj.
        etrans; [eapply unmarshal_members_found; reflexivity|].
        etrans; [eapply unmarshal_members_found; reflexivity|].
        etrans; [eapply unmarshal_members_found;
                 [reflexivity|exact (ptr_interface_fits v None Hn)]|].
        etrans; [eapply unmarshal_members_found; reflexivity|].
        reflexivity. }
      assert (json_Unmarshal (JObj kvs) (None : option SchemaXORContent)
              = (Some (mkSchemaXORContent None
                         (Some (mkHasContent (JObj [])))), None)) as Hx
        by (by vm_compute).
      assert (json_Unmarshal (JObj kvs) (None : option ParameterLocation)
              = (Some (mkParameterLocation None
                         (Some (mkQueryParameter None)) None None), None))
        as Hl by (by vm_compute).
      rewrite (Parameter_UnmarshalJSON_known σ _ _ _ _ Hs Hx Hl);
        [|reflexivity..].
      f_equal. f_equal. unfold present_null_Example, query_parameter.
      assert (to_map kvs !! "example" = Some v) as Hex by reflexivity.
      cbn [Parameter_Example set_Parameter_Location
           set_Parameter_SchemaXORContent set_Parameter_MapOfAnything
           set_Parameter_Example].
      rewrite Hex. by destruct v.
    + rewrite query_parameter_bytes.
      f_equal; cbn [example_member app join]; by rewrite ?bytes_app_assoc.
Qed.

End NodeProperties.

(** ** Items added to the bucket of a [Spec] *)

Section BucketItems.
Context {RO : RangeOrder} {N : Nested} {L : NestedLaws N}.

Lemma Spec_WithMapOfAnythingItem_contents (s : Spec) key val (σ : mapstore) :
  bucket_contents (Spec_WithMapOfAnythingItem s key val σ).2
    (Spec_MapOfAnything (Spec_WithMapOfAnythingItem s key val σ).1)
  = <[key := val]> (bucket_contents σ (Spec_MapOfAnything s)).
Proof.
  unfold Spec_WithMapOfAnythingItem, bucket_contents, map_assign, make_map.
  destruct s as [a i e sv sec t pa c [l|]]; simpl;
    by rewrite !lookup_insert_eq.
Qed.

Lemma Spec_WithMapOfAnythingItem_known (s : Spec) key val (σ : mapstore) :
  set_Spec_MapOfAnything None (Spec_WithMapOfAnythingItem s key val σ).1
  = set_Spec_MapOfAnything None s.
Proof.
  unfold Spec_WithMapOfAnythingItem.
  by destruct s as [a i e sv sec t pa c [l|]].
Qed.

(** Whether a [Spec] fits its schema depends on its known fields and on the
    contents of its bucket. *)
Lemma Spec_valid_bucket (s s' : Spec) (σ σ' : mapstore) :
  Spec_valid s σ →
  set_Spec_MapOfAnything None s' = set_Spec_MapOfAnything None s →
  (∀ k v, bucket_contents σ' (Spec_MapOfAnything s') !! k = Some v →
          regexX_MatchString k = true ∧ plain k ∧ stable v) →
  Spec_valid s' σ'.
Proof.
  intros (Hpl & Hi & He & Hsv & Hsec & Ht & Hpa & Hc & _) Heq Hb.
  destruct s, s'. simpl in *. injection Heq as -> -> -> -> -> -> -> ->.
  unfold Spec_valid. simpl. auto 10.
Qed.

(** X14: [WithMapOfAnythingItem] sets the item in the bucket of the
    receiver and keeps the other entries; a receiver that had a map keeps
    that map, so the item is seen through every reference to it; the maps
    that the receiver does not refer to, and the known fields, are as
    before. *)
Theorem Spec_WithMapOfAnythingItem_sets (s : Spec) key val (σ : mapstore) :
  let s' := (Spec_WithMapOfAnythingItem s key val σ).1 in
  let σ' := (Spec_WithMapOfAnythingItem s key val σ).2 in
  bucket_contents σ' (Spec_MapOfAnything s')
  = <[key := val]> (bucket_contents σ (Spec_MapOfAnything s))
  ∧ (∀ l, Spec_MapOfAnything s = Some l →
          Spec_MapOfAnything s' = Some l
          ∧ σ' !! l = Some (<[key := val]> (default ∅ (σ !! l))))
  ∧ (∀ l, is_Some (σ !! l) → Spec_MapOfAnything s ≠ Some l →
          σ' !! l = σ !! l)
  ∧ set_Spec_MapOfAnything None s' = set_Spec_MapOfAnything None s.
Proof.
  cbv zeta. split; [apply Spec_WithMapOfAnythingItem_contents|].
  unfold Spec_WithMapOfAnythingItem, map_assign, make_map.
  destruct s as [a i e sv sec t pa c [l0|]]; simpl.
  - split; [|split; [|done]].
    + intros l [= <-]. by rewrite lookup_insert_eq.
    + intros l _ Hne. rewrite lookup_insert_ne; [done|]. congruence.
  - split; [done|]. split; [|done].
    intros l [m Hl] _.
    assert (fresh (dom σ) ≠ l) as Hf.
    { intros <-. apply (is_fresh (dom σ)). apply elem_of_dom. by eexists. }
    by rewrite !lookup_insert_ne.
Qed.

(** X15: an item under a key that matches [^x-] and needs no escape,
    holding a value as the decoder produces it, keeps a [Spec] within its
    schema, so the round trip applies to it.  An item under a key that does
    not match [^x-] and is no field name does not: the node is still written
    out, the key among the members, and the decoder refuses that document,
    naming the key. *)
Theorem Spec_item_key_must_match (s : Spec) key val (σ σ0 : mapstore) :
  Spec_valid s σ → plain key → stable val →
  let s' := (Spec_WithMapOfAnythingItem s key val σ).1 in
  let σ' := (Spec_WithMapOfAnythingItem s key val σ).2 in
  (regexX_MatchString key = true → Spec_valid s' σ')
  ∧ (regexX_MatchString key = false →
     find_field marshalSpec_fields key = None →
     Spec_MarshalJSON s' σ' = Done (print (Spec_doc s' σ'))
     ∧ Spec_UnmarshalJSON Spec_zero (Spec_doc s' σ') σ0
       = (Spec_zero,
          (bucket_after None σ0
             (extension_entries (rawMap_of (Spec_doc s' σ')))).2,
          Some (errors_New ("additional properties not allowed in Spec: ["
                            +:+ key +:+ "]")))).
Proof.
  intros Hv Hkey Hval. cbv zeta.
  pose proof (Spec_WithMapOfAnythingItem_contents s key val σ) as Hcont.
  pose proof Hv as (_ & _ & _ & _ & _ & _ & _ & _ & Hb).
  set (s' := (Spec_WithMapOfAnythingItem s key val σ).1) in *.
  set (σ' := (Spec_WithMapOfAnythingItem s key val σ).2) in *.
  set (m := bucket_contents σ (Spec_MapOfAnything s)) in *.
  assert (∀ k v, <[key := val]> m !! k = Some v → plain k ∧ stable v) as Hm'.
  { intros k v Hk. destruct (decide (key = k)) as [<-|Hne].
    - rewrite lookup_insert_eq in Hk. by injection Hk as <-.
    - rewrite lookup_insert_ne in Hk by done.
      by destruct (Hb k v Hk) as (_ & ? & ?). }
  split.
  - intros Hx.
    apply (Spec_valid_bucket s _ σ);
      [done|apply Spec_WithMapOfAnythingItem_known|].
    fold s' σ'. rewrite Hcont. intros k v Hk.
    destruct (Hm' k v Hk) as [? ?]. split; [|done].
    destruct (decide (key = k)) as [<-|Hne]; [done|].
    rewrite lookup_insert_ne in Hk by done. by apply (Hb k v).
  - intros Hx Hf.
    assert (Spec_valid s' ∅) as Hv'.
    { apply (Spec_valid_bucket s _ σ);
        [done|apply Spec_WithMapOfAnythingItem_known|].
      intros k v. unfold bucket_contents.
      destruct (Spec_MapOfAnything s') as [l|]; simpl;
        by rewrite ?lookup_empty. }
    split.
    { apply (Spec_MarshalJSON_doc_any _ _ ∅ Hv'). rewrite Hcont.
      intros k v Hk. destruct (Hm' k v Hk) as (? & _ & _ & ?). done. }
    unfold Spec_doc. rewrite Hcont.
    set (m' := <[key := val]> m) in *.
    destruct (Spec_unmarshal_members s' ∅ (sorted_members m') Hv')
      as (ms & Hms & Hmap & _).
    assert (∀ k v, m' !! k = Some v → find_field marshalSpec_fields k = None)
      as Hkeys.
    { intros k v Hk. destruct (decide (key = k)) as [<-|Hne]; [done|].
      unfold m' in Hk. rewrite lookup_insert_ne in Hk by done.
      apply marshalSpec_extension_key. by apply (Hb k v). }
    assert (json_Unmarshal_struct "openapi3.marshalSpec" marshalSpec_fields
              (JObj (Spec_members s' ++ sorted_members m')) Spec_zero
            = (ms, None)) as Hs.
    { apply json_Unmarshal_struct_JObj. rewrite Hms.
      apply unmarshal_members_unknown, Forall_forall.
      intros k [v Hk]%sorted_members_keys. by apply (Hkeys k v). }
    set (M := Spec_members s') in *.
    assert (∀ k, to_map (M ++ sorted_members m') !! k
                 = match m' !! k with
                   | Some v => Some v
                   | None => to_map M !! k
                   end) as Hlook.
    { intros k. by rewrite to_map_app_lookup, to_map_sorted_members. }
    assert (bucket_decodes (rawMap_of (JObj (M ++ sorted_members m'))))
      as Hdec.
    { rewrite rawMap_of_JObj. intros k v Hkv Hxk. rewrite Hlook in Hkv.
      destruct (m' !! k) as [v'|] eqn:Hk.
      - injection Hkv as <-. by destruct (Hm' k v' Hk) as (_ & _ & ? & _).
      - apply elem_of_list_to_map_2 in Hkv.
        rewrite reverse_Permutation in Hkv.
        assert (k ∈ M.*1) as Hin
          by (apply list_elem_of_fmap; by exists (k, v)).
        apply Spec_members_keys in Hin.
        pose proof knownKeysSpec_not_extension as Hk'.
        rewrite Forall_forall in Hk'. apply Hk' in Hin. congruence. }
    rewrite (Spec_UnmarshalJSON_spec _ _ _ _ Hs Hdec). rewrite rawMap_of_JObj.
    assert (require_keys requireKeysSpec (to_map (M ++ sorted_members m'))
            = None) as ->.
    { apply require_keys_None.
      eapply Forall_impl; [apply (Spec_members_required s')|].
      intros k Hin. apply to_map_lookup_is_Some. rewrite fmap_app.
      apply elem_of_app. by left. }
    assert (key ∉ knownKeysSpec) as Hnk.
    { change knownKeysSpec with (fname <$> marshalSpec_fields).
      by apply find_field_None_name. }
    assert (unconsumed knownKeysSpec (to_map (M ++ sorted_members m'))
            = {[ key := val ]}) as ->.
    { apply map_eq. intros k. rewrite unconsumed_lookup, Hlook.
      destruct (decide (key = k)) as [<-|Hne].
      - rewrite Hx, bool_decide_eq_false_2 by done.
        unfold m'. by rewrite lookup_insert_eq, lookup_singleton_eq.
      - rewrite lookup_singleton_ne by done.
        destruct (regexX_MatchString k) eqn:Hxk; [done|].
        case_bool_decide as Hin; [done|].
        unfold m'. rewrite lookup_insert_ne by done.
        destruct (m !! k) as [v|] eqn:Hk.
        + destruct (Hb k v Hk) as [Hx' _]. congruence.
        + apply to_map_lookup_None. by intros Hin'%Spec_members_keys. }
    cbv zeta.
    rewrite additional_properties_Some by apply insert_non_empty.
    by rewrite rangeKeys_singleton.
Qed.

End BucketItems.

(** ** Paths *)

Lemma writes_none {A} pr (f : json → A) keys entries m :
  existsb pr keys = false → writes pr f keys entries m = m.
Proof.
  revert m. induction keys as [|key keys IH]; intros m; [done|].
  simpl. intros [Hk Hks]%orb_false_iff.
  unfold writes in *. simpl. rewrite Hk. by apply IH.
Qed.

Lemma deletes_none pr keys rawMap :
  existsb pr keys = false → deletes pr keys rawMap = rawMap.
Proof.
  revert rawMap. induction keys as [|key keys IH]; intros m; [done|].
  simpl. intros [Hk Hks]%orb_false_iff.
  unfold deletes in *. simpl. rewrite Hk. by apply IH.
Qed.

Lemma writes_lookup {A} pr (f : json → A) keys entries m key :
  writes pr f keys entries m !! key
  = if pr key && bool_decide (key ∈ keys)
    then Some (f (default JNull (entries !! key)))
    else m !! key.
Proof.
  revert m. induction keys as [|k keys IH]; intros m.
  { simpl. by rewrite andb_false_r. }
  unfold writes in *. simpl. rewrite IH.
  destruct (pr key) eqn:Hkey; simpl.
  - destruct (decide (key = k)) as [->|Hne].
    + rewrite Hkey, (bool_decide_true (k ∈ k :: keys)) by (by left).
      case_bool_decide; [done|]. apply lookup_insert_eq.
    + rewrite (bool_decide_ext (key ∈ k :: keys) (key ∈ keys))
        by (rewrite elem_of_cons; split; [by intros [?|?]|by right]).
      case_bool_decide; [done|].
      destruct (pr k); [|done]. by rewrite lookup_insert_ne.
  - destruct (pr k) eqn:Hk; [|done].
    rewrite lookup_insert_ne by congruence. done.
Qed.

Lemma deletes_lookup pr keys rawMap key :
  deletes pr keys rawMap !! key
  = if pr key && bool_decide (key ∈ keys) then None else rawMap !! key.
Proof.
  revert rawMap. induction keys as [|k keys IH]; intros m.
  { simpl. by rewrite andb_false_r. }
  unfold deletes in *. simpl. rewrite IH.
  destruct (pr key) eqn:Hkey; simpl.
  - destruct (decide (key = k)) as [->|Hne].
    + rewrite Hkey, (bool_decide_true (k ∈ k :: keys)) by (by left).
      case_bool_decide; [done|]. apply lookup_delete_eq.
    + rewrite (bool_decide_ext (key ∈ k :: keys) (key ∈ keys))
        by (rewrite elem_of_cons; split; [by intros [?|?]|by right]).
      case_bool_decide; [done|].
      destruct (pr k); [|done]. by rewrite lookup_delete_ne.
  - destruct (pr k) eqn:Hk; [|done].
    rewrite lookup_delete_ne by congruence. done.
Qed.

Lemma filter_lookup_bool (pr : string → bool) (b : bool)
    (rawMap : gmap string json) key :
  filter (fun kv => pr kv.1 = b) rawMap !! key
  = if decide (pr key = b) then rawMap !! key else None.
Proof.
  rewrite map_lookup_filter. destruct (rawMap !! key) as [v|]; simpl.
  - destruct (decide (pr key = b)).
    + by rewrite option_guard_True.
    + by rewrite option_guard_False.
  - by destruct (decide _).
Qed.

Lemma deletes_rangeKeys `{RangeOrder} pr (rawMap : gmap string json) :
  deletes pr (rangeKeys rawMap) rawMap
  = filter (fun kv => pr kv.1 = false) rawMap.
Proof.
  apply map_eq. intros key. rewrite deletes_lookup, filter_lookup_bool.
  destruct (pr key) eqn:Hk; cbn [andb].
  - rewrite decide_False by done. case_bool_decide as Hin; [done|].
    rewrite elem_of_rangeKeys in Hin. by apply eq_None_not_Some.
  - by rewrite decide_True.
Qed.

Lemma writes_rangeKeys `{RangeOrder} {A} pr (f : json → A)
    (rawMap : gmap string json) (m : gmap string A) :
  writes pr f (rangeKeys rawMap) rawMap m
  = (f <$> filter (fun kv => pr kv.1 = true) rawMap) ∪ m.
Proof.
  apply map_eq. intros key.
  rewrite writes_lookup, lookup_union, lookup_fmap, filter_lookup_bool.
  destruct (pr key) eqn:Hk; cbn [andb].
  - rewrite decide_True by done. case_bool_decide as Hin.
    + rewrite elem_of_rangeKeys in Hin. destruct Hin as [v ->]. simpl.
      by destruct (m !! key).
    + rewrite elem_of_rangeKeys in Hin. apply eq_None_not_Some in Hin.
      rewrite Hin. simpl. by destruct (m !! key).
  - rewrite decide_False by done. simpl. by destruct (m !! key).
Qed.

Lemma existsb_rangeKeys_filter `{RangeOrder} pr (rawMap : gmap string json) :
  existsb pr (rangeKeys rawMap) = false
  ↔ filter (fun kv => pr kv.1 = true) rawMap = ∅.
Proof.
  split.
  - intros Hex. apply map_eq. intros key.
    rewrite filter_lookup_bool, lookup_empty.
    destruct (decide (pr key = true)) as [Hk|]; [|done].
    destruct (rawMap !! key) as [v|] eqn:Hv; [|done].
    assert (existsb pr (rangeKeys rawMap) = true); [|congruence].
    apply existsb_exists. exists key. split; [|done].
    apply list_elem_of_In, elem_of_rangeKeys. by eexists.
  - intros He. apply not_true_is_false. intros Hex.
    apply existsb_exists in Hex as (key & Hin & Hk).
    apply list_elem_of_In, elem_of_rangeKeys in Hin as [v Hv].
    apply (f_equal (.!! key)) in He.
    by rewrite filter_lookup_bool, decide_True, Hv, lookup_empty in He.
Qed.

Lemma regex_not_regexX key :
  regex_MatchString key = true → regexX_MatchString key = false.
Proof.
  unfold regex_MatchString, regexX_MatchString.
  destruct key as [|c key]; [done|]. cbn [String.prefix].
  destruct (ascii_dec "/" c) as [<-|]; [|done]. intros _.
  by destruct (ascii_dec "x" "/").
Qed.

Lemma members_body_nonempty (l : list (string * json)) :
  l ≠ [] → join "," (print_member print <$> l) ≠ EmptyString.
Proof. destruct l as [|kv l]; [done|]. intros _. by apply join_nonempty. Qed.

(** Two fragments that are [null] or objects: the members of the first,
    then those of the second. *)
Lemma marshalUnion_two_docs m1 m2 (l1 l2 : list (string * json)) :
  json_Marshal_iface m1 = Done (print (JObj l1))
  ∨ (l1 = [] ∧ json_Marshal_iface m1 = Done "null") →
  json_Marshal_iface m2 = Done (print (JObj l2))
  ∨ (l2 = [] ∧ json_Marshal_iface m2 = Done "null") →
  marshalUnion [m1; m2] = Done (print (JObj (l1 ++ l2))).
Proof.
  intros H1 H2.
  assert (∀ m (l : list (string * json)),
            json_Marshal_iface m = Done (print (JObj l))
            ∨ (l = [] ∧ json_Marshal_iface m = Done "null") →
            l = [] → skips m) as Hskip.
  { intros m l [H|[_ H]] ->; eexists; (split; [exact H|]);
      [by left|by right]. }
  assert (∀ m (l : list (string * json)),
            json_Marshal_iface m = Done (print (JObj l))
            ∨ (l = [] ∧ json_Marshal_iface m = Done "null") →
            l ≠ [] →
            json_Marshal_iface m
            = Done (object_of (join "," (print_member print <$> l))))
    as Hobj.
  { intros m l [H|[? _]] Hl; done. }
  destruct (decide (l1 = [])) as [E1|E1], (decide (l2 = [])) as [E2|E2].
  - destruct (Hskip _ _ H1 E1) as (j1 & Hj1 & Hs1).
    destruct (Hskip _ _ H2 E2) as (j2 & Hj2 & Hs2).
    subst. unfold marshalUnion.
    rewrite loop_cons, Hj1, (step_skipped _ _ _ Hs1).
    by rewrite loop_cons, Hj2, (step_skipped _ _ _ Hs2).
  - destruct (Hskip _ _ H1 E1) as (j1 & Hj1 & Hs1). subst l1.
    unfold marshalUnion. rewrite loop_cons, Hj1, (step_skipped _ _ _ Hs1).
    apply (marshalUnion_objects [m2] [join "," (print_member print <$> l2)]);
      [done|].
    constructor; [|constructor].
    split; [by apply Hobj|by apply members_body_nonempty].
  - destruct (Hskip _ _ H2 E2) as (j2 & Hj2 & Hs2). subst l2.
    rewrite app_nil_r.
    apply (marshalUnion_pair_skip _ _ (join "," (print_member print <$> l1))
             j2); [by apply Hobj|by apply members_body_nonempty|done|done].
  - rewrite (marshalUnion_pair _ _ (join "," (print_member print <$> l1))
               (join "," (print_member print <$> l2)));
      [|by apply Hobj|by apply members_body_nonempty
       |by apply Hobj|by apply members_body_nonempty].
    unfold object_of.
    change (print (JObj (l1 ++ l2)))
      with ("{" +:+ join "," (map (print_member print) (l1 ++ l2)) +:+ "}").
    rewrite map_app, join_app; [done|by destruct l1|by destruct l2].
Qed.

Lemma to_map_fmap {A B} (f : A → B) (l : list (string * A)) :
  to_map ((fun kv => (kv.1, f kv.2)) <$> l) = f <$> to_map l.
Proof.
  unfold to_map. rewrite <- fmap_reverse.
  apply (list_to_map_fmap (M := gmap string) f (reverse l)).
Qed.

Lemma marshal_entries_docs {T} `{CodecLaws T} (kvs : list (string * T)) :
  Forall (fun kv => plain kv.1 ∧ valid kv.2) kvs →
  marshal_entries kvs
  = Done (print_member print <$> ((fun kv => (kv.1, doc kv.2)) <$> kvs)).
Proof.
  induction 1 as [|[k v] kvs [Hk Hv] _ IH]; [done|].
  cbn [marshal_entries]. rewrite (marshal_doc v Hv), IH.
  cbn [fst snd] in Hk. by rewrite Hk.
Qed.

Lemma merge_into_None {A} (m : gmap string A) :
  default ∅ (merge_into m None) = m.
Proof.
  unfold merge_into. destruct (decide (m = ∅)) as [->|]; [done|]. simpl.
  apply (right_id ∅ (∪)).
Qed.

Section PathsProperties.
Context {RO : RangeOrder} {PathItem : Type} {PathItem_Codec : Codec PathItem}.

Lemma Paths_turn_item key rawValue items bucket rawMap (val : PathItem) :
  regex_MatchString key = true →
  json_Unmarshal rawValue (zero : PathItem) = (val, None) →
  Paths_turn key rawValue (mkPaths items bucket) rawMap
  = (mkPaths (Some (<[key := val]> (default ∅ items))) bucket,
     delete key rawMap, None).
Proof.
  intros E1 Ev. unfold Paths_turn.
  rewrite E1, (regex_not_regexX key E1), Ev. by destruct items.
Qed.

Lemma Paths_turn_extension key rawValue items bucket rawMap :
  regex_MatchString key = false → regexX_MatchString key = true →
  number_error rawValue = None →
  Paths_turn key rawValue (mkPaths items bucket) rawMap
  = (mkPaths items (Some (<[key := canon rawValue]> (default ∅ bucket))),
     delete key rawMap, None).
Proof.
  intros E1 E2 Hn. unfold Paths_turn.
  rewrite E1, E2, (interface_Unmarshal_fits _ _ Hn). by destruct bucket.
Qed.

Lemma Paths_turn_extension_error key rawValue (p : Paths_) rawMap e :
  regex_MatchString key = false → regexX_MatchString key = true →
  number_error rawValue = Some e →
  (Paths_turn key rawValue p rawMap).2 = Some e.
Proof.
  intros E1 E2 Hn. unfold Paths_turn. rewrite E1, E2.
  change (json_Unmarshal rawValue (zero : json))
    with (interface_value rawValue JNull, number_error rawValue).
  by rewrite Hn.
Qed.

Lemma Paths_turn_other key rawValue (p : Paths_) rawMap :
  regex_MatchString key = false → regexX_MatchString key = false →
  Paths_turn key rawValue p rawMap = (p, rawMap, None).
Proof. intros E1 E2. unfold Paths_turn. by rewrite E1, E2. Qed.

Lemma writes_cons {A} pr (f : json → A) key keys entries m :
  writes pr f (key :: keys) entries m
  = writes pr f keys entries
      (if pr key then <[key := f (default JNull (entries !! key))]> m else m).
Proof. reflexivity. Qed.

Lemma deletes_cons pr key keys rawMap :
  deletes pr (key :: keys) rawMap
  = deletes pr keys (if pr key then delete key rawMap else rawMap).
Proof. reflexivity. Qed.

Lemma writes_Some {A} pr (f : json → A) keys entries m :
  (if existsb pr keys then Some (writes pr f keys entries m) else Some m)
  = Some (writes pr f keys entries m).
Proof.
  destruct (existsb pr keys) eqn:Hex; [done|]. by rewrite writes_none.
Qed.

Lemma Paths_loop_spec keys entries (p : Paths_) rawMap :
  Forall (fun key =>
            regex_MatchString key = true →
            (json_Unmarshal (default JNull (entries !! key))
               (zero : PathItem)).2 = None) keys →
  bucket_error keys entries = None →
  Paths_loop keys entries p rawMap
  = (mkPaths
       (if existsb regex_MatchString keys then
          Some (writes regex_MatchString
                  (fun v => (json_Unmarshal v (zero : PathItem)).1)
                  keys entries (default ∅ (Paths_MapOfPathItemValues p)))
        else Paths_MapOfPathItemValues p)
       (if existsb regexX_MatchString keys then
          Some (writes regexX_MatchString canon keys entries
                  (default ∅ (Paths_MapOfAnything p)))
        else Paths_MapOfAnything p),
     deletes (fun key => regex_MatchString key || regexX_MatchString key)
       keys rawMap,
     None).
Proof.
  revert p rawMap. induction keys as [|key keys IH]; intros p rawMap Hok Hb.
  { by destruct p. }
  apply Forall_cons in Hok as [Hk Hks].
  cbn [bucket_error] in Hb.
  cbn [Paths_loop existsb]. rewrite !writes_cons, deletes_cons.
  destruct p as [items bucket].
  cbn [Paths_MapOfPathItemValues Paths_MapOfAnything].
  destruct (regex_MatchString key) eqn:E1.
  - destruct (json_Unmarshal (default JNull (entries !! key))
                (zero : PathItem)) as [val [e|]] eqn:Ev.
    { by specialize (Hk eq_refl). }
    rewrite (regex_not_regexX key E1) in Hb.
    rewrite (Paths_turn_item _ _ _ _ _ val E1 Ev), (IH _ _ Hks Hb).
    rewrite (regex_not_regexX key E1). cbn [orb fst].
    cbn [Paths_MapOfPathItemValues Paths_MapOfAnything default].
    by rewrite writes_Some.
  - destruct (regexX_MatchString key) eqn:E2.
    + destruct (number_error (default JNull (entries !! key))) eqn:Hn;
        [done|].
      rewrite (Paths_turn_extension _ _ _ _ _ E1 E2 Hn), (IH _ _ Hks Hb).
      cbn [orb]. cbn [Paths_MapOfPathItemValues Paths_MapOfAnything default].
      by rewrite writes_Some.
    + by rewrite (Paths_turn_other _ _ _ _ E1 E2), (IH _ _ Hks Hb).
Qed.

Lemma items_decode_keys (rawMap : gmap string json) :
  items_decode rawMap →
  Forall (fun key =>
            regex_MatchString key = true →
            (json_Unmarshal (default JNull (rawMap !! key))
               (zero : PathItem)).2 = None) (rangeKeys rawMap).
Proof.
  intros Hok. apply Forall_forall. intros key [v Hv]%elem_of_rangeKeys Hk.
  rewrite Hv. by apply (Hok key v).
Qed.

Lemma merge_into_spec {A} pr (f : json → A) (rawMap : gmap string json)
    (old : option (gmap string A)) :
  (if existsb pr (rangeKeys rawMap)
   then Some (writes pr f (rangeKeys rawMap) rawMap (default ∅ old))
   else old)
  = merge_into (f <$> filter (fun kv => pr kv.1 = true) rawMap) old.
Proof.
  unfold merge_into. destruct (existsb pr (rangeKeys rawMap)) eqn:Hex.
  - rewrite decide_False, writes_rangeKeys; [done|].
    rewrite fmap_empty_iff. intros He.
    apply existsb_rangeKeys_filter in He. congruence.
  - apply existsb_rangeKeys_filter in Hex. rewrite Hex, fmap_empty.
    by rewrite decide_True.
Qed.

(** A failing path item ends the loop with an error. *)
Lemma Paths_loop_item_error keys entries (p : Paths_) rawMap :
  Exists (fun key =>
            regex_MatchString key = true
            ∧ is_Some (json_Unmarshal (default JNull (entries !! key))
                         (zero : PathItem)).2) keys →
  is_Some (Paths_loop keys entries p rawMap).2.
Proof.
  revert p rawMap. induction keys as [|key keys IH]; intros p rawMap Hex.
  { by apply Exists_nil in Hex. }
  cbn [Paths_loop]. destruct p as [items bucket].
  destruct (regex_MatchString key) eqn:E1.
  - destruct (json_Unmarshal (default JNull (entries !! key))
                (zero : PathItem)) as [val [e|]] eqn:Ev.
    + unfold Paths_turn. rewrite E1, Ev. by eexists.
    + rewrite (Paths_turn_item _ _ _ _ _ val E1 Ev). apply IH.
      apply Exists_cons in Hex as [[_ [e He]]|Hex]; [|done].
      by rewrite Ev in He.
  - assert (Exists (fun key =>
              regex_MatchString key = true
              ∧ is_Some (json_Unmarshal (default JNull (entries !! key))
                           (zero : PathItem)).2) keys) as Hex'.
    { apply Exists_cons in Hex as [[Hk _]|Hex]; [congruence|done]. }
    destruct (regexX_MatchString key) eqn:E2.
    + destruct (number_error (default JNull (entries !! key))) as [e|]
        eqn:Hn.
      * pose proof (Paths_turn_extension_error key _ (mkPaths items bucket)
                      rawMap e E1 E2 Hn) as He.
        destruct (Paths_turn _ _ _ _) as [[p' rawMap'] err].
        simpl in He. subst err. by eexists.
      * rewrite (Paths_turn_extension _ _ _ _ _ E1 E2 Hn). by apply IH.
    + rewrite (Paths_turn_other _ _ _ _ E1 E2). by apply IH.
Qed.

(** So does an [x-] member that holds a number float64 cannot hold. *)
Lemma Paths_loop_bucket_error keys entries (p : Paths_) rawMap :
  is_Some (bucket_error keys entries) →
  is_Some (Paths_loop keys entries p rawMap).2.
Proof.
  revert p rawMap. induction keys as [|key keys IH]; intros p rawMap Hb.
  { by destruct Hb. }
  cbn [bucket_error] in Hb. cbn [Paths_loop]. destruct p as [items bucket].
  destruct (regex_MatchString key) eqn:E1.
  - rewrite (regex_not_regexX key E1) in Hb.
    destruct (json_Unmarshal (default JNull (entries !! key))
                (zero : PathItem)) as [val [e|]] eqn:Ev.
    + unfold Paths_turn. rewrite E1, Ev. by eexists.
    + rewrite (Paths_turn_item _ _ _ _ _ val E1 Ev). by apply IH.
  - destruct (regexX_MatchString key) eqn:E2.
    + destruct (number_error (default JNull (entries !! key))) as [e|]
        eqn:Hn.
      * pose proof (Paths_turn_extension_error key _ (mkPaths items bucket)
                      rawMap e E1 E2 Hn) as He.
        destruct (Paths_turn _ _ _ _) as [[p' rawMap'] err].
        simpl in He. subst err. by eexists.
      * rewrite (Paths_turn_extension _ _ _ _ _ E1 E2 Hn). by apply IH.
    + rewrite (Paths_turn_other _ _ _ _ E1 E2). by apply IH.
Qed.

Lemma Paths_decode_in_place_eq (p : Paths_) data :
  items_decode (rawMap_of data) →
  bucket_decodes (rawMap_of data) →
  Paths_UnmarshalJSON p data
  = (mkPaths
       (merge_into (item_entries (rawMap_of data))
          (Paths_MapOfPathItemValues p))
       (merge_into (extension_entries (rawMap_of data))
          (Paths_MapOfAnything p)),
     additional_properties "Paths" (unmatched (rawMap_of data))).
Proof.
  intros Hok Hdec. unfold Paths_UnmarshalJSON.
  rewrite (Paths_loop_spec _ _ _ _ (items_decode_keys _ Hok)
             (proj2 (range_error_None _) Hdec)).
  rewrite !merge_into_spec, deletes_rangeKeys.
  by destruct (additional_properties "Paths" _).
Qed.

(** X16: [Paths.UnmarshalJSON] writes into the receiver as it goes.  When
    every member under a key that matches [^/] is decoded as a path item,
    and every member under a key that matches [^x-] is decoded, the receiver
    ends up holding the decoded path items and the [x-] members, put over
    the entries that its two maps had, and the error is the
    additional-properties error for the keys that match neither pattern, if
    there are any: so a payload with such a key is refused and the receiver
    has taken the other members all the same.  A member under a key that
    matches [^/] and is not decoded as a path item, and an [x-] member with
    a number that float64 cannot hold, make the call fail, whatever the
    order in which the keys are visited. *)
Theorem Paths_decode_in_place :
  (∀ (p : Paths_) data,
     items_decode (rawMap_of data) →
     bucket_decodes (rawMap_of data) →
     Paths_UnmarshalJSON p data
     = (mkPaths
          (merge_into (item_entries (rawMap_of data))
             (Paths_MapOfPathItemValues p))
          (merge_into (extension_entries (rawMap_of data))
             (Paths_MapOfAnything p)),
        additional_properties "Paths" (unmatched (rawMap_of data))))
  ∧ (∀ (p : Paths_) data key v,
       rawMap_of data !! key = Some v → regex_MatchString key = true →
       is_Some (json_Unmarshal v (zero : PathItem)).2 →
       is_Some (Paths_UnmarshalJSON p data).2)
  ∧ (∀ (p : Paths_) data key v,
       rawMap_of data !! key = Some v → regexX_MatchString key = true →
       is_Some (number_error v) →
       is_Some (Paths_UnmarshalJSON p data).2).
Proof.
  split; [apply Paths_decode_in_place_eq|]. split.
  - intros p data key v Hv Hk He. unfold Paths_UnmarshalJSON.
    pose proof (Paths_loop_item_error (rangeKeys (rawMap_of data))
                  (rawMap_of data) p (rawMap_of data)) as Hl.
    destruct (Paths_loop _ _ p _) as [[p' rawMap'] [e|]]; [by eexists|].
    destruct Hl as [? ?]; [|done].
    apply Exists_exists. exists key. split.
    + apply elem_of_rangeKeys. by eexists.
    + by rewrite Hv.
  - intros p data key v Hv Hk He. unfold Paths_UnmarshalJSON.
    pose proof (Paths_loop_bucket_error (rangeKeys (rawMap_of data))
                  (rawMap_of data) p (rawMap_of data)) as Hl.
    destruct (Paths_loop _ _ p _) as [[p' rawMap'] [e|]]; [by eexists|].
    destruct Hl as [? ?]; [|done].
    destruct (range_error (rawMap_of data)) as [e|] eqn:Hr; [by eexists|].
    apply range_error_None in Hr. rewrite (Hr key v Hv Hk) in He.
    by destruct He.
Qed.

End PathsProperties.

Section PathsRoundTripProperties.
Context {RO : RangeOrder} {PathItem : Type} {PathItem_Codec : Codec PathItem}
  {PathItem_Laws : CodecLaws PathItem}.

Lemma Paths_members_lookup (p : @Paths_ PathItem) key :
  Paths_valid p →
  to_map (Paths_members p) !! key
  = match default ∅ (Paths_MapOfAnything p) !! key with
    | Some v => Some v
    | None => doc <$> default ∅ (Paths_MapOfPathItemValues p) !! key
    end.
Proof.
  intros _. unfold Paths_members.
  by rewrite to_map_app_lookup, to_map_sorted_members, to_map_fmap,
    to_map_sorted_members, lookup_fmap.
Qed.

(** X17: the round trip of [Paths].  For a node whose path items are under
    keys that match [^/] and are values that their own encoder and decoder
    take there and back, whose other bucket holds values as the decoder
    produces them under keys that match [^x-], and whose keys and strings
    are written without escapes, [MarshalJSON] writes the path items, sorted
    by key, followed by the [x-] entries, and [UnmarshalJSON] of that
    document into the zero value succeeds with the same entries in both
    maps. *)
Theorem Paths_roundtrip (p : @Paths_ PathItem) :
  Paths_valid p →
  Paths_MarshalJSON p = Done (print (Paths_doc p))
  ∧ ∃ p', Paths_UnmarshalJSON (mkPaths None None) (Paths_doc p) = (p', None)
          ∧ Paths_same p p'.
Proof.
  intros Hv. pose proof Hv as [Hitems Hbucket].
  set (I := default ∅ (Paths_MapOfPathItemValues p)) in *.
  set (B := default ∅ (Paths_MapOfAnything p)) in *.
  split.
  - unfold Paths_MarshalJSON, Paths_doc, Paths_members. fold I B.
    apply marshalUnion_two_docs.
    + destruct (Paths_MapOfPathItemValues p) as [m|] eqn:Hm.
      * left. subst I. simpl default.
        change (json_Marshal_iface (Iface (Some m)))
          with (match marshal_entries (sorted_members m) with
                | Done bs => Done ("{" +:+ join "," bs +:+ "}")
                | Failed e => Failed e
                | Panicked => Panicked
                end).
        rewrite marshal_entries_docs; [done|].
        apply Forall_forall. intros [k v] Hin.
        rewrite sorted_members_perm in Hin.
        apply elem_of_map_to_list in Hin.
        by destruct (Hitems k v Hin) as (_ & ? & ?).
      * right. split; [|done]. subst I. simpl.
        by rewrite (proj2 (sorted_members_empty (∅ : gmap string PathItem))
                      eq_refl).
    + destruct (Paths_MapOfAnything p) as [m|] eqn:Hm.
      * left. subst B. simpl default in *.
        cbn [json_Marshal_iface json_Marshal StoredMap_Marshaler stored_map
             json_Marshal_map].
        f_equal. apply encode_members. intros key v Hkv.
        apply sorted_members_lookup in Hkv.
        by destruct (Hbucket key v Hkv) as (_ & ? & _ & _ & ?).
      * right. split; [|done]. subst B. simpl.
        by apply sorted_members_empty.
  - assert (∀ key, regexX_MatchString key = true →
                   regex_MatchString key = false) as Hdisj.
    { intros key Hx. destruct (regex_MatchString key) eqn:E; [|done].
      apply regex_not_regexX in E. congruence. }
    assert (∀ key, rawMap_of (Paths_doc p) !! key
                   = match B !! key with
                     | Some v => Some v
                     | None => doc <$> I !! key
                     end) as Hlook.
    { intros key. by apply Paths_members_lookup. }
    assert (items_decode (rawMap_of (Paths_doc p))) as Hok.
    { intros key v Hk Hr. rewrite Hlook in Hk.
      destruct (B !! key) as [v'|] eqn:HB.
      - destruct (Hbucket key v' HB) as [Hx _]. apply Hdisj in Hx. congruence.
      - destruct (I !! key) as [x|] eqn:HI; [|done]. injection Hk as <-.
        destruct (Hitems key x HI) as (_ & _ & Hx).
        by rewrite (unmarshal_doc x Hx). }
    assert (bucket_decodes (rawMap_of (Paths_doc p))) as Hdec.
    { intros key v Hk Hx. rewrite Hlook in Hk.
      destruct (B !! key) as [v'|] eqn:HB.
      - injection Hk as <-.
        by destruct (Hbucket key v' HB) as (_ & _ & _ & ? & _).
      - destruct (I !! key) as [x|] eqn:HI; [|done].
        destruct (Hitems key x HI) as [Hr _]. apply Hdisj in Hx.
        congruence. }
    rewrite (Paths_decode_in_place_eq (mkPaths None None) (Paths_doc p) Hok
               Hdec).
    assert (item_entries (rawMap_of (Paths_doc p)) = I) as ->.
    { apply map_eq. intros key. unfold item_entries.
      rewrite lookup_fmap, filter_lookup_bool, Hlook.
      destruct (decide (regex_MatchString key = true)) as [Hr|Hr].
      - destruct (B !! key) as [v'|] eqn:HB.
        + destruct (Hbucket key v' HB) as [Hx _]. apply Hdisj in Hx.
          congruence.
        + destruct (I !! key) as [x|] eqn:HI; [|done]. simpl.
          destruct (Hitems key x HI) as (_ & _ & Hx).
          by rewrite (unmarshal_doc x Hx).
      - destruct (I !! key) as [x|] eqn:HI; [|done].
        by destruct (Hitems key x HI) as [? _]. }
    assert (extension_entries (rawMap_of (Paths_doc p)) = B) as ->.
    { apply map_eq. intros key. rewrite extension_entries_lookup, Hlook.
      destruct (B !! key) as [v'|] eqn:HB.
      - destruct (Hbucket key v' HB) as (-> & _ & Hc & _). simpl.
        by rewrite Hc.
      - destruct (regexX_MatchString key) eqn:Hx; [|done].
        destruct (I !! key) as [x|] eqn:HI; [|done].
        destruct (Hitems key x HI) as [Hr _]. apply Hdisj in Hx. congruence. }
    assert (unmatched (rawMap_of (Paths_doc p)) = ∅) as ->.
    { apply map_eq. intros key. unfold unmatched.
      rewrite (filter_lookup_bool
                 (fun key => regex_MatchString key || regexX_MatchString key)
                 false), lookup_empty, Hlook.
      destruct (decide _) as [Hn|]; [|done].
      apply orb_false_iff in Hn as [Hr Hx].
      destruct (B !! key) as [v'|] eqn:HB.
      - destruct (Hbucket key v' HB) as [? _]. congruence.
      - destruct (I !! key) as [x|] eqn:HI; [|done].
        destruct (Hitems key x HI) as [? _]. congruence. }
    rewrite (proj2 (additional_properties_None "Paths" ∅)) by done.
    eexists. split; [done|]. split; simpl; by rewrite merge_into_None.
Qed.

End PathsRoundTripProperties.

(** ** The order of map iteration *)

Section OrderIndependence.
Context {N : Nested}.

(** X18: the order in which Go visits the keys of the raw map does not
    decide whether [Spec.UnmarshalJSON] fails: under two orders the call
    fails under both or under none.  When every [x-] member of the payload
    is decoded, the receiver and the maps are the same after the call, and
    the errors are the same but for the order in which the
    additional-properties error lists the unconsumed keys. *)
Theorem Spec_decode_order_independent (RO1 RO2 : RangeOrder) (s : Spec) data
    (σ : mapstore) :
  let r1 := Spec_UnmarshalJSON (RO := RO1) s data σ in
  let r2 := Spec_UnmarshalJSON (RO := RO2) s data σ in
  (r1.2 = None ↔ r2.2 = None)
  ∧ (bucket_decodes (rawMap_of data) →
     r1.1 = r2.1
     ∧ (r1.2 = r2.2
        ∨ ∃ keys1 keys2,
            keys1 ≡ₚ keys2
            ∧ r1.2 = Some (errors_New
                             ("additional properties not allowed in Spec: "
                              +:+ fmt_v_strings keys1))
            ∧ r2.2 = Some (errors_New
                             ("additional properties not allowed in Spec: "
                              +:+ fmt_v_strings keys2)))).
Proof.
  cbv zeta.
  destruct (json_Unmarshal_struct "openapi3.marshalSpec" marshalSpec_fields
              data s) as [ms [e|]] eqn:Hs.
  { rewrite !(Spec_UnmarshalJSON_struct_error _ _ _ _ _ Hs). by auto. }
  set (rest := unconsumed knownKeysSpec (rawMap_of data)).
  split.
  - rewrite !(Spec_UnmarshalJSON_error _ _ _ _ Hs).
    destruct (require_keys requireKeysSpec (rawMap_of data)) as [e|];
      [done|].
    destruct (range_error (H := RO1) _) as [e1|] eqn:H1;
      destruct (range_error (H := RO2) _) as [e2|] eqn:H2.
    + done.
    + apply range_error_None in H2.
      apply (range_error_None (H := RO1)) in H2. congruence.
    + apply range_error_None in H1.
      apply (range_error_None (H := RO2)) in H1. congruence.
    + fold rest. destruct (decide (rest = ∅)) as [He|Hne].
      * by rewrite !(proj2 (additional_properties_None "Spec" rest) He).
      * by rewrite !additional_properties_Some by done.
  - intros Hdec. rewrite !(Spec_UnmarshalJSON_spec _ _ _ _ Hs Hdec).
    destruct (require_keys requireKeysSpec (rawMap_of data)) as [e|];
      [by auto|].
    cbv zeta. fold rest.
    destruct (decide (rest = ∅)) as [He|Hne].
    + rewrite !(proj2 (additional_properties_None "Spec" rest) He). by auto.
    + rewrite !additional_properties_Some by done. cbn [fst snd].
      split; [done|]. right.
      exists (rangeKeys (RangeOrder := RO1) rest),
        (rangeKeys (RangeOrder := RO2) rest).
      split; [|done]. by rewrite !rangeKeys_perm.
Qed.

End OrderIndependence.

(** ** Enumerations *)

(** X19: the values of the enumeration [ParameterIn].  [MarshalJSON]
    succeeds on the four values and on no other, writing the value as a JSON
    string; [UnmarshalJSON] takes the JSON strings of the four values and no
    other payload ([null] included) and leaves the receiver as it was when it
    fails; so a value that is written is read back.  No style of the path arm
    is a style of the query arm. *)
Theorem enum_values :
  (∀ s, ParameterIn_known s = true
        ↔ s ∈ ["path"; "query"; "header"; "cookie"])
  ∧ (∀ s i,
       if ParameterIn_known s
       then ParameterIn_MarshalJSON (ParameterIn_of s) = Done (print (JStr s))
            ∧ ParameterIn_UnmarshalJSON i (JStr s) = (ParameterIn_of s, None)
       else ParameterIn_MarshalJSON (ParameterIn_of s)
            = Failed (errors_New ("unexpected ParameterIn value: " +:+ s))
            ∧ ParameterIn_UnmarshalJSON i (JStr s)
              = (i, Some (errors_New ("unexpected ParameterIn value: " +:+ s))))
  ∧ (∀ i data,
       ((ParameterIn_UnmarshalJSON i data).2 = None
        ↔ ∃ s, data = JStr s ∧ ParameterIn_known s = true)
       ∧ (is_Some (ParameterIn_UnmarshalJSON i data).2 →
          (ParameterIn_UnmarshalJSON i data).1 = i))
  ∧ (∀ s, PathParameterStyle_known s = true →
          QueryParameterStyle_known s = false).
Proof.
  split; [|split; [|split]].
  - intros s. unfold ParameterIn_known.
    rewrite !orb_true_iff, !elem_of_cons, elem_of_nil.
    split.
    + intros [[[H|H]|H]|H]; apply bytes_eqb_eq in H; auto.
    + intros [->|[->|[->|[->|[]]]]]; auto.
  - intros s i. unfold ParameterIn_MarshalJSON, ParameterIn_UnmarshalJSON.
    cbn [json_Unmarshal string_Codec].
    destruct (ParameterIn_known s) eqn:Hk; [|done]. split; [|done].
    assert (s = "path" ∨ s = "query" ∨ s = "header" ∨ s = "cookie") as Hs.
    { unfold ParameterIn_known in Hk. rewrite !orb_true_iff in Hk.
      destruct Hk as [[[H|H]|H]|H]; apply bytes_eqb_eq in H; auto. }
    destruct Hs as [->|[->|[->| ->]]]; reflexivity.
  - intros i data. unfold ParameterIn_UnmarshalJSON.
    destruct data as [|b|lit|s|l|kvs]; simpl;
      try (split; [split; [done|by intros (? & [=] & _)]|done]).
    destruct (ParameterIn_known s) eqn:Hk; simpl.
    + split; [|by intros [? [=]]]. split; [by exists s|done].
    + split; [|done]. split; [done|]. intros (? & [= <-] & ?). congruence.
  - intros s [->|[->| ->]]%PathParameterStyle_known_cases; reflexivity.
Qed.

(** ** Payloads that are not objects *)

Section NotObjects.
Context {RO : RangeOrder} {N : Nested}.

(** X20: [null] and the payloads that are not objects.  [Spec] and
    [Parameter] refuse [null] for the first required key, refuse any other
    payload that is not an object with the type error of the struct decoder,
    and leave the receiver and the maps as they were. *)
Theorem flat_nodes_refuse_non_objects :
  (∀ (s : Spec) (σ : mapstore),
     Spec_UnmarshalJSON s JNull σ
     = (s, σ, Some (errors_New "required key missing: openapi")))
  ∧ (∀ (p : Parameter_) (σ : mapstore),
       Parameter_UnmarshalJSON p JNull σ
       = (p, σ, Some (errors_New "required key missing: name")))
  ∧ (∀ (s : Spec) (σ : mapstore) data,
       data ≠ JNull → (∀ kvs, data ≠ JObj kvs) →
       Spec_UnmarshalJSON s data σ
       = (s, σ, Some (UnmarshalTypeError (json_kind data)
                        "openapi3.marshalSpec" EmptyString EmptyString)))
  ∧ (∀ (p : Parameter_) (σ : mapstore) data,
       data ≠ JNull → (∀ kvs, data ≠ JObj kvs) →
       Parameter_UnmarshalJSON p data σ
       = (p, σ, Some (UnmarshalTypeError (json_kind data)
                        "openapi3.marshalParameter" EmptyString
                        EmptyString))).
Proof.
  split; [|split; [|split]].
  - reflexivity.
  - reflexivity.
  - intros s σ [|b|lit|t|l|kvs] Hn Ho; try done. by destruct (Ho kvs).
  - intros p σ [|b|lit|t|l|kvs] Hn Ho; try done. by destruct (Ho kvs).
Qed.

End NotObjects.

(** ** The shape of what the union merge returns *)

Lemma step_cases result isObject j result' isObject' :
  marshalUnion_step result isObject j = Continue result' isObject' →
  (result' = result ∧ isObject' = isObject)
  ∨ (result' = j ∧ isObject' = false)
  ∨ isObject' = true.
Proof.
  unfold marshalUnion_step.
  destruct (String.eqb j "{}"); [by intros [= <- <-]; left|].
  destruct (String.eqb j "null"); [by intros [= <- <-]; left|].
  destruct j as [|j0 t]; [done|].
  destruct (negb (Ascii.eqb j0 "{")).
  - destruct (_ && _); [|done]. intros [= <- <-]. right. by left.
  - destruct isObject; simpl; [|done]. intros [= <- <-]. by right; right.
Qed.

Lemma loop_shape result isObject maps b :
  acc_inv result isObject →
  marshalUnion_loop result isObject maps = Done b →
  (∃ t, b = String "{" t)
  ∨ (scalar b
     ∧ ((b = result ∧ isObject = false)
        ∨ ∃ m, m ∈ maps ∧ json_Marshal_iface m = Done b)).
Proof.
  revert result isObject.
  induction maps as [|m maps IH]; intros result isObject Hinv.
  - cbn [marshalUnion_loop]. destruct isObject; simpl in *.
    + destruct Hinv as [t ->]. destruct (_ =? 1); intros [= <-]; left;
        by eexists.
    + intros [= <-]. right. split; [done|]. by left.
  - rewrite loop_cons. destruct (json_Marshal_iface m) as [j| |] eqn:Hm;
      [|done..].
    destruct (marshalUnion_step result isObject j) as [r o| |] eqn:Hs;
      [|done..].
    intros Hl. pose proof (step_inv _ _ _ _ _ Hinv Hs) as Hinv'.
    destruct (IH _ _ Hinv' Hl) as [?|[Hb [[-> ->]|(m' & Hin & Hm')]]];
      [by left| |].
    + right. split; [done|].
      destruct (step_cases _ _ _ _ _ Hs) as [[-> ->]|[[-> _]|?]]; [|..|done].
      * by left.
      * right. exists m. split; [by left|done].
    + right. split; [done|]. right. exists m'. split; [by right|done].
Qed.

(** X21: what [marshalUnion] returns, when it returns bytes, is never empty:
    it starts with an opening brace, or it is a non-object, and then it is
    what one of the fragments marshals to. *)
Theorem marshalUnion_output_shape maps b :
  marshalUnion maps = Done b →
  (∃ t, b = String "{" t)
  ∨ (scalar b ∧ ∃ m, m ∈ maps ∧ json_Marshal_iface m = Done b).
Proof.
  intros Hl. apply loop_shape in Hl as [?|[Hb [[_ [=]]|?]]]; auto.
  by exists EmptyString.
Qed.

Lemma marshalUnion_output_shape_witness :
  (∃ t, "true" = String "{" t)
  ∨ (scalar "true"
     ∧ ∃ m, m ∈ raws ["null"; "true"] ∧ json_Marshal_iface m = Done "true").
Proof. by apply (marshalUnion_output_shape (raws ["null"; "true"])). Defined.

(** ** Decoding into a receiver that holds values *)

Lemma unmarshal_members_untouched {S A} (pr : S → A) (fs : list (field S))
    kvs s :
  Forall (fun key => match find_field fs key with
                     | Some f => ∀ x s, pr (fset f x s) = pr s
                     | None => True
                     end) kvs.*1 →
  pr (unmarshal_members fs kvs s).1 = pr s.
Proof.
  revert s. induction kvs as [|[key v] kvs IH]; intros s; [done|].
  intros [Hk Hks]%Forall_cons. simpl in *.
  destruct (find_field fs key) as [f|]; [|by apply IH].
  destruct (json_Unmarshal v (fget f s)) as [x [e|]]; simpl.
  - apply Hk.
  - rewrite IH by done. apply Hk.
Qed.

Lemma find_field_exact {S} (fs : list (field S)) key f :
  key ∈ fname <$> fs → find_field fs key = Some f → fname f = key.
Proof.
  unfold find_field. intros Hin.
  destruct (find _ fs) as [f'|] eqn:E.
  - intros [= <-]. apply find_some in E as [_ E]. by apply String.eqb_eq.
  - apply list_elem_of_fmap in Hin as (f0 & -> & Hin).
    apply list_elem_of_In in Hin.
    pose proof (find_none _ _ E f0 Hin) as Hf. simpl in Hf.
    by rewrite String.eqb_refl in Hf.
Qed.

Section DecodeUpdates.
Context {RO : RangeOrder} {N : Nested}.

Lemma marshalSpec_other_member {A} (pr : Spec → A) name kvs (s : Spec) :
  (∀ f, f ∈ marshalSpec_fields → fname f ≠ name →
        ∀ x s, pr (fset f x s) = pr s) →
  to_map kvs !! name = None →
  Forall (fun key => key ∈ knownKeysSpec ∨ regexX_MatchString key = true)
         kvs.*1 →
  pr (unmarshal_members marshalSpec_fields kvs s).1 = pr s.
Proof.
  intros Hpr Habs%to_map_lookup_None Hkeys.
  apply unmarshal_members_untouched.
  apply Forall_forall. intros key Hin.
  pose proof (proj1 (Forall_forall _ _) Hkeys key Hin) as [Hk|Hx].
  - destruct (find_field marshalSpec_fields key) as [f|] eqn:Hf; [|done].
    apply Hpr; [by eapply find_field_elem_of|].
    change knownKeysSpec with (fname <$> marshalSpec_fields) in Hk.
    pose proof (find_field_exact _ _ _ Hk Hf) as Hn.
    intros Hn'. apply Habs. subst key. subst name. exact Hin.
  - by rewrite marshalSpec_extension_key.
Qed.

(** X22: decoding into a receiver that holds values updates it.  When
    [Spec.UnmarshalJSON] succeeds, every optional field whose key the payload
    does not have holds what the receiver held before the call: the struct
    is decoded into a copy of the receiver, not into a zero value. *)
Theorem Spec_decode_keeps_absent (s : Spec) data (σ : mapstore) :
  (Spec_UnmarshalJSON s data σ).2 = None →
  let s' := (Spec_UnmarshalJSON s data σ).1.1 in
  (rawMap_of data !! "externalDocs" = None →
   Spec_ExternalDocs s' = Spec_ExternalDocs s)
  ∧ (rawMap_of data !! "servers" = None → Spec_Servers s' = Spec_Servers s)
  ∧ (rawMap_of data !! "security" = None → Spec_Security s' = Spec_Security s)
  ∧ (rawMap_of data !! "tags" = None → Spec_Tags s' = Spec_Tags s)
  ∧ (rawMap_of data !! "components" = None →
     Spec_Components s' = Spec_Components s).
Proof.
  intros Hok. pose proof Hok as (ms & Hs & Hr & Hrest)%Spec_UnmarshalJSON_ok.
  pose proof (Spec_UnmarshalJSON_decodes _ _ _ Hok) as Hdec.
  cbv zeta. rewrite (Spec_UnmarshalJSON_spec _ _ _ _ Hs Hdec), Hr. cbv zeta.
  rewrite Hrest, (proj2 (additional_properties_None "Spec" ∅)) by done.
  cbn [fst snd].
  destruct data as [| | | | |kvs]; try done.
  rewrite rawMap_of_JObj in *. apply unconsumed_empty_keys in Hrest.
  apply json_Unmarshal_struct_JObj in Hs.
  assert (ms = (unmarshal_members marshalSpec_fields kvs s).1) as ->
    by (by rewrite Hs).
  set (after := (bucket_after _ _ _).1). clearbody after.
  assert (∀ {A} (pr : Spec → A) name,
            (∀ x s, pr (set_Spec_MapOfAnything x s) = pr s) →
            (∀ f, f ∈ marshalSpec_fields → fname f ≠ name →
                  ∀ x s, pr (fset f x s) = pr s) →
            to_map kvs !! name = None →
            pr (set_Spec_MapOfAnything after
                  (unmarshal_members marshalSpec_fields kvs s).1) = pr s)
    as Hfield.
  { intros A pr name Hset Hpr Habs. rewrite Hset.
    by apply (marshalSpec_other_member pr name). }
  assert (∀ (P : field marshalSpec → Prop),
            Forall P marshalSpec_fields →
            ∀ f, f ∈ marshalSpec_fields → P f) as Hall.
  { intros P HP f Hf. by apply (proj1 (Forall_forall _ _) HP). }
  assert (∀ {A} (pr : Spec → A) name,
            (∀ x s, pr (set_Spec_MapOfAnything x s) = pr s) →
            Forall (fun f : field marshalSpec =>
                      fname f ≠ name → ∀ x s, pr (fset f x s) = pr s)
                   marshalSpec_fields →
            to_map kvs !! name = None →
            pr (set_Spec_MapOfAnything after
                  (unmarshal_members marshalSpec_fields kvs s).1) = pr s)
    as Hfield'.
  { intros A pr name Hset Hpr Habs.
    apply (Hfield _ pr name Hset); [|done].
    intros f Hf. by apply (Hall _ Hpr). }
  clear Hfield Hall.
  split; [|split; [|split; [|split]]].
  - apply (Hfield' _ Spec_ExternalDocs); [by intros x []|].
    unfold marshalSpec_fields.
    repeat (apply Forall_cons; split;
            [first [by intros _ x [] | by intros Hne]|]).
    apply Forall_nil_2.
  - apply (Hfield' _ Spec_Servers); [by intros x []|].
    unfold marshalSpec_fields.
    repeat (apply Forall_cons; split;
            [first [by intros _ x [] | by intros Hne]|]).
    apply Forall_nil_2.
  - apply (Hfield' _ Spec_Security); [by intros x []|].
    unfold marshalSpec_fields.
    repeat (apply Forall_cons; split;
            [first [by intros _ x [] | by intros Hne]|]).
    apply Forall_nil_2.
  - apply (Hfield' _ Spec_Tags); [by intros x []|].
    unfold marshalSpec_fields.
    repeat (apply Forall_cons; split;
            [first [by intros _ x [] | by intros Hne]|]).
    apply Forall_nil_2.
  - apply (Hfield' _ Spec_Components); [by intros x []|].
    unfold marshalSpec_fields.
    repeat (apply Forall_cons; split;
            [first [by intros _ x [] | by intros Hne]|]).
    apply Forall_nil_2.
Qed.

End DecodeUpdates.

(** ** An [interface{}] value as a nested node

    Valid when it is a value that the decoder gives back as it is, written
    without escapes, and not nil. *)
Lemma interface_value_stable v x :
  canon v = v → number_error v = None → interface_value v x = v.
Proof.
  intros Hc Hn. destruct v as [|b|lit|s|l|kvs]; try exact Hc.
  simpl in *. by destruct (ParseFloat lit).
Qed.

Lemma interface_marshal_doc v :
  stable v ∧ v ≠ JNull → json_Marshal v = Done (print v).
Proof. intros [(_ & _ & He) _]. unfold json_Marshal. simpl. by rewrite He. Qed.

Lemma interface_unmarshal_doc v :
  stable v ∧ v ≠ JNull → json_Unmarshal v (zero : json) = (v, None).
Proof.
  intros [(Hc & Hn & _) _]. simpl. by rewrite Hn, interface_value_stable.
Qed.

Definition interface_Laws : CodecLaws json :=
  {| valid v := stable v ∧ v ≠ JNull;
     doc v := v;
     marshal_doc := interface_marshal_doc;
     unmarshal_doc := interface_unmarshal_doc;
     doc_not_null v H := proj2 H |}.

Definition untyped_Laws : NestedLaws untyped :=
  @Build_NestedLaws untyped interface_Laws interface_Laws interface_Laws
    interface_Laws interface_Laws interface_Laws interface_Laws.

(** ** The model run on payloads

    With the iteration order [map_order] and the nested nodes [untyped]. *)
Section Runs.
#[local] Existing Instance map_order.
#[local] Existing Instance untyped.
#[local] Existing Instance untyped_Laws.

(** C4 as stated fails on [Parameter]: the payload is decoded by the struct,
    the required key [in] is absent, and the error is the one of the
    parameter-location union, which does not name [in]; on [Spec], with two
    required keys absent, the error names the first one only. *)
Lemma Parameter_missing_in_not_named :
  let data := JObj [("name", JStr "id"); ("schema", JObj [])] in
  (json_Unmarshal_struct "openapi3.marshalParameter"
     marshalParameter_fields data Parameter_zero).2 = None
  ∧ rawMap_of data !! "in" = None
  ∧ (Error <$> (Parameter_UnmarshalJSON Parameter_zero data ∅).2)
    = Some ("oneOf constraint failed for ParameterLocation with 3 valid results: "
            +:+ "map[PathParameter:required key missing: required]")
  ∧ rawMap_of (JObj []) !! "info" = None
  ∧ (Error <$> (Spec_UnmarshalJSON Spec_zero (JObj []) ∅).2)
    = Some "required key missing: openapi".
Proof. cbv zeta. repeat split; vm_compute; reflexivity. Qed.


(** C9 as stated fails: two payloads with different unconsumed keys give the
    same error value, so the keys are not data that a caller can take out of
    the error. *)
Lemma offending_keys_not_recoverable :
  let valid := [("openapi", JStr "3.0.3");
                ("info", JObj [("title", JStr "t"); ("version", JStr "1")]);
                ("paths", JObj [])] in
  let data1 := JObj (valid ++ [("a a a", JNull)]) in
  let data2 := JObj (valid ++ [("a", JNull); ("a a", JNull)]) in
  (Spec_UnmarshalJSON Spec_zero data1 ∅).2
  = Some (errorString "additional properties not allowed in Spec: [a a a]")
  ∧ (Spec_UnmarshalJSON Spec_zero data2 ∅).2
    = Some (errorString "additional properties not allowed in Spec: [a a a]")
  ∧ size (unconsumed knownKeysSpec (rawMap_of data1)) = 1
  ∧ size (unconsumed knownKeysSpec (rawMap_of data2)) = 2
  ∧ ¬ (∃ offending : error → list string,
         ∀ data e,
           (Spec_UnmarshalJSON Spec_zero data ∅).2 = Some e →
           unconsumed knownKeysSpec (rawMap_of data) ≠ ∅ →
           length (offending e)
           = size (unconsumed knownKeysSpec (rawMap_of data))).
Proof.
  cbv zeta. split; [by vm_compute|]. split; [by vm_compute|].
  split; [by vm_compute|]. split; [by vm_compute|].
  intros [offending H].
  pose (e := errorString "additional properties not allowed in Spec: [a a a]").
  assert (length (offending e) = 1) as H1.
  { rewrite (H (JObj ([("openapi", JStr "3.0.3");
                       ("info", JObj [("title", JStr "t");
                                      ("version", JStr "1")]);
                       ("paths", JObj [])] ++ [("a a a", JNull)])) e).
    - by vm_compute.
    - by vm_compute.
    - intros He. apply (f_equal size) in He. by vm_compute in He. }
  assert (length (offending e) = 2) as H2.
  { rewrite (H (JObj ([("openapi", JStr "3.0.3");
                       ("info", JObj [("title", JStr "t");
                                      ("version", JStr "1")]);
                       ("paths", JObj [])] ++ [("a", JNull); ("a a", JNull)]))
               e).
    - by vm_compute.
    - by vm_compute.
    - intros He. apply (f_equal size) in He. by vm_compute in He. }
  rewrite H1 in H2. discriminate H2.
Qed.

(** C5 as stated fails: the payload is decoded by the struct, has the
    required keys and no key is left unconsumed, and the decoding fails all
    the same, on the [x-] member, whose number float64 cannot hold. *)
Lemma Spec_bucket_member_refused :
  let data := JObj [("openapi", JStr "3.0.3");
                    ("info", JObj [("title", JStr "t"); ("version", JStr "1")]);
                    ("paths", JObj []); ("x-n", JNum "1e400")] in
  (json_Unmarshal_struct "openapi3.marshalSpec" marshalSpec_fields data
     Spec_zero).2 = None
  ∧ require_keys requireKeysSpec (rawMap_of data) = None
  ∧ unconsumed knownKeysSpec (rawMap_of data) = ∅
  ∧ (Spec_UnmarshalJSON Spec_zero data ∅).2
    = Some (UnmarshalTypeError "number 1e400" "float64" EmptyString
              EmptyString)
  ∧ (Error <$> (Spec_UnmarshalJSON Spec_zero data ∅).2)
    = Some "json: cannot unmarshal number 1e400 into Go value of type float64".
Proof. cbv zeta. repeat split; vm_compute; reflexivity. Qed.

(** C1 as stated fails on [Parameter]: a header parameter decoded from a
    payload without [style] has a nil [Style]; it is written with the
    constant of the header location, which has [style]; decoding what was
    written gives a parameter whose [Style] is set. *)
Lemma Parameter_roundtrip_adds_style :
  let data := JObj [("name", JStr "h"); ("in", JStr "header");
                    ("content", JObj [])] in
  let p := (Parameter_UnmarshalJSON Parameter_zero data ∅).1.1 in
  let out := JObj [("name", JStr "h"); ("in", JStr "header");
                   ("content", JObj []); ("in", JStr "header");
                   ("style", JStr "simple")] in
  (Parameter_UnmarshalJSON Parameter_zero data ∅).2 = None
  ∧ Parameter_Style p = None
  ∧ Parameter_MarshalJSON p ∅ = Done (print out)
  ∧ (Parameter_UnmarshalJSON Parameter_zero out ∅).2 = None
  ∧ Parameter_Style (Parameter_UnmarshalJSON Parameter_zero out ∅).1.1
    = Some "simple"
  ∧ (Parameter_UnmarshalJSON Parameter_zero out ∅).1.1 ≠ p.
Proof.
  cbv zeta. split; [by vm_compute|]. split; [by vm_compute|].
  split; [by vm_compute|]. split; [by vm_compute|].
  split; [by vm_compute|].
  intros Heq. apply (f_equal Parameter_Style) in Heq.
  vm_compute in Heq. discriminate Heq.
Qed.


Lemma marshalUnion_first_error_witness :
  marshalUnion
    (raws ["{" +:+ quote "a" +:+ ":1}"]
     ++ Iface (PathParameterStyle_of "bogus") :: raws ["1"])
  = Failed (MarshalerError "openapi3.PathParameterStyle"
              (errors_New "unexpected PathParameterStyle value: bogus")).
Proof.
  by apply (marshalUnion_first_error _ _ _ _
              ("{" +:+ quote "a" +:+ ":1}", true)).
Defined.

Lemma Spec_decode_merges_bucket_witness :
  let s := set_Spec_MapOfAnything (Some 1%positive) Spec_zero in
  let σ : mapstore := {[ 1%positive := {[ "x-b" := JNum "2" ]} ]} in
  let data := JObj [("openapi", JStr "3.0.3");
                    ("info", JObj [("title", JStr "t"); ("version", JStr "1")]);
                    ("paths", JObj []); ("x-a", JNum "1")] in
  (Spec_UnmarshalJSON s data σ).2 = None
  ∧ bucket_contents (Spec_UnmarshalJSON s data σ).1.2
      (Spec_MapOfAnything (Spec_UnmarshalJSON s data σ).1.1)
    = extension_entries (rawMap_of data)
      ∪ bucket_contents σ (Spec_MapOfAnything s).
Proof.
  cbv zeta. split; [by vm_compute|].
  refine (proj1 (Spec_decode_merges_bucket _ _ _ _)). by vm_compute.
Defined.

Lemma Parameter_decode_sound_witness :
  let data := JObj [("name", JStr "id"); ("in", JStr "path");
                    ("required", JBool true); ("schema", JObj [])] in
  (Parameter_UnmarshalJSON Parameter_zero data ∅).2 = None
  ∧ ∃ kvs,
      data = JObj kvs
      ∧ is_Some (to_map kvs !! "name") ∧ is_Some (to_map kvs !! "in")
      ∧ (is_Some (to_map kvs !! "schema") ∨ is_Some (to_map kvs !! "content"))
      ∧ (numbers_fit kvs →
         (is_Some (to_map kvs !! "schema") ↔ to_map kvs !! "content" = None))
      ∧ Forall (fun key => key ∈ knownKeysParameter
                           ∨ regexX_MatchString key = true) kvs.*1.
Proof.
  cbv zeta. split; [by vm_compute|].
  apply (Parameter_decode_sound Parameter_zero _ ∅). by vm_compute.
Defined.

Lemma Parameter_In_names_Location_witness :
  let data := JObj [("name", JStr "q"); ("in", JStr "query");
                    ("content", JObj [])] in
  (Parameter_UnmarshalJSON Parameter_zero data ∅).2 = None
  ∧ ∃ s l,
      Parameter_In (Parameter_UnmarshalJSON Parameter_zero data ∅).1.1
      = ParameterIn_of s
      ∧ Parameter_Location (Parameter_UnmarshalJSON Parameter_zero data ∅).1.1
        = Some l
      ∧ arms_set l = 1
      ∧ (is_Some (ParameterLocation_PathParameter l) → s = "path")
      ∧ (is_Some (ParameterLocation_QueryParameter l) → s = "query")
      ∧ (is_Some (ParameterLocation_HeaderParameter l) → s = "header")
      ∧ (is_Some (ParameterLocation_CookieParameter l) → s = "cookie").
Proof.
  cbv zeta. split; [by vm_compute|].
  apply (Parameter_In_names_Location Parameter_zero _ ∅). by vm_compute.
Defined.

(** The three states on payloads: [1.0] is read as the number 1 and written
    as [1]; [null] is written as [null]. *)
Lemma Parameter_Example_tristate_witness :
  (Parameter_MarshalJSON
     (Parameter_UnmarshalJSON Parameter_zero
        (JObj [("name", JStr "q"); ("in", JStr "query");
               ("example", JNum "1.0"); ("content", JObj [])]) ∅).1.1 ∅
   = Done ("{" +:+ quote "name" +:+ ":" +:+ quote "q" +:+ ","
           +:+ quote "in" +:+ ":" +:+ quote "query" +:+ ","
           +:+ quote "example" +:+ ":1,"
           +:+ quote "content" +:+ ":{},"
           +:+ quote "in" +:+ ":" +:+ quote "query" +:+ "}"))
  ∧ (Parameter_MarshalJSON
       (Parameter_UnmarshalJSON Parameter_zero
          (JObj [("name", JStr "q"); ("in", JStr "query");
                 ("example", JNull); ("content", JObj [])]) ∅).1.1 ∅
     = Done ("{" +:+ quote "name" +:+ ":" +:+ quote "q" +:+ ","
             +:+ quote "in" +:+ ":" +:+ quote "query" +:+ ","
             +:+ quote "example" +:+ ":null,"
             +:+ quote "content" +:+ ":{},"
             +:+ quote "in" +:+ ":" +:+ quote "query" +:+ "}")).
Proof.
  pose proof Parameter_Example_tristate
    as (_ & _ & _ & _ & _ & _ & Hcycle).
  split.
  - destruct (Hcycle ∅ (JNum "1.0") eq_refl) as (Hd & _ & Hm).
    rewrite Hd. cbn [fst]. rewrite Hm. reflexivity.
  - destruct (Hcycle ∅ JNull eq_refl) as (Hd & _ & Hm).
    rewrite Hd. cbn [fst]. rewrite Hm. reflexivity.
Defined.

Lemma Spec_item_key_must_match_witness :
  let s : Spec :=
    mkSpec "3.0.3" (JObj [("title", JStr "t"); ("version", JStr "1")]) None
      None None None (JObj []) None None in
  Spec_valid s ∅ ∧ plain "foo" ∧ stable (JNum "1")
  ∧ (regexX_MatchString "foo" = false →
     find_field marshalSpec_fields "foo" = None →
     Spec_MarshalJSON (Spec_WithMapOfAnythingItem s "foo" (JNum "1") ∅).1
       (Spec_WithMapOfAnythingItem s "foo" (JNum "1") ∅).2
     = Done (print (Spec_doc (Spec_WithMapOfAnythingItem s "foo" (JNum "1") ∅).1
                      (Spec_WithMapOfAnythingItem s "foo" (JNum "1") ∅).2))
     ∧ Spec_UnmarshalJSON Spec_zero
         (Spec_doc (Spec_WithMapOfAnythingItem s "foo" (JNum "1") ∅).1
            (Spec_WithMapOfAnythingItem s "foo" (JNum "1") ∅).2) ∅
       = (Spec_zero,
          (bucket_after None ∅
             (extension_entries
                (rawMap_of
                   (Spec_doc (Spec_WithMapOfAnythingItem s "foo" (JNum "1") ∅).1
                      (Spec_WithMapOfAnythingItem s "foo" (JNum "1") ∅).2)))).2,
          Some (errors_New ("additional properties not allowed in Spec: ["
                            +:+ "foo" +:+ "]")))).
Proof.
  cbv zeta.
  match goal with |- ?V ∧ _ => assert V as Hv end.
  { split; [reflexivity|].
    split; [by repeat split|]. split; [done|].
    split; [constructor|]. split; [constructor|].
    split; [constructor|]. split; [by repeat split|]. split; [done|].
    intros key v Hk.
    change (bucket_contents _ _) with (∅ : gmap string json) in Hk.
    by rewrite lookup_empty in Hk. }
  split; [exact Hv|]. split; [reflexivity|].
  split; [by repeat split|].
  exact (proj2 (Spec_item_key_must_match _ "foo" (JNum "1") ∅ ∅ Hv eq_refl
                  (conj eq_refl (conj eq_refl eq_refl)))).
Defined.

(** The round trip of [Paths] applies to a node with one path item, held as
    an undecoded value, and one entry in its other bucket. *)
Lemma Paths_roundtrip_witness :
  let p : @Paths_ json :=
    mkPaths (Some {[ "/a" := JObj [] ]}) (Some {[ "x-b" := JNum "1" ]}) in
  Paths_valid (PathItem_Laws := interface_Laws) p
  ∧ Paths_MarshalJSON p
    = Done (print (Paths_doc (PathItem_Laws := interface_Laws) p))
  ∧ ∃ p', Paths_UnmarshalJSON (mkPaths None None)
            (Paths_doc (PathItem_Laws := interface_Laws) p) = (p', None)
          ∧ Paths_same p p'.
Proof.
  cbv zeta.
  match goal with |- ?V ∧ _ => assert V as Hv end.
  { split; intros key v Hk; simpl in Hk;
      apply lookup_singleton_Some in Hk as [<- <-]; by repeat split. }
  split; [exact Hv|]. exact (Paths_roundtrip _ Hv).
Defined.

Lemma Spec_decode_keeps_absent_witness :
  let s := mkSpec "3.0.0" JNull None (Some [JObj [("url", JStr "/v1")]]) None
             None JNull None None in
  let data := JObj [("openapi", JStr "3.0.3");
                    ("info", JObj [("title", JStr "t"); ("version", JStr "1")]);
                    ("paths", JObj [])] in
  (Spec_UnmarshalJSON s data ∅).2 = None
  ∧ (rawMap_of data !! "servers" = None →
     Spec_Servers (Spec_UnmarshalJSON s data ∅).1.1 = Spec_Servers s).
Proof.
  cbv zeta. split; [by vm_compute|].
  refine (proj1 (proj2 (Spec_decode_keeps_absent _ _ _ _))). by vm_compute.
Defined.

End Runs.
